(** * Poll rooms: vote admission, result aggregation and the SSE registry

    A shallow embedding of the server routes of the poll-room application

      - [app/api/polls/route.ts]              (create poll, [PollsRoute.POST])
      - [app/api/polls/[id]/route.ts]         (fetch poll, [PollRoute.GET])
      - [app/api/polls/[id]/vote/route.ts]    (submit vote, [VoteRoute.POST])
      - [app/api/polls/[id]/stream/route.ts]  (live updates, [StreamRoute])
      - [app/poll/[id]/page.tsx]              ([Page.getPercentage])

    The relational store behind Prisma is a record of a finite map of polls
    and the list of vote rows; every route is a function from the store (and
    the request) to a response and the store afterwards. *)

From Stdlib Require Import ZArith QArith Ascii String Floats.SpecFloat.
From stdpp Require Import base option numbers list strings pretty gmap relations.

Set Warnings "-register-all".

Local Open Scope string_scope.
Local Open Scope Z_scope.

(** ** JavaScript values as the routes see them *)

Module Js.

(** A JavaScript number.  The routes only compare the option index and
    hand it to the store, and comparisons of doubles are exact, so a
    finite double is kept as the rational it denotes. *)
Inductive number : Type :=
| NaN
| PosInf
| NegInf
| Fin (q : Q).

(** [x < 0] *)
Definition lt0 (x : number) : bool :=
  match x with
  | NegInf => true
  | Fin q => Qnum q <? 0
  | NaN | PosInf => false
  end.

(** [x >= n] for an array length [n] *)
Definition ge_length (x : number) (n : nat) : bool :=
  match x with
  | PosInf => true
  | Fin q => Z.of_nat n * Z.pos (Qden q) <=? Qnum q
  | NaN | NegInf => false
  end.

(** The whole part of a number that has one: the greatest integer that is
    not above it, which for a number that is not negative is the number
    without its fraction. *)
Definition integer_part (x : number) : option Z :=
  match x with
  | Fin q => Some (Qnum q / Z.pos (Qden q))
  | NaN | PosInf | NegInf => None
  end.

Definition of_Z (z : Z) : number := Fin (inject_Z z).

(** What [JSON.parse] produces, and [undefined] for a missing property. *)
Inductive value : Type :=
| VUndefined
| VNull
| VBool (b : bool)
| VNum (n : number)
| VStr (s : string)
| VArr (items : list value)
| VObj (fields : list (string * value)).

Fixpoint assoc (k : string) (fields : list (string * value)) : value :=
  match fields with
  | [] => VUndefined
  | (k', v) :: rest => if String.eqb k k' then v else assoc k rest
  end.

(** [const { k } = body]: destructuring [null] throws, every other parsed
    value yields the property or [undefined]. *)
Definition destructure (k : string) (body : value) : option value :=
  match body with
  | VNull | VUndefined => None
  | VObj fields => Some (assoc k fields)
  | VBool _ | VNum _ | VStr _ | VArr _ => Some VUndefined
  end.

(** White space removed by [String.prototype.trim], for code units below
    256: TAB, LF, VT, FF, CR, SPACE and NBSP. *)
Definition is_space (c : ascii) : bool :=
  let n := nat_of_ascii c in
  ((9 <=? n)%nat && (n <=? 13)%nat) || (n =? 32)%nat || (n =? 160)%nat.

Fixpoint trimStart (s : string) : string :=
  match s with
  | EmptyString => EmptyString
  | String c s' => if is_space c then trimStart s' else s
  end.

Fixpoint trimEnd (s : string) : string :=
  match s with
  | EmptyString => EmptyString
  | String c s' =>
      match trimEnd s' with
      | EmptyString => if is_space c then EmptyString else String c EmptyString
      | r => String c r
      end
  end.

Definition trim (s : string) : string := trimEnd (trimStart s).

(** [s.split(',')[0]] *)
Fixpoint split_comma_head (s : string) : string :=
  match s with
  | EmptyString => EmptyString
  | String c s' =>
      if Ascii.eqb c "," then EmptyString else String c (split_comma_head s')
  end.

(** [a || b] on strings that may be [null]: the empty string is falsy. *)
Definition or_else (a : option string) (b : option string) : option string :=
  match a with
  | Some EmptyString | None => b
  | Some _ => a
  end.

End Js.

(** ** The store: polls and the vote ledger ([migration.sql]) *)

Record Poll : Type := mkPoll {
  question : string;
  options : list string;
  poll_createdAt : Z
}.

(** A row of table [Vote]; the generated row id is never read by the routes
    and is left out.  Times are milliseconds since the epoch. *)
Record Vote : Type := mkVote {
  pollId : option string;
  optionIndex : Z;
  fingerprint : string;
  ipAddress : option string;
  userAgent : option string;
  createdAt : Z
}.

Record Db : Type := mkDb {
  polls : gmap string Poll;
  votes : list Vote
}.

Definition empty_db : Db := {| polls := ∅; votes := [] |}.

#[global] Instance Vote_eq_dec : EqDecision Vote.
Proof. solve_decision. Defined.

(** [prisma.vote.findMany({ where: { pollId } })], also the [votes] relation
    included by [prisma.poll.findUnique]. *)
Definition votesOf (db : Db) (id : string) : list Vote :=
  List.filter (λ v, bool_decide (pollId v = Some id)) (votes db).

(** ** Result aggregation

    [new Array(n).fill(0)] followed by the [forEach] that increments the
    count at each vote's index when the index is within bounds.  The guard
    keeps every write inside the array, so the array is never extended. *)

Definition in_bounds (n : nat) (v : Vote) : bool :=
  (0 <=? optionIndex v) && (optionIndex v <? Z.of_nat n).

Definition tally_step (n : nat) (counts : list nat) (v : Vote) : list nat :=
  if in_bounds n v
  then alter S (Z.to_nat (optionIndex v)) counts
  else counts.

Definition tally (n : nat) (vs : list Vote) : list nat :=
  foldl (tally_step n) (replicate n 0%nat) vs.

Definition sum_counts (counts : list nat) : nat := foldr Nat.add 0%nat counts.

(** ** Early returns

    A route handler either continues with a value or has already produced
    its response ([return NextResponse.json(...)]). *)

Definition Early (R A : Type) : Type := R + A.

Definition continue {R A : Type} (a : A) : Early R A := inr a.
Definition respond {R A : Type} (r : R) : Early R A := inl r.

Definition early_bind {R A B : Type} (c : Early R A) (k : A → Early R B) : Early R B :=
  match c with
  | inl r => inl r
  | inr a => k a
  end.

Notation "x ←! c ;; k" := (early_bind c (λ x, k))
  (at level 100, c at next level, right associativity, only parsing).
Notation "c ;;! k" := (early_bind c (λ _, k))
  (at level 100, right associativity, only parsing).

(** [if (cond) return r] *)
Definition return_if {R : Type} (cond : bool) (r : R) : Early R unit :=
  if cond then respond r else continue tt.

(** ** Submit vote: [app/api/polls/[id]/vote/route.ts] *)

Module VoteRoute.

Inductive Rejection : Type :=
| InvalidOption      (* 400 'Invalid option index' *)
| MissingIdentity    (* 400 'Fingerprint is required' *)
| PollNotFound       (* 404 'Poll not found' *)
| DuplicateIdentity  (* 409 'You have already voted in this poll' *)
| RateLimited        (* 429 'Please wait before voting again from this network' *)
| Failure.           (* 500 'Failed to record vote', the [catch] branch *)

Definition status (r : Rejection) : nat :=
  match r with
  | InvalidOption | MissingIdentity => 400
  | PollNotFound => 404
  | DuplicateIdentity => 409
  | RateLimited => 429
  | Failure => 500
  end.

Inductive Response : Type :=
| Success (voteCounts : list nat) (totalVotes : nat)
| Error (r : Rejection).

Record Headers : Type := mkHeaders {
  x_forwarded_for : option string;
  x_real_ip : option string;
  user_agent : option string
}.

Record Request : Type := mkRequest {
  params_id : string;
  body : Js.value;
  headers : Headers
}.

(** [60 * 1000] in [new Date(Date.now() - 60 * 1000)] *)
Definition COOLDOWN_MS : Z := 60 * 1000.

(** [x-forwarded-for?.split(',')[0].trim() || x-real-ip || 'unknown'] *)
Definition ipAddressOf (h : Headers) : string :=
  default "unknown"
    (Js.or_else
       (Js.or_else ((λ s, Js.trim (Js.split_comma_head s)) <$> x_forwarded_for h)
                   (x_real_ip h))
       None).

Definition userAgentOf (h : Headers) : string :=
  default "unknown" (Js.or_else (user_agent h) None).

(** [prisma.vote.findFirst({ where: { pollId, fingerprint } })] *)
Definition existingVoteByFingerprint (db : Db) (id fp : string) : option Vote :=
  List.find (λ v, bool_decide (pollId v = Some id) && bool_decide (fingerprint v = fp))
            (votes db).

(** [prisma.vote.findFirst({ where: { pollId, ipAddress,
      createdAt: { gte: fiveMinutesAgo } } })] *)
Definition recentVotesByIp (db : Db) (id ip : string) (now : Z) : option Vote :=
  List.find (λ v, bool_decide (pollId v = Some id) && bool_decide (ipAddress v = Some ip)
                  && (now - COOLDOWN_MS <=? createdAt v))
            (votes db).

(** The checks of the handler, up to the row that [prisma.vote.create]
    stores.  The handler passes [optionIndex] on as it is; column
    [optionIndex] is [INTEGER NOT NULL], and the row that is stored holds
    the whole part of the number.  Past both comparisons the number is
    finite or [NaN]; no JSON text denotes [NaN], and the model leaves it to
    the [catch] branch.  The three queries are taken on one store: a handler
    that passes them on a store that grows in between passes them all on
    the store of the second. *)
Definition admission (db : Db) (req : Request) (now : Z) : Early Response (Poll * Vote) :=
  optionIndex ←! from_option continue (respond (Error Failure))
                   (Js.destructure "optionIndex" (body req)) ;;
  fingerprint ←! from_option continue (respond (Error Failure))
                   (Js.destructure "fingerprint" (body req)) ;;
  idx ←! match optionIndex with
         | Js.VNum n => if Js.lt0 n then respond (Error InvalidOption) else continue n
         | _ => respond (Error InvalidOption)
         end ;;
  fp ←! match fingerprint with
        | Js.VStr s =>
            if bool_decide (s = "") || bool_decide (s = "server")
            then respond (Error MissingIdentity) else continue s
        | _ => respond (Error MissingIdentity)
        end ;;
  let ip := ipAddressOf (headers req) in
  let ua := userAgentOf (headers req) in
  poll ←! from_option continue (respond (Error PollNotFound))
            (polls db !! params_id req) ;;
  return_if (Js.ge_length idx (length (options poll))) (Error InvalidOption) ;;!
  return_if (bool_decide (is_Some (existingVoteByFingerprint db (params_id req) fp)))
            (Error DuplicateIdentity) ;;!
  return_if (bool_decide (is_Some (recentVotesByIp db (params_id req) ip now)))
            (Error RateLimited) ;;!
  i ←! from_option continue (respond (Error Failure)) (Js.integer_part idx) ;;
  continue (poll, {| pollId := Some (params_id req);
                     optionIndex := i;
                     fingerprint := fp;
                     ipAddress := Some ip;
                     userAgent := Some ua;
                     createdAt := now |}).

(** [prisma.vote.create]: the row is appended to the ledger. *)
Definition insert (db : Db) (v : Vote) : Db :=
  {| polls := polls db; votes := votes db ++ [v] |}.

(** [prisma.vote.findMany] and the tally, after a further [await]: the
    success response, computed on the store of that moment. *)
Definition results (db : Db) (pollId : string) (poll : Poll) : Response :=
  let allVotes := votesOf db pollId in
  Success (tally (length (options poll)) allVotes) (length allVotes).

(** The insert and the count with no write of another handler between
    them. *)
Definition commit (db : Db) (pollId : string) (poll : Poll) (v : Vote) : Response * Db :=
  let db' := insert db v in
  (results db' pollId poll, db').

(** The handler run without interruption: no other handler writes between
    its checks, its insert and its count. *)
Definition POST (db : Db) (req : Request) (now : Z) : Response * Db :=
  match admission db req now with
  | inl resp => (resp, db)
  | inr (poll, v) => commit db (params_id req) poll v
  end.

End VoteRoute.

(** ** Fetch poll: [app/api/polls/[id]/route.ts] *)

Module PollRoute.

Record Payload : Type := mkPayload {
  id : string;
  question : string;
  options : list string;
  voteCounts : list nat;
  totalVotes : nat;
  createdAt : Z
}.

Inductive Response : Type :=
| Found (p : Payload)
| NotFound.

Definition GET (db : Db) (pollId : string) : Response :=
  match polls db !! pollId with
  | None => NotFound
  | Some (mkPoll poll_question poll_options poll_created) =>
      let votes := votesOf db pollId in
      Found {| id := pollId;
               question := poll_question;
               options := poll_options;
               voteCounts := tally (length poll_options) votes;
               totalVotes := length votes;
               createdAt := poll_created |}
  end.

End PollRoute.

(** ** Create poll: [app/api/polls/route.ts] *)

Module PollsRoute.

Inductive Response : Type :=
| Created (id : string) (question : string) (options : list string) (shareUrl : string)
| BadRequest (error : string)      (* status 400 *)
| ServerError.                     (* status 500, the [catch] branch *)

(** The callback of [options.filter]:
    [typeof opt === 'string' && opt.trim().length > 0] *)
Definition valid_option (opt : Js.value) : option string :=
  match opt with
  | Js.VStr s => if bool_decide (Js.trim s = "") then None else Some s
  | _ => None
  end.

Definition validOptionsOf (items : list Js.value) : list string :=
  omap valid_option items.

(** The validation part of the handler: the trimmed question and the
    trimmed valid options that go to [prisma.poll.create]. *)
Definition validate (body : Js.value) : Early Response (string * list string) :=
  question ←! from_option continue (respond ServerError)
                (Js.destructure "question" body) ;;
  options ←! from_option continue (respond ServerError)
               (Js.destructure "options" body) ;;
  q ←! match question with
       | Js.VStr s =>
           if bool_decide (s = "") || bool_decide (Js.trim s = "")
           then respond (BadRequest "Question is required") else continue s
       | _ => respond (BadRequest "Question is required")
       end ;;
  items ←! match options with
           | Js.VArr items =>
               if (length items <? 2)%nat
               then respond (BadRequest "At least 2 options are required")
               else continue items
           | _ => respond (BadRequest "At least 2 options are required")
           end ;;
  let validOptions := validOptionsOf items in
  return_if (length validOptions <? 2)%nat
            (BadRequest "At least 2 valid options are required") ;;!
  return_if (10 <? length validOptions)%nat
            (BadRequest "Maximum 10 options allowed") ;;!
  continue (Js.trim q, Js.trim <$> validOptions).

(** [newId] is what [nanoid(10)] returned, [appUrl] the environment variable
    [NEXT_PUBLIC_APP_URL].  [Poll.id] is the primary key: inserting an id
    that is taken throws, which lands in the [catch] branch. *)
Definition POST (db : Db) (body : Js.value) (newId : string)
    (appUrl : option string) (now : Z) : Response * Db :=
  match validate body with
  | inl resp => (resp, db)
  | inr (q, opts) =>
      match polls db !! newId with
      | Some _ => (ServerError, db)
      | None =>
          let poll := {| question := q; options := opts; poll_createdAt := now |} in
          let base := default "http://localhost:3000" (Js.or_else appUrl None) in
          (Created newId q opts (base +:+ "/poll/" +:+ newId),
           {| polls := <[newId := poll]> (polls db); votes := votes db |})
      end
  end.

End PollsRoute.

(** ** Live updates: [app/api/polls/[id]/stream/route.ts] *)

Module StreamRoute.

(** A [ReadableStreamDefaultController], known by its identity. *)
Definition Controller : Type := nat.

(** [{ type: 'update', voteCounts, totalVotes }] *)
Record Update : Type := mkUpdate {
  voteCounts : list nat;
  totalVotes : nat
}.

(** The message [sendPollUpdate] enqueues on the new subscriber's
    controller; nothing is sent when the poll is gone. *)
Definition sendPollUpdate (db : Db) (pollId : string) : option Update :=
  match polls db !! pollId with
  | None => None
  | Some poll =>
      let votes := votesOf db pollId in
      Some {| voteCounts := tally (length (options poll)) votes;
              totalVotes := length votes |}
  end.

(** [start(controller)]: register the connection in the pool, creating the
    poll's set on first use. *)
Definition register (connections : gmap string (gset Controller))
    (pollId : string) (controller : Controller) : gmap string (gset Controller) :=
  let connections :=
    if bool_decide (is_Some (connections !! pollId)) then connections
    else <[pollId := ∅]> connections in
  alter (λ s, s ∪ {[controller]}) pollId connections.

(** The stream route: 404 when the poll does not exist, otherwise the
    connection is registered and receives the current snapshot. *)
Definition GET (db : Db) (connections : gmap string (gset Controller))
    (pollId : string) (controller : Controller)
    : option (option Update) * gmap string (gset Controller) :=
  match polls db !! pollId with
  | None => (None, connections)
  | Some _ => (Some (sendPollUpdate db pollId), register connections pollId controller)
  end.

(** The [abort] listener: cleanup on connection close. *)
Definition onAbort (connections : gmap string (gset Controller))
    (pollId : string) (controller : Controller) : gmap string (gset Controller) :=
  match connections !! pollId with
  | Some pollConnections =>
      let pollConnections := pollConnections ∖ {[controller]} in
      if bool_decide (size pollConnections = 0%nat)
      then delete pollId connections
      else <[pollId := pollConnections]> connections
  | None => connections
  end.

(** [broadcastPollUpdate]: [throws c] tells whether [c.enqueue] throws (the
    stream behind [c] is closed).  The result is the message with the set of
    controllers it was delivered to, and the pool afterwards: the [catch]
    branch deletes the failing controller from the poll's set, which is the
    very set object the pool holds. *)
Definition broadcastPollUpdate (db : Db) (connections : gmap string (gset Controller))
    (throws : Controller → bool) (pollId : string)
    : option (Update * gset Controller) * gmap string (gset Controller) :=
  match connections !! pollId with
  | None => (None, connections)
  | Some pollConnections =>
      if bool_decide (size pollConnections = 0%nat) then (None, connections)
      else
        match polls db !! pollId with
        | None => (None, connections)
        | Some poll =>
            let votes := votesOf db pollId in
            let message := {| voteCounts := tally (length (options poll)) votes;
                              totalVotes := length votes |} in
            let delivered := filter (λ c, throws c = false) pollConnections in
            (Some (message, delivered), <[pollId := delivered]> connections)
        end
  end.

(** No poll id is mapped to an empty set of controllers. *)
Definition no_empty_sets (connections : gmap string (gset Controller)) : Prop :=
  ∀ pollId s, connections !! pollId = Some s → s ≠ ∅.

End StreamRoute.

(** ** The poll page: [app/poll/[id]/page.tsx]

    [getPercentage] works on doubles: binary64 numbers with the operations
    of [SpecFloat] at precision 53. *)

Module Page.

Definition prec : Z := 53.
Definition emax : Z := 1024.

Definition double_of_Z (z : Z) : spec_float := binary_normalize prec emax z 0 false.

(** [Math.round]: the integer nearest to [x], a tie going towards +∞. *)
Definition Math_round (x : spec_float) : Js.number :=
  match x with
  | S754_nan => Js.NaN
  | S754_infinity s => if s then Js.NegInf else Js.PosInf
  | S754_zero _ => Js.of_Z 0
  | S754_finite s m e =>
      let sm := if s then Z.neg m else Z.pos m in
      if 0 <=? e then Js.of_Z (sm * 2 ^ e)
      else Js.of_Z ((2 * sm + 2 ^ (- e)) / (2 * 2 ^ (- e)))
  end.

Definition getPercentage (count total : spec_float) : Js.number :=
  if SFeqb total (S754_zero false) then Js.of_Z 0
  else Math_round (SFmul prec emax (SFdiv prec emax count total) (double_of_Z 100)).

(** The percentage shown for an option with [count] of [total] votes. *)
Definition percentage (count total : nat) : Js.number :=
  getPercentage (double_of_Z (Z.of_nat count)) (double_of_Z (Z.of_nat total)).

(** The specification's formula, in exact arithmetic:
    [round(100 * count / total)] with a half rounded up as [Math.round]
    does, and zero when [total] is zero. *)
Definition spec_percentage (count total : nat) : Z :=
  if (total =? 0)%nat then 0
  else (2 * (100 * Z.of_nat count) + Z.of_nat total) / (2 * Z.of_nat total).

End Page.

(** ** Runs of the service

    The store changes only through the two writing routes.  The vote
    handler awaits between its checks and its insert, and other handlers
    run in between: the row it inserts was admitted on an earlier store
    [db0], from which the service has run to the present one.  The row's
    [createdAt] is the time of the insert. *)

Definition stamp (v : Vote) (t : Z) : Vote :=
  {| pollId := pollId v;
     optionIndex := optionIndex v;
     fingerprint := fingerprint v;
     ipAddress := ipAddress v;
     userAgent := userAgent v;
     createdAt := t |}.

Inductive step : Db → Db → Prop :=
| step_vote (db : Db) (req : VoteRoute.Request) (now : Z) :
    step db (VoteRoute.POST db req now).2
| step_create (db : Db) (body : Js.value) (newId : string)
    (appUrl : option string) (now : Z) :
    step db (PollsRoute.POST db body newId appUrl now).2
| step_insert (db0 db : Db) (req : VoteRoute.Request) (now : Z)
    (poll : Poll) (v : Vote) (t : Z) :
    rtc step db0 db →
    VoteRoute.admission db0 req now = continue (poll, v) →
    now ≤ t →
    step db (VoteRoute.insert db (stamp v t)).

Definition reachable (db : Db) : Prop := rtc step empty_db db.

(** Every vote row belongs to a poll of the store and names one of its
    options. *)
Definition votes_in_bounds (db : Db) : Prop :=
  ∀ v, v ∈ votes db →
    ∃ id poll, pollId v = Some id ∧ polls db !! id = Some poll ∧
               in_bounds (length (options poll)) v = true.

(** The body of a vote request passes the checks made before the poll is
    looked up: [optionIndex] is a number that is not negative and
    [fingerprint] a string other than the empty one and ['server']. *)
Definition well_formed_body (req : VoteRoute.Request) (n : Js.number) (fp : string) : Prop :=
  Js.destructure "optionIndex" (VoteRoute.body req) = Some (Js.VNum n) ∧
  Js.lt0 n = false ∧
  Js.destructure "fingerprint" (VoteRoute.body req) = Some (Js.VStr fp) ∧
  fp ≠ "" ∧ fp ≠ "server".

(** The row [prisma.vote.create] inserts for an admitted request. *)
Definition new_vote (req : VoteRoute.Request) (i : Z) (fp : string) (now : Z) : Vote :=
  {| pollId := Some (VoteRoute.params_id req);
     optionIndex := i;
     fingerprint := fp;
     ipAddress := Some (VoteRoute.ipAddressOf (VoteRoute.headers req));
     userAgent := Some (VoteRoute.userAgentOf (VoteRoute.headers req));
     createdAt := now |}.

(** Runs in which no two handlers overlap: every handler runs without
    interruption. *)
Inductive serial_step : Db → Db → Prop :=
| serial_vote (db : Db) (req : VoteRoute.Request) (now : Z) :
    serial_step db (VoteRoute.POST db req now).2
| serial_create (db : Db) (body : Js.value) (newId : string)
    (appUrl : option string) (now : Z) :
    serial_step db (PollsRoute.POST db body newId appUrl now).2.

Definition serially_reachable (db : Db) : Prop := rtc serial_step empty_db db.

(** No two rows of the ledger carry the same poll and fingerprint. *)
Definition unique_identity (db : Db) : Prop :=
  ∀ i j v w, votes db !! i = Some v → votes db !! j = Some w →
    pollId v = pollId w → fingerprint v = fingerprint w → i = j.

(** Two votes of one poll from one origin are more than the cooldown
    apart. *)
Definition origin_spaced (db : Db) : Prop :=
  ∀ i j v w, votes db !! i = Some v → votes db !! j = Some w → i ≠ j →
    pollId v = pollId w → ipAddress v = ipAddress w →
    VoteRoute.COOLDOWN_MS < Z.abs (createdAt v - createdAt w).

(** A store whose ledger holds a vote for an option the poll does not have. *)
Definition stale_index_db : Db :=
  {| polls := {[ "p1" := {| question := "Tea or coffee?";
                            options := ["Tea"; "Coffee"];
                            poll_createdAt := 0 |} ]};
     votes := [ {| pollId := Some "p1"; optionIndex := 5; fingerprint := "x1";
                   ipAddress := Some "10.0.0.1"; userAgent := Some "unknown";
                   createdAt := 1000 |} ] |}.

(** A small run: a poll with two options is created, then one vote arrives
    without any address header. *)
Definition tea_body : Js.value :=
  Js.VObj [("question", Js.VStr "Tea or coffee?");
           ("options", Js.VArr [Js.VStr "Tea"; Js.VStr "Coffee"])].

Definition vote_body (n : Js.number) (fp : string) : Js.value :=
  Js.VObj [("optionIndex", Js.VNum n); ("fingerprint", Js.VStr fp)].

Definition no_headers : VoteRoute.Headers :=
  {| VoteRoute.x_forwarded_for := None;
     VoteRoute.x_real_ip := None;
     VoteRoute.user_agent := None |}.

Definition vote_request (id : string) (n : Js.number) (fp : string) : VoteRoute.Request :=
  {| VoteRoute.params_id := id;
     VoteRoute.body := vote_body n fp;
     VoteRoute.headers := no_headers |}.

Definition tea_db : Db := (PollsRoute.POST empty_db tea_body "p1" None 0).2.

Definition tea_db_voted : Db :=
  (VoteRoute.POST tea_db (vote_request "p1" (Js.of_Z 0) "x1") 1000).2.

(** The run with an overlap: the voter of [tea_db_voted] submitted a second
    time, for the other option, before the first row was stored; the second
    row is stored a millisecond after the first. *)
Definition twice_voted_db : Db :=
  VoteRoute.insert tea_db_voted
    (stamp (new_vote (vote_request "p1" (Js.of_Z 1) "x1") 1 "x1" 1000) 1001).

(** A run without overlap: a second browser, behind no proxy header either,
    votes 69 seconds after the first. *)
Definition tea_db_voted_twice : Db :=
  (VoteRoute.POST tea_db_voted (vote_request "p1" (Js.of_Z 1) "x2") 70000).2.


(** The acceptance condition of the create-poll route on a request body:
    the question is a string that is not blank, the options are an array,
    and between two and ten of its entries are strings that are not blank. *)
Definition creatable (body : Js.value) (s : string) (items : list Js.value) : Prop :=
  Js.destructure "question" body = Some (Js.VStr s) ∧
  Js.trim s ≠ "" ∧
  Js.destructure "options" body = Some (Js.VArr items) ∧
  (2 ≤ length (PollsRoute.validOptionsOf items) ≤ 10)%nat.

(** A pool with one connection on poll [p1]. *)
Definition one_connection : gmap string (gset StreamRoute.Controller) :=
  StreamRoute.register ∅ "p1" 7%nat.

(** Whether a string holds a comma. *)
Fixpoint has_comma (s : string) : bool :=
  match s with
  | EmptyString => false
  | String c rest => Ascii.eqb c "," || has_comma rest
  end.

(** ** Browser fingerprint: [lib/fingerprint.ts] *)

Module Fingerprint.

(** [ToInt32]: the value modulo [2 ^ 32], in the signed range. *)
Definition to_int32 (z : Z) : Z := (z + 2 ^ 31) mod 2 ^ 32 - 2 ^ 31.

(** [str.charCodeAt(i)], for the code units below 256 that a [string]
    holds. *)
Definition charCode (c : ascii) : Z := Z.of_nat (nat_of_ascii c).

(** One round of the loop of [hashString]:
    [hash = (hash << 5) - hash + char; hash = hash & hash].  The shift works
    on 32-bit integers, the subtraction and the addition are exact on
    doubles of this size, and [hash & hash] converts back to 32 bits. *)
Definition hash_round (hash : Z) (c : ascii) : Z :=
  to_int32 (to_int32 (to_int32 hash * 2 ^ 5) - hash + charCode c).

Fixpoint hash_loop (hash : Z) (str : string) : Z :=
  match str with
  | EmptyString => hash
  | String c rest => hash_loop (hash_round hash c) rest
  end.

(** The digits of [Number.prototype.toString(36)]: [0-9] then [a-z]. *)
Definition digit36 (d : Z) : ascii :=
  ascii_of_nat (Z.to_nat (if d <? 10 then 48 + d else 87 + d)).

Fixpoint toString36_from (fuel : nat) (n : Z) (acc : string) : string :=
  match fuel with
  | O => acc
  | S fuel' =>
      let acc' := String (digit36 (n mod 36)) acc in
      if n / 36 =? 0 then acc' else toString36_from fuel' (n / 36) acc'
  end.

(** [n.toString(36)] for an integer [n] that is not negative; a number of
    [k] bits has no more than [k] digits. *)
Definition toString36 (n : Z) : string :=
  toString36_from (S (Z.to_nat (Z.log2 n))) n EmptyString.

Definition hashString (str : string) : string :=
  toString36 (Z.abs (hash_loop 0 str)).

(** [navigator.deviceMemory], in GiB: a quarter, a half, or a whole
    number. *)
Inductive DeviceMemory : Type :=
| Quarter
| Half
| GiB (n : nat).

(** What [generateFingerprint] reads from [window], [navigator], [Intl]
    and the canvas.  [hardwareConcurrency] and [deviceMemory] are
    [undefined] in some browsers; [canvas] is the result of [toDataURL()],
    absent when there is no 2d context or the canvas throws. *)
Record Browser : Type := mkBrowser {
  screen_width : nat;
  screen_height : nat;
  screen_colorDepth : nat;
  timeZone : string;
  language : string;
  platform : string;
  hardwareConcurrency : option nat;
  deviceMemory : option DeviceMemory;
  userAgent : string;
  canvas : option string
}.

(** [String(n)] on the numbers above. *)
Definition String_of_nat (n : nat) : string := pretty n.

Definition String_of_memory (m : DeviceMemory) : string :=
  match m with
  | Quarter => "0.25"
  | Half => "0.5"
  | GiB n => String_of_nat n
  end.

(** Zero is falsy. *)
Definition truthy_nat (n : option nat) : option nat :=
  match n with
  | Some O | None => None
  | Some _ => n
  end.

Definition truthy_memory (m : option DeviceMemory) : option DeviceMemory :=
  match m with
  | Some (GiB O) | None => None
  | Some _ => m
  end.

Fixpoint string_drop (n : nat) (s : string) : string :=
  match n, s with
  | O, _ => s
  | S n', EmptyString => EmptyString
  | S n', String _ rest => string_drop n' rest
  end.

(** [s.slice(-k)]: the last [k] code units, or all of [s]. *)
Definition slice_last (k : nat) (s : string) : string :=
  string_drop (String.length s - k) s.

(** The [components] array at the end of the pushes. *)
Definition components (b : Browser) : list string :=
  [String_of_nat (screen_width b) +:+ "x" +:+ String_of_nat (screen_height b);
   String_of_nat (screen_colorDepth b);
   timeZone b;
   language b;
   platform b;
   from_option String_of_nat "unknown" (truthy_nat (hardwareConcurrency b))]
  ++ from_option (λ m, [String_of_memory m]) [] (truthy_memory (deviceMemory b))
  ++ [userAgent b]
  ++ from_option (λ url, [slice_last 50 url]) [] (canvas b).

Definition generateFingerprint (b : Browser) : string :=
  hashString (String.concat "|" (components b)).

(** [localStorage]: its items, and whether reading or writing throws
    (storage blocked, quota exceeded). *)
Record LocalStorage : Type := mkLocalStorage {
  items : gmap string string;
  getItem_throws : bool;
  setItem_throws : bool
}.

Definition STORAGE_KEY : string := "poll_fingerprint".

(** [window] tells whether [typeof window !== 'undefined'], [b] is the
    browser behind it. *)
Definition getOrCreateFingerprint (window : bool) (ls : LocalStorage)
    (b : Browser) : string * LocalStorage :=
  if negb window then ("server", ls)
  else if getItem_throws ls then (generateFingerprint b, ls)
  else
    match Js.or_else (items ls !! STORAGE_KEY) None with
    | Some fingerprint => (fingerprint, ls)
    | None =>
        let fingerprint := generateFingerprint b in
        if setItem_throws ls then (generateFingerprint b, ls)
        else (fingerprint,
              {| items := <[STORAGE_KEY := fingerprint]> (items ls);
                 getItem_throws := getItem_throws ls;
                 setItem_throws := setItem_throws ls |})
    end.

(** The value of a base-36 digit, and [parseInt(s, 36)] on a string of
    digits: the reading that [toString36] is measured against. *)
Definition digit_value (c : ascii) : Z :=
  let n := Z.of_nat (nat_of_ascii c) in
  if n <? 58 then n - 48 else n - 87.

Fixpoint parse36_from (value : Z) (s : string) : Z :=
  match s with
  | EmptyString => value
  | String c rest => parse36_from (value * 36 + digit_value c) rest
  end.

Definition parse36 (s : string) : Z := parse36_from 0 s.

Definition is_digit36 (c : ascii) : bool :=
  let n := nat_of_ascii c in
  ((48 <=? n)%nat && (n <=? 57)%nat) || ((97 <=? n)%nat && (n <=? 122)%nat).

Fixpoint all_digit36 (s : string) : bool :=
  match s with
  | EmptyString => true
  | String c rest => is_digit36 c && all_digit36 rest
  end.

(** The 31-adic polynomial of the code units, without wrap-around. *)
Fixpoint poly31 (value : Z) (str : string) : Z :=
  match str with
  | EmptyString => value
  | String c rest => poly31 (31 * value + charCode c) rest
  end.

End Fingerprint.

(** A desktop browser without [deviceMemory] and without a canvas
    context. *)
Definition unlucky_browser : Fingerprint.Browser :=
  {| Fingerprint.screen_width := 1920;
     Fingerprint.screen_height := 1080;
     Fingerprint.screen_colorDepth := 24;
     Fingerprint.timeZone := "Europe/Berlin";
     Fingerprint.language := "en-US";
     Fingerprint.platform := "Linux x86_64";
     Fingerprint.hardwareConcurrency := Some 8%nat;
     Fingerprint.deviceMemory := None;
     Fingerprint.userAgent := "Mozilla/5.0 (X11; Linux x86_64) Build/wrfsdx";
     Fingerprint.canvas := None |}.

Definition empty_storage : Fingerprint.LocalStorage :=
  {| Fingerprint.items := ∅;
     Fingerprint.getItem_throws := false;
     Fingerprint.setItem_throws := false |}.

(** ** The responses of the vote route as the page reads them *)

Module VoteErrors.

(** The [error] text of each rejection. *)
Definition error_text (r : VoteRoute.Rejection) : string :=
  match r with
  | VoteRoute.InvalidOption => "Invalid option index"
  | VoteRoute.MissingIdentity => "Fingerprint is required"
  | VoteRoute.PollNotFound => "Poll not found"
  | VoteRoute.DuplicateIdentity => "You have already voted in this poll"
  | VoteRoute.RateLimited => "Please wait before voting again from this network"
  | VoteRoute.Failure => "Failed to record vote"
  end.

(** [s.startsWith(sub)] *)
Fixpoint startsWith (sub s : string) : bool :=
  match sub, s with
  | EmptyString, _ => true
  | String _ _, EmptyString => false
  | String a sub', String b s' => Ascii.eqb a b && startsWith sub' s'
  end.

(** [s.includes(sub)] *)
Fixpoint includes (sub s : string) : bool :=
  startsWith sub s ||
  match s with
  | EmptyString => false
  | String _ s' => includes sub s'
  end.

End VoteErrors.

(** ** The poll page as a state machine: [app/poll/[id]/page.tsx]

    The state is the values of the [useState] hooks that the handlers read
    or write.  A handler reads the state of the last render; the model
    takes every update as rendered before the next event arrives. *)

Module PollPage.

Record State : Type := mkState {
  poll : option PollRoute.Payload;
  loading : bool;
  voting : bool;
  hasVoted : bool;
  selectedOption : option nat
}.

Definition initial : State :=
  {| poll := None; loading := true; voting := false; hasVoted := false;
     selectedOption := None |}.

Inductive Effect : Type :=
| ToastSuccess (message : string)
| ToastError (message : string)
| Navigate (path : string).

(** What the [fetch] of [fetchPoll] ends with: a response of the
    fetch-poll route, or a failure (a status other than 200 and 404, or an
    exception). *)
Inductive FetchOutcome : Type :=
| FetchReplied (response : PollRoute.Response)
| FetchFailed.

(** [fetchPoll] once its [fetch] has ended; the [finally] clears
    [loading] on every path. *)
Definition fetchPoll (st : State) (outcome : FetchOutcome) : State * list Effect :=
  match outcome with
  | FetchReplied (PollRoute.Found data) =>
      ({| poll := Some data; loading := false; voting := voting st;
          hasVoted := hasVoted st; selectedOption := selectedOption st |}, [])
  | FetchReplied PollRoute.NotFound =>
      ({| poll := poll st; loading := false; voting := voting st;
          hasVoted := hasVoted st; selectedOption := selectedOption st |},
       [ToastError "Poll not found"; Navigate "/"])
  | FetchFailed =>
      ({| poll := poll st; loading := false; voting := voting st;
          hasVoted := hasVoted st; selectedOption := selectedOption st |},
       [ToastError "Failed to load poll"])
  end.

(** [setPoll((prev) => prev ? { ...prev, voteCounts, totalVotes } : null)] *)
Definition withCounts (prev : option PollRoute.Payload)
    (voteCounts : list nat) (totalVotes : nat) : option PollRoute.Payload :=
  match prev with
  | None => None
  | Some p =>
      Some {| PollRoute.id := PollRoute.id p;
              PollRoute.question := PollRoute.question p;
              PollRoute.options := PollRoute.options p;
              PollRoute.voteCounts := voteCounts;
              PollRoute.totalVotes := totalVotes;
              PollRoute.createdAt := PollRoute.createdAt p |}
  end.

(** The two messages the stream route sends. *)
Inductive SseMessage : Type :=
| Connected
| UpdateMessage (u : StreamRoute.Update).

(** [eventSource.onmessage] *)
Definition onmessage (st : State) (data : SseMessage) : State :=
  match data with
  | Connected => st
  | UpdateMessage u =>
      {| poll := withCounts (poll st) (StreamRoute.voteCounts u) (StreamRoute.totalVotes u);
         loading := loading st; voting := voting st; hasVoted := hasVoted st;
         selectedOption := selectedOption st |}
  end.

(** The first half of [handleVote], up to the [fetch]: the request body, if
    a request is sent.  [fingerprint] is what [getOrCreateFingerprint]
    returned. *)
Definition handleVote_begin (st : State) (optionIndex : nat) (fingerprint : string)
    : State * option Js.value :=
  if hasVoted st || voting st then (st, None)
  else
    ({| poll := poll st; loading := loading st; voting := true;
        hasVoted := hasVoted st; selectedOption := Some optionIndex |},
     Some (vote_body (Js.of_Z (Z.of_nat optionIndex)) fingerprint)).

(** What the [await fetch] of [handleVote] ends with: a response of the
    vote route, or an exception with its message. *)
Inductive Outcome : Type :=
| Replied (response : VoteRoute.Response)
| Threw (message : string).

(** The second half of [handleVote]: the [try] after the [fetch], the
    [catch] and the [finally]. *)
Definition handleVote_end (st : State) (outcome : Outcome) : State * list Effect :=
  match outcome with
  | Replied (VoteRoute.Success voteCounts totalVotes) =>
      ({| poll := withCounts (poll st) voteCounts totalVotes;
          loading := loading st; voting := false; hasVoted := true;
          selectedOption := selectedOption st |},
       [ToastSuccess "Vote recorded!"])
  | Replied (VoteRoute.Error r) =>
      let message :=
        default "Failed to vote" (Js.or_else (Some (VoteErrors.error_text r)) None) in
      ({| poll := poll st; loading := loading st; voting := false;
          hasVoted := hasVoted st || VoteErrors.includes "already voted" message;
          selectedOption := selectedOption st |},
       [ToastError message])
  | Threw message =>
      ({| poll := poll st; loading := loading st; voting := false;
          hasVoted := hasVoted st || VoteErrors.includes "already voted" message;
          selectedOption := selectedOption st |},
       [ToastError message])
  end.

(** What happens to the page. *)
Inductive Event : Type :=
| Fetched (outcome : FetchOutcome)
| Message (data : SseMessage)
| Click (optionIndex : nat) (fingerprint : string)
| Settled (outcome : Outcome).

Definition handle (st : State) (e : Event) : State :=
  match e with
  | Fetched outcome => (fetchPoll st outcome).1
  | Message data => onmessage st data
  | Click optionIndex fingerprint => (handleVote_begin st optionIndex fingerprint).1
  | Settled outcome => (handleVote_end st outcome).1
  end.

(** The requests a run of events sends. *)
Fixpoint requests (st : State) (events : list Event) : list Js.value :=
  match events with
  | [] => []
  | e :: rest =>
      match e with
      | Click optionIndex fingerprint =>
          match (handleVote_begin st optionIndex fingerprint).2 with
          | Some body => body :: requests (handle st e) rest
          | None => requests (handle st e) rest
          end
      | _ => requests (handle st e) rest
      end
  end.


(** [poll.voteCounts[index] || 0] and the percentage of each option, in
    the order of the options. *)
Definition displayed (p : PollRoute.Payload) : list Js.number :=
  (λ index, Page.percentage (default 0%nat (PollRoute.voteCounts p !! index))
                            (PollRoute.totalVotes p))
  <$> seq 0 (length (PollRoute.options p)).

End PollPage.

(** ** The create-poll form: [app/page.tsx] *)

Module Home.

(** [useState(["", ""])] *)
Definition initial_options : list string := [EmptyString; EmptyString].

Definition addOption (options : list string) : list string :=
  if (length options <? 10)%nat then options ++ [EmptyString] else options.

(** [options.filter((_, i) => i !== index)] drops the entry at [index]. *)
Definition removeOption (options : list string) (index : nat) : list string :=
  if (2 <? length options)%nat then delete index options else options.

(** [newOptions[index] = value] for the index of a rendered input.  An
    index beyond the array would extend it, leaving holes; the form never
    passes one, and the model has no such array ([None]). *)
Definition updateOption (options : list string) (index : nat) (value : string)
    : option (list string) :=
  if (index <? length options)%nat then Some (<[index := value]> options) else None.

(** The part of [handleSubmit] before the [fetch]: the request body, or no
    request when fewer than two options are filled in. *)
Definition handleSubmit (question : string) (options : list string) : option Js.value :=
  let validOptions := List.filter (λ opt, negb (bool_decide (Js.trim opt = ""))) options in
  if (length validOptions <? 2)%nat then None
  else Some (Js.VObj [("question", Js.VStr (Js.trim question));
                      ("options", Js.VArr (Js.VStr <$> validOptions))]).

(** What the user can do to the list of options. *)
Inductive edit : list string → list string → Prop :=
| edit_add options : edit options (addOption options)
| edit_remove options index : edit options (removeOption options index)
| edit_update options index value options' :
    updateOption options index value = Some options' → edit options options'.

End Home.

(** ** The broadcast loop, controller by controller

    [pollConnections.forEach] with its [try] and [catch]: the controllers
    that took the message so far, and the set as the deletions leave it. *)

Definition enqueue_each (throws : StreamRoute.Controller → bool)
    (controllers : list StreamRoute.Controller)
    (pollConnections : gset StreamRoute.Controller)
    : gset StreamRoute.Controller * gset StreamRoute.Controller :=
  foldl (λ '(delivered, remaining) controller,
           if throws controller
           then (delivered, remaining ∖ {[controller]})
           else (delivered ∪ {[controller]}, remaining))
        (∅, pollConnections) controllers.

(** Every vote row is one the vote route builds: it belongs to a poll of
    the store, names one of its options, and carries a fingerprint and an
    origin that are not empty. *)
Definition ledger_well_formed (db : Db) : Prop :=
  ∀ v, v ∈ votes db →
    ∃ id poll ip ua,
      pollId v = Some id ∧ polls db !! id = Some poll ∧
      in_bounds (length (options poll)) v = true ∧
      fingerprint v ≠ "" ∧ fingerprint v ≠ "server" ∧
      ipAddress v = Some ip ∧ ip ≠ "" ∧
      userAgent v = Some ua ∧ ua ≠ "".

(** A poll as the create route stores it: a question and between two and
    ten options, none of them blank, all of them trimmed. *)
Definition poll_well_formed (poll : Poll) : Prop :=
  Js.trim (question poll) = question poll ∧ question poll ≠ "" ∧
  (2 ≤ length (options poll) ≤ 10)%nat ∧
  ∀ opt, opt ∈ options poll → Js.trim opt = opt ∧ opt ≠ "".

(** * Properties *)

(** ** The aggregator *)

Section Aggregation.

Context (n : nat).

Lemma tally_step_length (counts : list nat) (v : Vote) :
  length (tally_step n counts v) = length counts.
Proof.
  unfold tally_step. destruct (in_bounds n v); [apply length_alter | reflexivity].
Qed.

Lemma foldl_tally_length (vs : list Vote) (counts : list nat) :
  length (foldl (tally_step n) counts vs) = length counts.
Proof.
  revert counts. induction vs as [|v vs IH]; intros counts; simpl; [done|].
  by rewrite IH, tally_step_length.
Qed.

Lemma tally_length (vs : list Vote) : length (tally n vs) = n.
Proof. unfold tally. by rewrite foldl_tally_length, length_replicate. Qed.

Lemma sum_counts_alter_S (counts : list nat) (i : nat) :
  (i < length counts)%nat →
  sum_counts (alter S i counts) = S (sum_counts counts).
Proof.
  unfold sum_counts. revert i.
  induction counts as [|c counts IH]; intros [|i] Hi; simpl in *; try lia.
  specialize (IH i ltac:(lia)). unfold alter in IH. lia.
Qed.

Lemma sum_counts_replicate_0 (k : nat) : sum_counts (replicate k 0%nat) = 0%nat.
Proof. induction k; simpl; auto. Qed.

Lemma in_bounds_to_nat (v : Vote) :
  in_bounds n v = true → (Z.to_nat (optionIndex v) < n)%nat.
Proof. unfold in_bounds. intros H. apply andb_true_iff in H as [H1 H2]. lia. Qed.

Lemma foldl_tally_sum (vs : list Vote) (counts : list nat) :
  length counts = n →
  sum_counts (foldl (tally_step n) counts vs)
  = (sum_counts counts + length (List.filter (in_bounds n) vs))%nat.
Proof.
  revert counts. induction vs as [|v vs IH]; intros counts Hlen; simpl; [lia|].
  rewrite IH by (by rewrite tally_step_length).
  unfold tally_step. destruct (in_bounds n v) eqn:Hv; simpl; [|lia].
  rewrite sum_counts_alter_S; [lia|].
  rewrite Hlen. by apply in_bounds_to_nat.
Qed.

(** The counts add up to the number of votes whose index is within bounds. *)
Lemma tally_sum (vs : list Vote) :
  sum_counts (tally n vs) = length (List.filter (in_bounds n) vs).
Proof.
  unfold tally. rewrite foldl_tally_sum by apply length_replicate.
  by rewrite sum_counts_replicate_0.
Qed.

Lemma tally_sum_le (vs : list Vote) : (sum_counts (tally n vs) ≤ length vs)%nat.
Proof. rewrite tally_sum. apply List.filter_length_le. Qed.

Lemma filter_all_length {A : Type} (f : A → bool) (l : list A) :
  (∀ x, x ∈ l → f x = true) → length (List.filter f l) = length l.
Proof.
  induction l as [|x l IH]; intros H; simpl; [done|].
  rewrite (H x) by left. simpl. f_equal. apply IH. intros y Hy. apply H. by right.
Qed.

Lemma tally_sum_total (vs : list Vote) :
  (∀ v, v ∈ vs → in_bounds n v = true) → sum_counts (tally n vs) = length vs.
Proof. intros H. rewrite tally_sum. by apply filter_all_length. Qed.

End Aggregation.

(** ** Vote admission *)

Section Admission.

Import VoteRoute.

Context (db : Db) (req : Request) (now : Z).

(** What the handler does after the body has passed the first two checks. *)
Lemma admission_well_formed (n : Js.number) (fp : string) :
  well_formed_body req n fp →
  admission db req now =
    match polls db !! params_id req with
    | None => respond (Error PollNotFound)
    | Some poll =>
        if Js.ge_length n (length (options poll)) then respond (Error InvalidOption)
        else if bool_decide (is_Some (existingVoteByFingerprint db (params_id req) fp))
        then respond (Error DuplicateIdentity)
        else if bool_decide (is_Some (recentVotesByIp db (params_id req)
                                        (ipAddressOf (headers req)) now))
        then respond (Error RateLimited)
        else match Js.integer_part n with
             | None => respond (Error Failure)
             | Some i => continue (poll, new_vote req i fp now)
             end
    end.
Proof.
  intros (Hoi & Hlt & Hfp & Hne & Hsrv). unfold admission.
  rewrite Hoi, Hfp. simpl. rewrite Hlt. simpl.
  rewrite !bool_decide_eq_false_2 by done. simpl.
  destruct (polls db !! params_id req) as [poll|]; simpl; [|done].
  destruct (Js.ge_length n _); simpl; [done|].
  destruct (bool_decide (is_Some (existingVoteByFingerprint _ _ _))); simpl; [done|].
  destruct (bool_decide (is_Some (recentVotesByIp _ _ _ _))); simpl; [done|].
  destruct (Js.integer_part n); done.
Qed.

(** A request is admitted only with a well-formed body. *)
Lemma admission_continue_inv (poll : Poll) (v : Vote) :
  admission db req now = inr (poll, v) →
  ∃ n fp i, well_formed_body req n fp ∧
    polls db !! params_id req = Some poll ∧
    Js.ge_length n (length (options poll)) = false ∧
    existingVoteByFingerprint db (params_id req) fp = None ∧
    recentVotesByIp db (params_id req) (ipAddressOf (headers req)) now = None ∧
    Js.integer_part n = Some i ∧
    v = new_vote req i fp now.
Proof.
  intros H.
  assert (∃ n fp, well_formed_body req n fp) as (n & fp & Hwf).
  { unfold admission in H. unfold well_formed_body.
    destruct (Js.destructure "optionIndex" (body req)) as [oi|]; [|done].
    destruct (Js.destructure "fingerprint" (body req)) as [fpv|]; [|done].
    simpl in H. destruct oi as [| | |n| | |]; try done.
    destruct (Js.lt0 n) eqn:Hlt; [done|]. simpl in H.
    destruct fpv as [| | | |s| |]; try done.
    destruct (bool_decide (s = "")) eqn:H1; [done|].
    destruct (bool_decide (s = "server")) eqn:H2; [done|].
    apply bool_decide_eq_false in H1, H2. by exists n, s. }
  rewrite (admission_well_formed n fp Hwf) in H.
  destruct (polls db !! params_id req) as [poll'|]; [|done].
  destruct (Js.ge_length n _) eqn:Hge; [done|].
  destruct (bool_decide (is_Some (existingVoteByFingerprint _ _ _))) eqn:Hdup; [done|].
  destruct (bool_decide (is_Some (recentVotesByIp _ _ _ _))) eqn:Hrate; [done|].
  destruct (Js.integer_part n) as [i|] eqn:Hint; [|done].
  apply bool_decide_eq_false in Hdup, Hrate.
  rewrite <- eq_None_not_Some in Hdup, Hrate.
  exists n, fp, i. unfold continue in H. by simplify_eq.
Qed.

(** A body that is not well formed is answered before the poll is looked
    up: 400 for the option index, then 400 for the fingerprint. *)
Lemma admission_body_cases :
  (∃ n fp, well_formed_body req n fp) ∨
  admission db req now = respond (Error Failure) ∨
  admission db req now = respond (Error InvalidOption) ∨
  admission db req now = respond (Error MissingIdentity).
Proof.
  unfold admission, well_formed_body.
  destruct (Js.destructure "optionIndex" (body req)) as [oi|] eqn:Hoi;
    [|by right; left].
  destruct (Js.destructure "fingerprint" (body req)) as [fpv|] eqn:Hfp;
    [|by right; left].
  simpl.
  destruct oi as [| | |n| | |]; try by (right; right; left).
  destruct (Js.lt0 n) eqn:Hlt; [by right; right; left|]. simpl.
  destruct fpv as [| | | |s| |]; try by (right; right; right).
  destruct (bool_decide (s = "")) eqn:H1; [by right; right; right|].
  destruct (bool_decide (s = "server")) eqn:H2; [by right; right; right|].
  apply bool_decide_eq_false in H1, H2.
  left. by exists n, s.
Qed.

End Admission.

Section Ledger_queries.

Import VoteRoute.

Lemma find_is_Some {A : Type} (f : A → bool) (l : list A) :
  is_Some (List.find f l) ↔ ∃ x, x ∈ l ∧ f x = true.
Proof.
  split.
  - intros [x Hx]. apply List.find_some in Hx as [Hin Hf].
    exists x. by rewrite list_elem_of_In.
  - intros (x & Hin & Hf). destruct (List.find f l) eqn:Hfind; [by eexists|].
    apply list_elem_of_In in Hin.
    pose proof (List.find_none _ _ Hfind x Hin). congruence.
Qed.

Lemma existingVoteByFingerprint_is_Some (db : Db) (id fp : string) :
  is_Some (existingVoteByFingerprint db id fp) ↔
  ∃ v, v ∈ votes db ∧ pollId v = Some id ∧ fingerprint v = fp.
Proof.
  unfold existingVoteByFingerprint. rewrite find_is_Some.
  split; intros (v & Hin & H); exists v; (split; [done|]).
  - apply andb_true_iff in H as [H1 H2].
    by apply bool_decide_eq_true in H1, H2.
  - destruct H as [H1 H2]. apply andb_true_iff. by rewrite !bool_decide_eq_true.
Qed.

Lemma recentVotesByIp_is_Some (db : Db) (id ip : string) (now : Z) :
  is_Some (recentVotesByIp db id ip now) ↔
  ∃ v, v ∈ votes db ∧ pollId v = Some id ∧ ipAddress v = Some ip ∧
       now - COOLDOWN_MS ≤ createdAt v.
Proof.
  unfold recentVotesByIp. rewrite find_is_Some.
  split; intros (v & Hin & H); exists v; (split; [done|]).
  - apply andb_true_iff in H as [H H3]. apply andb_true_iff in H as [H1 H2].
    apply bool_decide_eq_true in H1, H2. apply Z.leb_le in H3. done.
  - destruct H as (H1 & H2 & H3).
    rewrite !andb_true_iff, !bool_decide_eq_true, Z.leb_le. done.
Qed.

(** The whole part of a number that is not negative and is below the
    length is an index into the options. *)
Lemma accepted_index_in_bounds (n : Js.number) (len : nat) (i : Z) :
  Js.lt0 n = false → Js.ge_length n len = false → Js.integer_part n = Some i →
  0 ≤ i < Z.of_nat len.
Proof.
  destruct n as [| | |[num den]]; simpl; try done.
  intros Hlt Hge Hint.
  apply Z.ltb_ge in Hlt. apply Z.leb_gt in Hge.
  injection Hint as <-.
  split.
  - apply Z.div_pos; lia.
  - apply Z.div_lt_upper_bound; lia.
Qed.

End Ledger_queries.

Section Submit.

Import VoteRoute.

Context (db : Db) (req : Request) (now : Z).

Lemma POST_respond (resp : Response) :
  admission db req now = respond resp → POST db req now = (resp, db).
Proof. unfold POST, respond. by intros ->. Qed.

Lemma POST_continue (poll : Poll) (v : Vote) :
  admission db req now = continue (poll, v) →
  POST db req now =
    (Success (tally (length (options poll))
                    (votesOf {| polls := polls db; votes := votes db ++ [v] |}
                             (params_id req)))
             (length (votesOf {| polls := polls db; votes := votes db ++ [v] |}
                              (params_id req))),
     {| polls := polls db; votes := votes db ++ [v] |}).
Proof. unfold POST, commit, continue. by intros ->. Qed.

(** Every early return of the handler is an error response. *)
Lemma admission_respond_error (resp : Response) :
  admission db req now = respond resp → ∃ r, resp = Error r.
Proof.
  destruct (admission_body_cases db req now) as [(n & fp & Hwf)|[H|[H|H]]];
    try (rewrite H; unfold respond; intros ?; simplify_eq; by eexists).
  rewrite (admission_well_formed db req now n fp Hwf). unfold respond, continue.
  intros H. repeat case_match; simplify_eq; by eexists.
Qed.

(** The two outcomes of a submission. *)
Lemma POST_cases :
  (∃ r, POST db req now = (Error r, db)) ∨
  (∃ n fp i poll,
     well_formed_body req n fp ∧
     polls db !! params_id req = Some poll ∧
     Js.ge_length n (length (options poll)) = false ∧
     existingVoteByFingerprint db (params_id req) fp = None ∧
     recentVotesByIp db (params_id req) (ipAddressOf (headers req)) now = None ∧
     Js.integer_part n = Some i ∧
     POST db req now =
       (Success (tally (length (options poll))
                       (votesOf {| polls := polls db;
                                   votes := votes db ++ [new_vote req i fp now] |}
                                (params_id req)))
                (length (votesOf {| polls := polls db;
                                    votes := votes db ++ [new_vote req i fp now] |}
                                 (params_id req))),
        {| polls := polls db; votes := votes db ++ [new_vote req i fp now] |})).
Proof.
  destruct (admission db req now) as [resp|[poll v]] eqn:Hadmit.
  - left. destruct (admission_respond_error resp Hadmit) as [r ->].
    exists r. by apply POST_respond.
  - right. destruct (admission_continue_inv _ _ _ _ _ Hadmit)
      as (n & fp & i & Hwf & Hpoll & Hge & Hdup & Hrate & Hint & ->).
    exists n, fp, i, poll. repeat (split; [done|]). by apply POST_continue.
Qed.

End Submit.

(** ** Runs: what the writing routes preserve *)

Section Runs.

Lemma create_cases (db : Db) (body : Js.value) (newId : string)
    (appUrl : option string) (now : Z) :
  (PollsRoute.POST db body newId appUrl now).2 = db ∨
  (polls db !! newId = None ∧
   ∃ poll, (PollsRoute.POST db body newId appUrl now).2
           = {| polls := <[newId := poll]> (polls db); votes := votes db |}).
Proof.
  unfold PollsRoute.POST.
  destruct (PollsRoute.validate body) as [resp|[q opts]]; [by left|].
  destruct (polls db !! newId) eqn:Hid; [by left|].
  right. split; [done|]. by eexists.
Qed.

(** The ledger and the polls only grow. *)
Lemma step_monotone (db db' : Db) :
  step db db' →
  (∀ v, v ∈ votes db → v ∈ votes db') ∧
  (∀ id poll, polls db !! id = Some poll → polls db' !! id = Some poll).
Proof.
  intros [db1 req now | db1 body newId appUrl now | db0 db1 req now poll v t _ _ _].
  - destruct (POST_cases db1 req now) as [[r ->]|H]; [done|].
    destruct H as (n & fp & i & poll & _ & _ & _ & _ & _ & _ & ->).
    split; [|done]. simpl. intros v Hv. apply elem_of_app. by left.
  - destruct (create_cases db1 body newId appUrl now) as [->|[Hid [poll ->]]]; [done|].
    split; [done|]. simpl.
    intros id' poll' H. rewrite lookup_insert_ne; [done|]. intros <-. congruence.
  - split; [|done]. simpl. intros u Hu. apply elem_of_app. by left.
Qed.

Lemma rtc_step_monotone (db db' : Db) :
  rtc step db db' →
  (∀ v, v ∈ votes db → v ∈ votes db') ∧
  (∀ id poll, polls db !! id = Some poll → polls db' !! id = Some poll).
Proof.
  induction 1 as [|db1 db2 db3 Hstep _ [IHv IHp]]; [done|].
  destruct (step_monotone _ _ Hstep) as [Hv Hp]. split; eauto.
Qed.

(** A step changes nothing, adds a poll under a free id, or appends the row
    of a request that passed the checks on an earlier store. *)
Lemma step_cases (db db' : Db) :
  step db db' →
  db' = db ∨
  (∃ id poll, polls db !! id = None ∧
              db' = {| polls := <[id := poll]> (polls db); votes := votes db |}) ∨
  (∃ db0 req n fp i poll now t,
     rtc step db0 db ∧
     well_formed_body req n fp ∧
     polls db !! VoteRoute.params_id req = Some poll ∧
     Js.lt0 n = false ∧
     Js.ge_length n (length (options poll)) = false ∧
     VoteRoute.existingVoteByFingerprint db0 (VoteRoute.params_id req) fp = None ∧
     VoteRoute.recentVotesByIp db0 (VoteRoute.params_id req)
       (VoteRoute.ipAddressOf (VoteRoute.headers req)) now = None ∧
     Js.integer_part n = Some i ∧
     now ≤ t ∧
     db' = {| polls := polls db; votes := votes db ++ [new_vote req i fp t] |}).
Proof.
  intros [db1 req now | db1 body newId appUrl now | db0 db1 req now poll v t Hrun Hadmit Ht].
  - destruct (POST_cases db1 req now) as [[r ->]|H]; [by left|].
    destruct H as (n & fp & i & poll & Hwf & Hpoll & Hge & Hdup & Hrate & Hint & ->).
    right; right. exists db1, req, n, fp, i, poll, now, now.
    split; [apply rtc_refl|]. split; [done|]. split; [done|].
    split; [apply Hwf|]. split; [done|]. split; [done|]. split; [done|].
    split; [done|]. split; [lia|done].
  - destruct (create_cases db1 body newId appUrl now) as [->|[Hid [poll ->]]];
      [by left|].
    right; left. by exists newId, poll.
  - destruct (admission_continue_inv _ _ _ _ _ Hadmit)
      as (n & fp & i & Hwf & Hpoll & Hge & Hdup & Hrate & Hint & ->).
    right; right. exists db0, req, n, fp, i, poll, now, t.
    split; [done|]. split; [done|].
    split; [by apply (proj2 (rtc_step_monotone db0 db1 Hrun))|].
    split; [apply Hwf|]. split; [done|]. split; [done|]. split; [done|].
    split; [done|]. split; [done|]. reflexivity.
Qed.

Lemma step_votes_in_bounds (db db' : Db) :
  step db db' → votes_in_bounds db → votes_in_bounds db'.
Proof.
  intros Hstep Hinv. apply step_cases in Hstep as [->|[H|H]]; [done| |].
  - destruct H as (id & poll & Hfresh & ->). intros v Hv. simpl in *.
    destruct (Hinv v Hv) as (id' & poll' & Hid & Hpoll & Hb).
    exists id', poll'. repeat split; [done| |done].
    rewrite lookup_insert_ne; [done|]. intros <-. congruence.
  - destruct H as (db0 & req & n & fp & i & poll & now & t & _ & Hwf & Hpoll & Hlt
                   & Hge & _ & _ & Hint & _ & ->).
    intros v Hv. simpl in *. apply elem_of_app in Hv as [Hv|Hv]; [by apply Hinv|].
    apply list_elem_of_singleton in Hv as ->.
    exists (VoteRoute.params_id req), poll. repeat split; [done|].
    pose proof (accepted_index_in_bounds _ _ _ Hlt Hge Hint).
    unfold in_bounds, new_vote. simpl. apply andb_true_iff. lia.
Qed.

(** A step of a run without overlap changes nothing, adds a poll under a
    free id, or appends the row of a request that passed the checks on the
    present store. *)
Lemma serial_step_cases (db db' : Db) :
  serial_step db db' →
  db' = db ∨
  (∃ id poll, polls db !! id = None ∧
              db' = {| polls := <[id := poll]> (polls db); votes := votes db |}) ∨
  (∃ req n fp i poll now,
     well_formed_body req n fp ∧
     polls db !! VoteRoute.params_id req = Some poll ∧
     Js.lt0 n = false ∧
     Js.ge_length n (length (options poll)) = false ∧
     VoteRoute.existingVoteByFingerprint db (VoteRoute.params_id req) fp = None ∧
     VoteRoute.recentVotesByIp db (VoteRoute.params_id req)
       (VoteRoute.ipAddressOf (VoteRoute.headers req)) now = None ∧
     Js.integer_part n = Some i ∧
     db' = {| polls := polls db; votes := votes db ++ [new_vote req i fp now] |}).
Proof.
  intros [db0 req now | db0 body newId appUrl now].
  - destruct (POST_cases db0 req now) as [[r ->]|H]; [by left|].
    destruct H as (n & fp & i & poll & Hwf & Hpoll & Hge & Hdup & Hrate & Hint & ->).
    right; right. exists req, n, fp, i, poll, now.
    repeat (split; [done|]). split; [apply Hwf|done].
  - destruct (create_cases db0 body newId appUrl now) as [->|[Hid [poll ->]]];
      [by left|].
    right; left. by exists newId, poll.
Qed.

(** Every run without overlap is a run. *)
Lemma serial_step_step (db db' : Db) : serial_step db db' → step db db'.
Proof. intros [db0 req now|db0 body newId appUrl now]; constructor. Qed.

Lemma serially_reachable_reachable (db : Db) : serially_reachable db → reachable db.
Proof.
  unfold serially_reachable, reachable. induction 1 as [|a b c Hab _ IH]; [done|].
  eapply rtc_l; [by apply serial_step_step|done].
Qed.


Lemma rtc_step_invariant (P : Db → Prop) :
  (∀ db db', step db db' → P db → P db') →
  ∀ db db', rtc step db db' → P db → P db'.
Proof. intros HP db db' H. induction H; eauto. Qed.

Lemma reachable_votes_in_bounds (db : Db) : reachable db → votes_in_bounds db.
Proof.
  intros H. apply (rtc_step_invariant _ step_votes_in_bounds _ _ H).
  intros v Hv. by apply elem_of_nil in Hv.
Qed.



End Runs.

(** ** Snapshots *)

Section Snapshots.

Lemma votesOf_elem (db : Db) (id : string) (v : Vote) :
  v ∈ votesOf db id ↔ v ∈ votes db ∧ pollId v = Some id.
Proof.
  unfold votesOf. rewrite !list_elem_of_In, List.filter_In, bool_decide_eq_true. done.
Qed.

Lemma filter_length_all {A : Type} (f : A → bool) (l : list A) :
  length (List.filter f l) = length l → ∀ x, x ∈ l → f x = true.
Proof.
  induction l as [|y l IH]; intros Hlen x Hx; [by apply elem_of_nil in Hx|].
  simpl in Hlen. pose proof (List.filter_length_le f l) as Hle.
  destruct (f y) eqn:Hy; simpl in Hlen; [|lia].
  apply elem_of_cons in Hx as [->|Hx]; [done|]. apply IH; [lia|done].
Qed.

(** The snapshot of a poll: the counts add up to the number of its votes
    whose index is within bounds. *)
Lemma snapshot_sum (db : Db) (id : string) (poll : Poll) :
  polls db !! id = Some poll →
  let vs := votesOf db id in
  let counts := tally (length (options poll)) vs in
  sum_counts counts = length (List.filter (in_bounds (length (options poll))) vs) ∧
  (sum_counts counts ≤ length vs)%nat ∧
  (sum_counts counts = length vs ↔
     ∀ v, v ∈ vs → in_bounds (length (options poll)) v = true) ∧
  (reachable db → sum_counts counts = length vs).
Proof.
  intros Hpoll vs counts. subst counts.
  split; [apply tally_sum|]. split; [apply tally_sum_le|]. split.
  - split; [|apply tally_sum_total].
    rewrite tally_sum. apply filter_length_all.
  - intros Hreach. apply tally_sum_total. intros v Hv.
    apply votesOf_elem in Hv as [Hv Hid].
    destruct (reachable_votes_in_bounds db Hreach v Hv) as (id' & poll' & Hid' & Hpoll' & Hb).
    by simplify_eq.
Qed.

End Snapshots.

(** C1 (as amended).  In the snapshot of the fetch-poll route and in the
    snapshot that is broadcast, the per-option counts add up to the number
    of the poll's votes whose stored index is within the option bounds; that
    is at most the reported total, equals it exactly when every vote of the
    poll is within bounds, and so equals it in every store reached through
    the create-poll and submit-vote routes. *)
Theorem snapshot_counts_sum (db : Db) (pollId : string) :
  match PollRoute.GET db pollId with
  | PollRoute.Found p =>
      let n := length (PollRoute.options p) in
      sum_counts (PollRoute.voteCounts p)
        = length (List.filter (in_bounds n) (votesOf db pollId)) ∧
      (sum_counts (PollRoute.voteCounts p) ≤ PollRoute.totalVotes p)%nat ∧
      (sum_counts (PollRoute.voteCounts p) = PollRoute.totalVotes p ↔
         ∀ v, v ∈ votesOf db pollId → in_bounds n v = true) ∧
      (reachable db → sum_counts (PollRoute.voteCounts p) = PollRoute.totalVotes p)
  | PollRoute.NotFound => polls db !! pollId = None
  end ∧
  ∀ connections throws,
    match (StreamRoute.broadcastPollUpdate db connections throws pollId).1 with
    | Some (u, _) =>
        ∃ poll, polls db !! pollId = Some poll ∧
          let n := length (options poll) in
          sum_counts (StreamRoute.voteCounts u)
            = length (List.filter (in_bounds n) (votesOf db pollId)) ∧
          (sum_counts (StreamRoute.voteCounts u) ≤ StreamRoute.totalVotes u)%nat ∧
          (sum_counts (StreamRoute.voteCounts u) = StreamRoute.totalVotes u ↔
             ∀ v, v ∈ votesOf db pollId → in_bounds n v = true) ∧
          (reachable db →
             sum_counts (StreamRoute.voteCounts u) = StreamRoute.totalVotes u)
    | None => True
    end.
Proof.
  split.
  - unfold PollRoute.GET.
    destruct (polls db !! pollId) as [[q opts created]|] eqn:Hpoll; [|done].
    apply (snapshot_sum db pollId _ Hpoll).
  - intros connections throws. unfold StreamRoute.broadcastPollUpdate.
    destruct (connections !! pollId) as [s|]; [|done].
    case_bool_decide; [done|].
    destruct (polls db !! pollId) as [poll|] eqn:Hpoll; [|done].
    simpl. exists poll. split; [done|]. apply (snapshot_sum db pollId _ Hpoll).
Qed.

(** C1, a store where the claim fails: a vote whose stored index is outside
    the poll's two options is left out of the counts and counted in the
    total. *)
Lemma snapshot_sum_below_total :
  ¬ (∀ db pollId p,
       PollRoute.GET db pollId = PollRoute.Found p →
       sum_counts (PollRoute.voteCounts p) = PollRoute.totalVotes p).
Proof.
  intros H. specialize (H stale_index_db "p1" _ eq_refl).
  vm_compute in H. discriminate H.
Qed.

(** C1 at a store reached by one create and one vote. *)
Lemma snapshot_counts_sum_reached :
  reachable tea_db_voted ∧
  match PollRoute.GET tea_db_voted "p1" with
  | PollRoute.Found p => sum_counts (PollRoute.voteCounts p) = PollRoute.totalVotes p
  | PollRoute.NotFound => False
  end.
Proof.
  assert (reachable tea_db_voted) as Hreach.
  { eapply rtc_l; [apply (step_create empty_db tea_body "p1" None 0)|].
    eapply rtc_l; [apply (step_vote tea_db (vote_request "p1" (Js.of_Z 0) "x1") 1000)|].
    apply rtc_refl. }
  split; [exact Hreach|].
  generalize (proj1 (snapshot_counts_sum tea_db_voted "p1")).
  assert (PollRoute.GET tea_db_voted "p1"
          = PollRoute.Found {| PollRoute.id := "p1";
                               PollRoute.question := "Tea or coffee?";
                               PollRoute.options := ["Tea"; "Coffee"];
                               PollRoute.voteCounts := [1; 0]%nat;
                               PollRoute.totalVotes := 1;
                               PollRoute.createdAt := 0 |}) as -> by (vm_compute; reflexivity).
  intros (_ & _ & _ & H). exact (H Hreach).
Defined.

(** ** The submit-vote route, check by check *)

Section Submit_checks.

Import VoteRoute.

Context (db : Db) (req : Request) (now : Z).

Lemma well_formed_body_unique (n n' : Js.number) (fp fp' : string) :
  well_formed_body req n fp → well_formed_body req n' fp' → n = n' ∧ fp = fp'.
Proof.
  intros (H1 & _ & H2 & _) (H1' & _ & H2' & _).
  rewrite H1 in H1'. rewrite H2 in H2'. by simplify_eq.
Qed.

(** The response to a request whose body is well formed. *)
Lemma POST_well_formed (n : Js.number) (fp : string) :
  well_formed_body req n fp →
  POST db req now =
    match polls db !! params_id req with
    | None => (Error PollNotFound, db)
    | Some poll =>
        if Js.ge_length n (length (options poll)) then (Error InvalidOption, db)
        else if bool_decide (is_Some (existingVoteByFingerprint db (params_id req) fp))
        then (Error DuplicateIdentity, db)
        else if bool_decide (is_Some (recentVotesByIp db (params_id req)
                                        (ipAddressOf (headers req)) now))
        then (Error RateLimited, db)
        else match Js.integer_part n with
             | None => (Error Failure, db)
             | Some i =>
                 let db' := {| polls := polls db;
                               votes := votes db ++ [new_vote req i fp now] |} in
                 (Success (tally (length (options poll)) (votesOf db' (params_id req)))
                          (length (votesOf db' (params_id req))), db')
             end
    end.
Proof.
  intros Hwf. unfold POST, commit. rewrite (admission_well_formed db req now n fp Hwf).
  unfold respond, continue.
  destruct (polls db !! params_id req) as [poll|]; [|done].
  destruct (Js.ge_length n _); [done|].
  destruct (bool_decide (is_Some (existingVoteByFingerprint _ _ _))); [done|].
  destruct (bool_decide (is_Some (recentVotesByIp _ _ _ _))); [done|].
  by destruct (Js.integer_part n).
Qed.

(** The response to a request whose body is not well formed. *)
Lemma POST_ill_formed :
  (∀ n fp, ¬ well_formed_body req n fp) →
  POST db req now = (Error Failure, db) ∨
  POST db req now = (Error InvalidOption, db) ∨
  POST db req now = (Error MissingIdentity, db).
Proof.
  intros Hnot.
  destruct (admission_body_cases db req now) as [(n & fp & Hwf)|[H|[H|H]]].
  - by destruct (Hnot n fp).
  - left. by apply POST_respond.
  - right; left. by apply POST_respond.
  - right; right. by apply POST_respond.
Qed.

Lemma POST_body_cases :
  (∃ n fp, well_formed_body req n fp) ∨
  POST db req now = (Error Failure, db) ∨
  POST db req now = (Error InvalidOption, db) ∨
  POST db req now = (Error MissingIdentity, db).
Proof.
  destruct (admission_body_cases db req now) as [H|[H|[H|H]]]; [by left|..].
  - right; left. by apply POST_respond.
  - right; right; left. by apply POST_respond.
  - right; right; right. by apply POST_respond.
Qed.

End Submit_checks.

(** C9.  The [voteCounts] array of every result payload is as long as the
    poll's list of options: in the fetch-poll response, in the response to
    an accepted vote, in the update sent to a new subscriber and in the
    update that is broadcast, whatever the ledger holds. *)
Theorem vote_counts_length_is_option_count (db : Db) (pollId : string) :
  match PollRoute.GET db pollId with
  | PollRoute.Found p =>
      polls db !! pollId
        = Some {| question := PollRoute.question p;
                  options := PollRoute.options p;
                  poll_createdAt := PollRoute.createdAt p |} ∧
      length (PollRoute.voteCounts p) = length (PollRoute.options p)
  | PollRoute.NotFound => polls db !! pollId = None
  end ∧
  (∀ req now,
     VoteRoute.params_id req = pollId →
     match VoteRoute.POST db req now with
     | (VoteRoute.Success voteCounts _, _) =>
         ∃ poll, polls db !! pollId = Some poll ∧
                 length voteCounts = length (options poll)
     | (VoteRoute.Error _, _) => True
     end) ∧
  match StreamRoute.sendPollUpdate db pollId with
  | Some u => ∃ poll, polls db !! pollId = Some poll ∧
                      length (StreamRoute.voteCounts u) = length (options poll)
  | None => polls db !! pollId = None
  end ∧
  (∀ connections throws,
     match (StreamRoute.broadcastPollUpdate db connections throws pollId).1 with
     | Some (u, _) => ∃ poll, polls db !! pollId = Some poll ∧
                              length (StreamRoute.voteCounts u) = length (options poll)
     | None => True
     end).
Proof.
  repeat split.
  - unfold PollRoute.GET.
    destruct (polls db !! pollId) as [[q opts created]|]; [|done].
    simpl. split; [done|]. apply tally_length.
  - intros req now <-.
    destruct (POST_cases db req now) as [[r ->]|H]; [done|].
    destruct H as (n & fp & i & poll & _ & Hpoll & _ & _ & _ & _ & ->).
    exists poll. split; [done|]. apply tally_length.
  - unfold StreamRoute.sendPollUpdate.
    destruct (polls db !! pollId) as [poll|]; [|done].
    exists poll. split; [done|]. apply tally_length.
  - intros connections throws. unfold StreamRoute.broadcastPollUpdate.
    destruct (connections !! pollId) as [s|]; [|done].
    case_bool_decide; [done|].
    destruct (polls db !! pollId) as [poll|]; [|done].
    simpl. exists poll. split; [done|]. apply tally_length.
Qed.

(** C9 on the small run: the accepted vote is answered with two counts. *)
Lemma vote_counts_length_on_tea_poll :
  match VoteRoute.POST tea_db (vote_request "p1" (Js.of_Z 0) "x1") 1000 with
  | (VoteRoute.Success voteCounts _, _) =>
      ∃ poll, polls tea_db !! "p1" = Some poll ∧
              length voteCounts = length (options poll)
  | (VoteRoute.Error _, _) => True
  end.
Proof.
  exact (proj1 (proj2 (vote_counts_length_is_option_count tea_db "p1"))
           (vote_request "p1" (Js.of_Z 0) "x1") 1000 eq_refl).
Defined.

(** C3.  A submission that passes the checks is answered with success and
    appends exactly one row to the ledger, the row of that request; a
    submission that is rejected, on whichever path, is answered with an
    error and leaves the store as it was.  The insert itself, on whatever
    store it runs, appends one row and changes nothing else. *)
Theorem submit_vote_appends_once_or_never (db : Db) (req : VoteRoute.Request) (now : Z) :
  match VoteRoute.POST db req now with
  | (VoteRoute.Success _ _, db') =>
      ∃ i fp, votes db' = (votes db ++ [new_vote req i fp now])%list ∧
              polls db' = polls db
  | (VoteRoute.Error _, db') => db' = db
  end ∧
  (∀ poll v,
     VoteRoute.admission db req now = continue (poll, v) →
     ∃ counts total,
       VoteRoute.POST db req now
       = (VoteRoute.Success counts total,
          {| polls := polls db; votes := votes db ++ [v] |})) ∧
  (∀ resp,
     VoteRoute.admission db req now = respond resp →
     VoteRoute.POST db req now = (resp, db) ∧ ∃ r, resp = VoteRoute.Error r) ∧
  (∀ db1 v, votes (VoteRoute.insert db1 v) = (votes db1 ++ [v])%list ∧
            polls (VoteRoute.insert db1 v) = polls db1).
Proof.
  split; [|split; [|split]].
  - destruct (POST_cases db req now) as [[r ->]|H]; [done|].
    destruct H as (n & fp & i & poll & _ & _ & _ & _ & _ & _ & ->).
    by exists i, fp.
  - intros poll v Hadmit. rewrite (POST_continue db req now poll v Hadmit).
    by eexists _, _.
  - intros resp Hadmit. split; [by apply POST_respond|].
    by eapply admission_respond_error.
  - done.
Qed.

(** C3 on the small run: the first vote passes the checks and its row is the
    one row of the ledger afterwards. *)
Lemma first_tea_vote_is_appended_once :
  ∃ counts total,
    VoteRoute.POST tea_db (vote_request "p1" (Js.of_Z 0) "x1") 1000
    = (VoteRoute.Success counts total,
       {| polls := polls tea_db;
          votes := votes tea_db
                   ++ [new_vote (vote_request "p1" (Js.of_Z 0) "x1") 0 "x1" 1000] |}).
Proof.
  apply (proj1 (proj2 (submit_vote_appends_once_or_never tea_db
                         (vote_request "p1" (Js.of_Z 0) "x1") 1000))
           {| question := "Tea or coffee?"; options := ["Tea"; "Coffee"];
              poll_createdAt := 0 |}
           (new_vote (vote_request "p1" (Js.of_Z 0) "x1") 0 "x1" 1000)).
  vm_compute. reflexivity.
Defined.




(** C4 (as amended).  The checks come in this order: the body's option
    index is a number that is not negative (else InvalidOption), its
    fingerprint is a string, not empty and not ['server'] (else
    MissingIdentity), the poll exists (else PollNotFound), the option index
    is below the option count (else InvalidOption), no vote carries the same
    fingerprint (else DuplicateIdentity), no recent vote carries the same
    origin (else RateLimited). *)
Theorem admission_checks_in_order (db : Db) (req : VoteRoute.Request) (now : Z) :
  (∀ oi fpv,
     Js.destructure "optionIndex" (VoteRoute.body req) = Some oi →
     Js.destructure "fingerprint" (VoteRoute.body req) = Some fpv →
     (∀ n, oi = Js.VNum n → Js.lt0 n = true) →
     VoteRoute.POST db req now = (VoteRoute.Error VoteRoute.InvalidOption, db)) ∧
  (∀ n fpv,
     Js.destructure "optionIndex" (VoteRoute.body req) = Some (Js.VNum n) →
     Js.lt0 n = false →
     Js.destructure "fingerprint" (VoteRoute.body req) = Some fpv →
     (∀ fp, fpv = Js.VStr fp → fp = "" ∨ fp = "server") →
     VoteRoute.POST db req now = (VoteRoute.Error VoteRoute.MissingIdentity, db)) ∧
  (∀ n fp,
     well_formed_body req n fp →
     (polls db !! VoteRoute.params_id req = None →
      VoteRoute.POST db req now = (VoteRoute.Error VoteRoute.PollNotFound, db)) ∧
     (∀ poll,
        polls db !! VoteRoute.params_id req = Some poll →
        (Js.ge_length n (length (options poll)) = true →
         VoteRoute.POST db req now = (VoteRoute.Error VoteRoute.InvalidOption, db)) ∧
        (Js.ge_length n (length (options poll)) = false →
         (is_Some (VoteRoute.existingVoteByFingerprint db (VoteRoute.params_id req) fp) →
          VoteRoute.POST db req now
          = (VoteRoute.Error VoteRoute.DuplicateIdentity, db)) ∧
         (VoteRoute.existingVoteByFingerprint db (VoteRoute.params_id req) fp = None →
          is_Some (VoteRoute.recentVotesByIp db (VoteRoute.params_id req)
                     (VoteRoute.ipAddressOf (VoteRoute.headers req)) now) →
          VoteRoute.POST db req now = (VoteRoute.Error VoteRoute.RateLimited, db))))).
Proof.
  split; [|split].
  - intros oi fpv Hoi Hfp Hbad. apply POST_respond.
    unfold VoteRoute.admission. rewrite Hoi, Hfp. simpl.
    destruct oi as [| | |n| | |]; try done. by rewrite (Hbad n eq_refl).
  - intros n fpv Hoi Hlt Hfp Hbad. apply POST_respond.
    unfold VoteRoute.admission. rewrite Hoi, Hfp. simpl. rewrite Hlt. simpl.
    destruct fpv as [| | | |s| |]; try done.
    destruct (Hbad s eq_refl) as [->| ->]; done.
  - intros n fp Hwf. rewrite (POST_well_formed db req now n fp Hwf).
    split; [by intros ->|]. intros poll ->. split; [by intros ->|].
    intros ->. split.
    + intros Hdup. by rewrite bool_decide_eq_true_2.
    + intros Hnone Hrate. rewrite Hnone.
      rewrite bool_decide_eq_false_2 by (by intros [? ?]).
      by rewrite bool_decide_eq_true_2.
Qed.

(** C4, a submission where the claim fails: the poll does not exist and the
    option index is negative; the answer is InvalidOption, not
    PollNotFound. *)
Lemma missing_poll_is_not_checked_first :
  ¬ (∀ db req now,
       polls db !! VoteRoute.params_id req = None →
       (VoteRoute.POST db req now).1 = VoteRoute.Error VoteRoute.PollNotFound).
Proof.
  intros H.
  specialize (H empty_db (vote_request "nope" (Js.of_Z (-1)) "x1") 0 eq_refl).
  vm_compute in H. discriminate H.
Qed.

(** C4 on the small run: a well-formed vote for a poll that does not
    exist, and a vote for option 5 of a poll with two options. *)
Lemma admission_checks_on_tea_poll :
  VoteRoute.POST tea_db (vote_request "nope" (Js.of_Z 0) "x1") 0
  = (VoteRoute.Error VoteRoute.PollNotFound, tea_db) ∧
  VoteRoute.POST tea_db (vote_request "p1" (Js.of_Z 5) "x1") 0
  = (VoteRoute.Error VoteRoute.InvalidOption, tea_db).
Proof.
  split.
  - refine (proj1 (proj2 (proj2 (admission_checks_in_order tea_db
              (vote_request "nope" (Js.of_Z 0) "x1") 0)) (Js.of_Z 0) "x1" _) _).
    + repeat split; discriminate.
    + vm_compute. reflexivity.
  - refine (proj1 (proj2 (proj2 (proj2 (admission_checks_in_order tea_db
              (vote_request "p1" (Js.of_Z 5) "x1") 0)) (Js.of_Z 5) "x1" _)
              {| question := "Tea or coffee?"; options := ["Tea"; "Coffee"];
                 poll_createdAt := 0 |} _) _).
    + repeat split; discriminate.
    + vm_compute. reflexivity.
    + reflexivity.
Defined.

(** C5.  The rate-limit query finds a vote exactly when the ledger holds a
    vote on the same poll from the same origin address created no more than
    the cooldown (60 seconds, the literal [60 * 1000]) before now; and a
    submission is answered RateLimited, status 429, exactly when it has
    passed the checks that come first and the query finds such a vote. *)
Theorem rate_limited_iff_recent_vote_from_origin
    (db : Db) (req : VoteRoute.Request) (now : Z) :
  VoteRoute.COOLDOWN_MS = 60000 ∧
  VoteRoute.status VoteRoute.RateLimited = 429%nat ∧
  (is_Some (VoteRoute.recentVotesByIp db (VoteRoute.params_id req)
              (VoteRoute.ipAddressOf (VoteRoute.headers req)) now) ↔
   ∃ v, v ∈ votes db ∧ pollId v = Some (VoteRoute.params_id req) ∧
        ipAddress v = Some (VoteRoute.ipAddressOf (VoteRoute.headers req)) ∧
        now - 60000 ≤ createdAt v) ∧
  ((VoteRoute.POST db req now).1 = VoteRoute.Error VoteRoute.RateLimited ↔
   (∃ n fp poll,
      well_formed_body req n fp ∧
      polls db !! VoteRoute.params_id req = Some poll ∧
      Js.ge_length n (length (options poll)) = false ∧
      VoteRoute.existingVoteByFingerprint db (VoteRoute.params_id req) fp = None) ∧
   ∃ v, v ∈ votes db ∧ pollId v = Some (VoteRoute.params_id req) ∧
        ipAddress v = Some (VoteRoute.ipAddressOf (VoteRoute.headers req)) ∧
        now - 60000 ≤ createdAt v).
Proof.
  split; [done|]. split; [done|]. split; [apply recentVotesByIp_is_Some|].
  change 60000 with VoteRoute.COOLDOWN_MS. rewrite <- recentVotesByIp_is_Some.
  split.
  - intros Hresp.
    destruct (POST_body_cases db req now) as [(n & fp & Hwf)|[H|[H|H]]];
      try (rewrite H in Hresp; discriminate Hresp).
    rewrite (POST_well_formed db req now n fp Hwf) in Hresp.
    destruct (polls db !! VoteRoute.params_id req) as [poll|] eqn:Hpoll;
      [|discriminate Hresp].
    destruct (Js.ge_length n _) eqn:Hge; [discriminate Hresp|].
    case_bool_decide as Hdup; [discriminate Hresp|].
    case_bool_decide as Hrate.
    + split; [|done]. exists n, fp, poll. repeat (split; [done|]).
      by apply eq_None_not_Some.
    + destruct (Js.integer_part n); discriminate Hresp.
  - intros [(n & fp & poll & Hwf & Hpoll & Hge & Hnone) Hrate].
    rewrite (POST_well_formed db req now n fp Hwf), Hpoll, Hge, Hnone.
    rewrite bool_decide_eq_false_2 by (by intros [? ?]).
    by rewrite bool_decide_eq_true_2.
Qed.

(** C10.  A submission without [x-forwarded-for] and [x-real-ip] is recorded
    under the origin ['unknown'].  Once such a vote is accepted on a poll,
    every later submission on that poll that comes without these headers
    within the cooldown is turned away and appends nothing; when it passes
    the checks that come first, with a fingerprint that has not voted, it is
    answered RateLimited. *)
Theorem headerless_votes_share_unknown_origin
    (db : Db) (req : VoteRoute.Request) (now : Z) :
  VoteRoute.x_forwarded_for (VoteRoute.headers req) = None →
  VoteRoute.x_real_ip (VoteRoute.headers req) = None →
  VoteRoute.ipAddressOf (VoteRoute.headers req) = "unknown" ∧
  ∀ counts total db1,
    VoteRoute.POST db req now = (VoteRoute.Success counts total, db1) →
    (∃ v, votes db1 = (votes db ++ [v])%list ∧
          pollId v = Some (VoteRoute.params_id req) ∧
          ipAddress v = Some "unknown" ∧ createdAt v = now) ∧
    ∀ db2 req2 now2,
      rtc step db1 db2 →
      VoteRoute.params_id req2 = VoteRoute.params_id req →
      VoteRoute.x_forwarded_for (VoteRoute.headers req2) = None →
      VoteRoute.x_real_ip (VoteRoute.headers req2) = None →
      now2 - VoteRoute.COOLDOWN_MS ≤ now →
      (VoteRoute.POST db2 req2 now2).2 = db2 ∧
      (∀ c t, (VoteRoute.POST db2 req2 now2).1 ≠ VoteRoute.Success c t) ∧
      (∀ n fp poll,
         well_formed_body req2 n fp →
         polls db2 !! VoteRoute.params_id req2 = Some poll →
         Js.ge_length n (length (options poll)) = false →
         VoteRoute.existingVoteByFingerprint db2 (VoteRoute.params_id req2) fp = None →
         VoteRoute.POST db2 req2 now2 = (VoteRoute.Error VoteRoute.RateLimited, db2)).
Proof.
  assert (∀ h, VoteRoute.x_forwarded_for h = None → VoteRoute.x_real_ip h = None →
               VoteRoute.ipAddressOf h = "unknown") as Hunknown.
  { intros h H1 H2. unfold VoteRoute.ipAddressOf. by rewrite H1, H2. }
  intros Hxff Hreal. split; [by apply Hunknown|].
  intros counts total db1 Hpost.
  destruct (POST_cases db req now) as [[r Hr]|H]; [congruence|].
  destruct H as (n & fp & i & poll & _ & _ & _ & _ & _ & _ & Hacc).
  rewrite Hacc in Hpost. injection Hpost as _ _ <-.
  split.
  { exists (new_vote req i fp now). simpl. by rewrite Hunknown. }
  intros db2 req2 now2 Hrun Hid Hxff2 Hreal2 Hnow.
  assert (is_Some (VoteRoute.recentVotesByIp db2 (VoteRoute.params_id req2)
                     (VoteRoute.ipAddressOf (VoteRoute.headers req2)) now2)) as Hrate.
  { apply recentVotesByIp_is_Some. exists (new_vote req i fp now).
    split; [|simpl; rewrite Hid, !Hunknown by done; done].
    apply (proj1 (rtc_step_monotone _ _ Hrun)). simpl.
    apply elem_of_app. right. apply list_elem_of_here. }
  assert (∃ r, VoteRoute.POST db2 req2 now2 = (VoteRoute.Error r, db2)) as [r Hr].
  { destruct (POST_cases db2 req2 now2) as [H|H]; [done|].
    destruct H as (n2 & fp2 & i2 & poll2 & _ & _ & _ & _ & Hnone & _).
    rewrite Hnone in Hrate. by destruct Hrate. }
  split; [by rewrite Hr|]. split; [by rewrite Hr|].
  intros n2 fp2 poll2 Hwf Hpoll Hge Hnone.
  rewrite (POST_well_formed db2 req2 now2 n2 fp2 Hwf), Hpoll, Hge, Hnone.
  rewrite bool_decide_eq_false_2 by (by intros [? ?]).
  by rewrite bool_decide_eq_true_2.
Qed.

(** C10 on the small run: thirty seconds after the first vote, a second
    client without address headers is rate limited. *)
Lemma second_headerless_vote_is_rate_limited :
  VoteRoute.POST tea_db_voted (vote_request "p1" (Js.of_Z 1) "x2") 31000
  = (VoteRoute.Error VoteRoute.RateLimited, tea_db_voted).
Proof.
  refine (proj2 (proj2 (proj2 (proj2
            (headerless_votes_share_unknown_origin tea_db
               (vote_request "p1" (Js.of_Z 0) "x1") 1000 eq_refl eq_refl)
            [1; 0]%nat 1%nat tea_db_voted _)
            tea_db_voted (vote_request "p1" (Js.of_Z 1) "x2") 31000
            (rtc_refl _ _) eq_refl eq_refl eq_refl _))
          (Js.of_Z 1) "x2"
          {| question := "Tea or coffee?"; options := ["Tea"; "Coffee"];
             poll_createdAt := 0 |} _ _ _ _).
  - vm_compute. reflexivity.
  - vm_compute. discriminate.
  - repeat split; discriminate.
  - vm_compute. reflexivity.
  - reflexivity.
  - vm_compute. reflexivity.
Defined.

(** ** Create poll *)

Section Create.

Import PollsRoute.

Lemma trim_empty_string : Js.trim "" = "".
Proof. reflexivity. Qed.

(** The valid options are the entries that are strings and not blank, in
    the order of the request; the other entries are dropped. *)
Lemma validOptionsOf_elem (items : list Js.value) (s : string) :
  s ∈ validOptionsOf items ↔ Js.VStr s ∈ items ∧ Js.trim s ≠ "".
Proof.
  unfold validOptionsOf. rewrite list_elem_of_omap. split.
  - intros (opt & Hin & Hvalid). destruct opt as [| | | |s'| |]; try done.
    simpl in Hvalid. case_bool_decide; [done|]. by simplify_eq.
  - intros [Hin Hs]. exists (Js.VStr s). split; [done|].
    simpl. by rewrite bool_decide_eq_false_2.
Qed.

Lemma validOptionsOf_length (items : list Js.value) :
  (length (validOptionsOf items) ≤ length items)%nat.
Proof.
  unfold validOptionsOf. induction items as [|opt items IH]; [done|].
  change (omap valid_option (opt :: items))
    with (match valid_option opt with
          | Some y => y :: omap valid_option items
          | None => omap valid_option items
          end).
  destruct (valid_option opt); simpl; lia.
Qed.

Lemma validate_creatable (body : Js.value) (s : string) (items : list Js.value) :
  creatable body s items →
  validate body = continue (Js.trim s, Js.trim <$> validOptionsOf items).
Proof.
  intros (Hq & Hs & Ho & Hlen). unfold validate. rewrite Hq, Ho. simpl.
  assert (s ≠ "") as Hne by (intros ->; by apply Hs).
  rewrite !bool_decide_eq_false_2 by done. simpl.
  pose proof (validOptionsOf_length items).
  replace (length items <? 2)%nat with false by (symmetry; apply Nat.ltb_ge; lia).
  simpl.
  replace (length (validOptionsOf items) <? 2)%nat with false
    by (symmetry; apply Nat.ltb_ge; lia).
  replace (10 <? length (validOptionsOf items))%nat with false
    by (symmetry; apply Nat.ltb_ge; lia).
  done.
Qed.

Lemma validate_cases (body : Js.value) :
  (∃ s items, creatable body s items) ∨
  validate body = respond ServerError ∨
  ∃ error, validate body = respond (BadRequest error).
Proof.
  unfold validate, creatable.
  destruct (Js.destructure "question" body) as [qv|] eqn:Hq; [|by right; left].
  destruct (Js.destructure "options" body) as [ov|] eqn:Ho; [|by right; left].
  simpl.
  destruct qv as [| | | |s| |]; try by (right; right; eexists).
  destruct (bool_decide (s = "")) eqn:H1; [by right; right; eexists|].
  destruct (bool_decide (Js.trim s = "")) eqn:H2; [by right; right; eexists|].
  apply bool_decide_eq_false in H1, H2. simpl.
  destruct ov as [| | | | |items|]; try by (right; right; eexists).
  destruct (length items <? 2)%nat eqn:H3; [by right; right; eexists|]. simpl.
  destruct (length (validOptionsOf items) <? 2)%nat eqn:H4;
    [by right; right; eexists|]. simpl.
  destruct (10 <? length (validOptionsOf items))%nat eqn:H5;
    [by right; right; eexists|].
  apply Nat.ltb_ge in H4, H5.
  left. exists s, items. repeat split; done.
Qed.

Lemma creatable_unique (body : Js.value) (s s' : string) (items items' : list Js.value) :
  creatable body s items → creatable body s' items' → s = s' ∧ items = items'.
Proof.
  intros (H1 & _ & H2 & _) (H1' & _ & H2' & _).
  rewrite H1 in H1'. rewrite H2 in H2'. by simplify_eq.
Qed.

End Create.




(** ** The subscription registry *)

Section Registry.

Import StreamRoute.

Implicit Types connections : gmap string (gset Controller).

Lemma register_lookup connections (pollId : string) (controller : Controller) :
  register connections pollId controller !! pollId
  = Some (default ∅ (connections !! pollId) ∪ {[controller]}).
Proof.
  unfold register. case_bool_decide as Hsome.
  - destruct Hsome as [s Hs]. by rewrite lookup_alter_eq, Hs.
  - rewrite lookup_alter_eq, lookup_insert_eq.
    apply eq_None_not_Some in Hsome. by rewrite Hsome.
Qed.

Lemma register_lookup_ne connections (pollId other : string) (controller : Controller) :
  pollId ≠ other →
  register connections pollId controller !! other = connections !! other.
Proof.
  intros Hne. unfold register. case_bool_decide.
  - by rewrite lookup_alter_ne.
  - by rewrite lookup_alter_ne, lookup_insert_ne.
Qed.

Lemma register_no_empty_sets connections (pollId : string) (controller : Controller) :
  no_empty_sets connections → no_empty_sets (register connections pollId controller).
Proof.
  intros Hinv other s Hs. destruct (decide (pollId = other)) as [<-|Hne].
  - rewrite register_lookup in Hs. injection Hs as <-. set_solver.
  - rewrite register_lookup_ne in Hs by done. by apply (Hinv other).
Qed.

Lemma onAbort_no_empty_sets connections (pollId : string) (controller : Controller) :
  no_empty_sets connections → no_empty_sets (onAbort connections pollId controller).
Proof.
  intros Hinv other s Hs. unfold onAbort in Hs.
  destruct (connections !! pollId) as [pollConnections|] eqn:Hpoll;
    [|by apply (Hinv other)].
  case_bool_decide as Hsize.
  - destruct (decide (pollId = other)) as [<-|Hne].
    + by rewrite lookup_delete_eq in Hs.
    + rewrite lookup_delete_ne in Hs by done. by apply (Hinv other).
  - destruct (decide (pollId = other)) as [<-|Hne].
    + rewrite lookup_insert_eq in Hs. injection Hs as <-.
      intros Hempty. apply Hsize. rewrite Hempty. apply size_empty.
    + rewrite lookup_insert_ne in Hs by done. by apply (Hinv other).
Qed.

(** A broadcast keeps the sets non-empty exactly when it does not run, or
    some controller of the poll accepts the message. *)
Lemma broadcastPollUpdate_no_empty_sets (db : Db) connections
    (throws : Controller → bool) (pollId : string) :
  no_empty_sets connections →
  (no_empty_sets (broadcastPollUpdate db connections throws pollId).2 ↔
   ∀ pollConnections,
     connections !! pollId = Some pollConnections →
     is_Some (polls db !! pollId) →
     ∃ c, c ∈ pollConnections ∧ throws c = false).
Proof.
  intros Hinv. unfold broadcastPollUpdate.
  destruct (connections !! pollId) as [pollConnections|] eqn:Hpoll; [|done].
  case_bool_decide as Hsize.
  { apply size_empty_inv in Hsize. apply leibniz_equiv in Hsize.
    by destruct (Hinv pollId pollConnections Hpoll). }
  destruct (polls db !! pollId) as [poll|] eqn:Hdb; simpl.
  - split.
    + intros Hinv' s Hs _. injection Hs as <-.
      specialize (Hinv' pollId _ (lookup_insert_eq _ _ _)).
      apply set_choose_L in Hinv' as [c Hc].
      apply elem_of_filter in Hc as [Hok Hin]. by exists c.
    + intros Hc other s Hs. destruct (decide (pollId = other)) as [<-|Hne].
      * rewrite lookup_insert_eq in Hs. injection Hs as <-.
        destruct (Hc pollConnections eq_refl ltac:(by eexists)) as (c & Hin & Hok).
        assert (c ∈ filter (λ c, throws c = false) pollConnections) as Hc'
          by by apply elem_of_filter.
        intros Hempty. rewrite Hempty in Hc'. by apply not_elem_of_empty in Hc'.
      * rewrite lookup_insert_ne in Hs by done. by apply (Hinv other).
  - split; [|done]. intros _ s _ [? ?]. done.
Qed.

End Registry.

(** C7, the failing run.  One controller is connected to poll [p1] and its
    stream is closed, so [enqueue] throws during a broadcast: the controller
    is deleted from the poll's set and the set, now empty, stays in the pool.
    The [abort] listener on the same pool removes the entry. *)
Theorem broadcast_failure_leaves_empty_set :
  StreamRoute.no_empty_sets one_connection ∧
  (StreamRoute.broadcastPollUpdate tea_db one_connection (λ _, true) "p1").2 !! "p1"
  = Some ∅ ∧
  ¬ StreamRoute.no_empty_sets
      (StreamRoute.broadcastPollUpdate tea_db one_connection (λ _, true) "p1").2 ∧
  StreamRoute.onAbort one_connection "p1" 7%nat !! "p1" = None.
Proof.
  assert ((StreamRoute.broadcastPollUpdate tea_db one_connection (λ _, true) "p1").2 !! "p1"
          = Some ∅) as Hempty by (vm_compute; reflexivity).
  split; [|split; [done|split]].
  - apply register_no_empty_sets. intros id s Hs. by rewrite lookup_empty in Hs.
  - intros Hinv. by apply (Hinv "p1" ∅ Hempty).
  - vm_compute. reflexivity.
Qed.

(** ** Percentages *)

Section Percentages.

Import Page.

Lemma getPercentage_zero_total (count : spec_float) (s : bool) :
  getPercentage count (S754_zero s) = Js.of_Z 0.
Proof. unfold getPercentage. by destruct s. Qed.

Lemma percentage_zero_total (count : nat) : percentage count 0 = Js.of_Z 0.
Proof. unfold percentage. apply getPercentage_zero_total. Qed.

End Percentages.

(** *** Integer arithmetic for the error analysis *)

Section Floor_arithmetic.

Lemma mul_le_cancel_r (a b t : Z) : 0 < t → a * t ≤ b * t → a ≤ b.
Proof. intros Ht H. by apply Z.mul_le_mono_pos_r in H. Qed.

Lemma nearest_from_bounds (c t S1 Xs Ys U2 p : Z) :
  0 < t → 0 ≤ c ≤ t → t < 2 ^ 43 → 0 < S1 → 0 < U2 →
  (Xs - 1) * t ≤ c * S1 ≤ (Xs + 1) * t →
  2 ^ 52 ≤ Xs →
  Ys - U2 ≤ 100 * Xs ≤ Ys + U2 →
  2 ^ 52 * U2 ≤ Ys →
  p * (2 * S1) ≤ 2 * Ys + S1 < (p + 1) * (2 * S1) →
  p * (2 * t) ≤ 200 * c + t ≤ (p + 1) * (2 * t).
Proof.
  intros Ht Hc Ht43 HS1 HU2 [HX1 HX2] HXs [HY1 HY2] HYs [Hp1 Hp2].
  assert (c * S1 ≤ t * S1) as HcS by (apply Z.mul_le_mono_nonneg_r; lia).
  assert (Xs - 1 ≤ S1) as HXS1 by (apply (mul_le_cancel_r _ _ t); lia).
  assert (2 ^ 44 * (U2 + 100) ≤ S1) as Hsmall by lia.
  assert ((Ys - U2) * t ≤ 100 * Xs * t) as HY1t by (apply Z.mul_le_mono_nonneg_r; lia).
  assert (100 * Xs * t ≤ (Ys + U2) * t) as HY2t by (apply Z.mul_le_mono_nonneg_r; lia).
  assert (2 * (U2 + 100) * t ≤ 2 * (U2 + 100) * (2 ^ 43 - 1)) as Hut
    by (apply Z.mul_le_mono_nonneg_l; lia).
  assert (p * (2 * S1) * t ≤ (2 * Ys + S1) * t) as Hp1t
    by (apply Z.mul_le_mono_nonneg_r; lia).
  assert ((2 * Ys + S1) * t < (p + 1) * (2 * S1) * t) as Hp2t
    by (apply Z.mul_lt_mono_pos_r; lia).
  split.
  - assert (S1 * (p * (2 * t)) < S1 * (200 * c + t + 1)) as H by lia.
    apply Z.mul_lt_mono_pos_l in H; lia.
  - assert (S1 * (200 * c + t - 1) < S1 * ((p + 1) * (2 * t))) as H by lia.
    apply Z.mul_lt_mono_pos_l in H; lia.
Qed.

Lemma floor_from_sandwich (N D p : Z) :
  0 < D → p * D ≤ N ≤ (p + 1) * D →
  p = N / D ∨ (p = N / D - 1 ∧ N mod D = 0).
Proof.
  intros HD [H1 H2].
  pose proof (Z.div_mod N D ltac:(lia)) as Hdiv.
  pose proof (Z.mod_pos_bound N D HD) as Hmod.
  assert (p ≤ N / D) as Hle by (apply Z.div_le_lower_bound; lia).
  assert (N / D ≤ p + 1) as Hge by (apply Z.div_le_upper_bound; lia).
  destruct (Z.eq_dec p (N / D)) as [?|Hne]; [by left|]. right.
  assert (N / D = p + 1) as Heq by lia.
  split; [lia|]. rewrite Heq in Hdiv. nia.
Qed.

Lemma div_floor (a b : Z) : 0 < b → a / b * b ≤ a < (a / b + 1) * b.
Proof.
  intros Hb. pose proof (Z.div_mod a b ltac:(lia)) as Hdiv.
  pose proof (Z.mod_pos_bound a b Hb) as Hmod. lia.
Qed.

End Floor_arithmetic.

(** *** Binary64 operations on the operands of [getPercentage]

    The division and the multiplication each return a double with a
    mantissa of 53 bits that is the truncated exact mantissa or its
    successor; that is all the analysis below needs of the rounding. *)

Section Binary64.

Import Page.

(** Number of binary digits. *)
Lemma digits2_pos_bounds (p : positive) :
  2 ^ (Z.pos (digits2_pos p) - 1) ≤ Z.pos p < 2 ^ Z.pos (digits2_pos p).
Proof.
  induction p as [p IH|p IH|]; simpl digits2_pos.
  - rewrite Pos2Z.inj_succ. replace (Z.succ (Z.pos (digits2_pos p)) - 1)
      with (Z.succ (Z.pos (digits2_pos p) - 1)) by lia.
    rewrite !Z.pow_succ_r by lia. lia.
  - rewrite Pos2Z.inj_succ. replace (Z.succ (Z.pos (digits2_pos p)) - 1)
      with (Z.succ (Z.pos (digits2_pos p) - 1)) by lia.
    rewrite !Z.pow_succ_r by lia. lia.
  - simpl. lia.
Qed.

Lemma digits2_pos_unique (p : positive) (d : Z) :
  2 ^ (d - 1) ≤ Z.pos p < 2 ^ d → Z.pos (digits2_pos p) = d.
Proof.
  intros [Hlo Hhi]. pose proof (digits2_pos_bounds p) as [Hlo' Hhi'].
  assert (0 < d) as Hd.
  { destruct (Z.lt_trichotomy d 0) as [H|[H|H]]; [|subst d; simpl in *; lia|done].
    rewrite Z.pow_neg_r in Hhi by done. lia. }
  destruct (Z.lt_trichotomy (Z.pos (digits2_pos p)) d) as [H|[H|H]]; [|done|].
  - assert (2 ^ Z.pos (digits2_pos p) ≤ 2 ^ (d - 1)) by (apply Z.pow_le_mono_r; lia). lia.
  - assert (2 ^ d ≤ 2 ^ (Z.pos (digits2_pos p) - 1)) by (apply Z.pow_le_mono_r; lia). lia.
Qed.

Lemma shr_1_m (mrs : shr_record) :
  0 ≤ shr_m mrs → shr_m (shr_1 mrs) = shr_m mrs / 2.
Proof.
  destruct mrs as [m r s]. cbn [shr_m]. intros Hm.
  destruct m as [|[p|p|]|p]; cbn [shr_1 shr_m]; try lia.
  - done.
  - apply Z.div_unique with (r := 1); lia.
  - apply Z.div_unique with (r := 0); lia.
  - done.
Qed.

Lemma pow2_xI (n : positive) : 2 ^ Z.pos n~1 = 2 * (2 ^ Z.pos n * 2 ^ Z.pos n).
Proof.
  assert (Z.pos n~1 = 1 + (Z.pos n + Z.pos n)) as -> by lia.
  by rewrite !Z.pow_add_r by lia.
Qed.

Lemma pow2_xO (n : positive) : 2 ^ Z.pos n~0 = 2 ^ Z.pos n * 2 ^ Z.pos n.
Proof.
  assert (Z.pos n~0 = Z.pos n + Z.pos n) as -> by lia.
  by rewrite Z.pow_add_r by lia.
Qed.

Lemma iter_pos_shr_1_m (n : positive) (mrs : shr_record) :
  0 ≤ shr_m mrs →
  shr_m (SpecFloat.iter_pos shr_1 n mrs) = shr_m mrs / 2 ^ Z.pos n.
Proof.
  revert mrs. induction n as [n IH|n IH|]; intros mrs Hm; simpl SpecFloat.iter_pos.
  - assert (0 ≤ shr_m (shr_1 mrs)) as H1 by (rewrite shr_1_m by done; apply Z.div_pos; lia).
    assert (0 ≤ shr_m (SpecFloat.iter_pos shr_1 n (shr_1 mrs))) as H2
      by (rewrite IH by done; apply Z.div_pos; lia).
    rewrite IH, IH, shr_1_m by done.
    rewrite !Z.div_div by lia. by rewrite pow2_xI.
  - assert (0 ≤ shr_m (SpecFloat.iter_pos shr_1 n mrs)) as H2
      by (rewrite IH by done; apply Z.div_pos; lia).
    rewrite IH, IH by done. rewrite !Z.div_div by lia. by rewrite pow2_xO.
  - by rewrite shr_1_m.
Qed.

Lemma round_nearest_even_bounds (m : Z) (l : location) :
  m ≤ round_nearest_even m l ≤ m + 1.
Proof.
  unfold round_nearest_even. destruct l as [|[]]; try lia. destruct (Z.even m); lia.
Qed.

Lemma shr_record_of_loc_m (m : Z) (l : location) : shr_m (shr_record_of_loc m l) = m.
Proof. by destruct l as [|[]]. Qed.

Lemma loc_of_shr_record_of_loc (m : Z) (l : location) :
  loc_of_shr_record (shr_record_of_loc m l) = l.
Proof. by destruct l as [|[]]. Qed.

(** Shifting a mantissa of [53 + n] digits down to 53 digits. *)
Lemma shr_fexp_spec (m e : Z) (l : location) (n : Z) :
  0 < m → n = Zdigits2 m - 53 → 0 ≤ n → -1074 ≤ e + n →
  ∃ mrs, shr_fexp prec emax m e l = (mrs, e + n) ∧
         shr_m mrs = m / 2 ^ n ∧
         (n = 0 → mrs = shr_record_of_loc m l).
Proof.
  intros Hm Hn Hn0 He. unfold shr_fexp.
  assert (fexp prec emax (Zdigits2 m + e) - e = n) as ->
    by (unfold fexp, emin, prec, emax; lia).
  destruct n as [|p|p]; [| |lia].
  - exists (shr_record_of_loc m l). simpl. rewrite shr_record_of_loc_m, Z.div_1_r.
    repeat split; f_equal; lia.
  - exists (SpecFloat.iter_pos shr_1 p (shr_record_of_loc m l)).
    split; [done|]. split; [|lia].
    rewrite iter_pos_shr_1_m; rewrite shr_record_of_loc_m; [done|lia].
Qed.

Lemma binary_round_aux_faithful (m : positive) (e : Z) (l : location) (n : Z) :
  n = Z.pos (digits2_pos m) - 53 → 0 ≤ n →
  -1074 ≤ e + n → e + n + 1 ≤ 971 →
  ∃ m' e',
    binary_round_aux prec emax false (Z.pos m) e l = S754_finite false m' e' ∧
    2 ^ 52 ≤ Z.pos m' < 2 ^ 53 ∧
    ((e' = e + n ∧ Z.pos m / 2 ^ n ≤ Z.pos m' ≤ Z.pos m / 2 ^ n + 1) ∨
     (e' = e + n + 1 ∧ Z.pos m' = 2 ^ 52 ∧ Z.pos m / 2 ^ n = 2 ^ 53 - 1)) ∧
    (n = 0 → l = loc_Exact → m' = m ∧ e' = e) ∧
    2 ^ 52 ≤ Z.pos m / 2 ^ n < 2 ^ 53.
Proof.
  intros Hn Hn0 Hlo Hhi.
  destruct (shr_fexp_spec (Z.pos m) e l n) as (mrs & Hshr & Hm1 & Hexact);
    [lia|done|done|done|].
  pose proof (digits2_pos_bounds m) as [Hdlo Hdhi].
  assert (2 ^ 52 ≤ Z.pos m / 2 ^ n < 2 ^ 53) as Hm1b.
  { assert (0 < 2 ^ n) by (apply Z.pow_pos_nonneg; lia).
    replace (Z.pos (digits2_pos m) - 1) with (52 + n) in Hdlo by lia.
    replace (Z.pos (digits2_pos m)) with (53 + n) in Hdhi by lia.
    rewrite Z.pow_add_r in Hdlo, Hdhi by lia. split.
    - apply Z.div_le_lower_bound; lia.
    - apply Z.div_lt_upper_bound; lia. }
  pose proof (round_nearest_even_bounds (shr_m mrs) (loc_of_shr_record mrs)) as Hrne.
  set (m2 := round_nearest_even (shr_m mrs) (loc_of_shr_record mrs)) in *.
  rewrite Hm1 in Hrne.
  assert (0 < m2) as Hm2 by lia.
  destruct m2 as [|p2|p2] eqn:Hp2; [lia| |lia].
  unfold binary_round_aux. rewrite Hshr. fold m2. rewrite Hp2.
  destruct (Z.eq_dec (Z.pos p2) (2 ^ 53)) as [Hover|Hnover].
  - destruct (shr_fexp_spec (Z.pos p2) (e + n) loc_Exact 1) as (mrs2 & Hshr2 & Hm3 & _);
      [lia| |lia|lia|].
    { simpl Zdigits2. rewrite (digits2_pos_unique p2 54); lia. }
    rewrite Hshr2, Hm3, Hover. change (2 ^ 53 / 2 ^ 1) with (Z.pos (2 ^ 52)%positive).
    replace (e + n + 1 <=? emax - prec) with true
      by (symmetry; apply Z.leb_le; unfold emax, prec; lia).
    exists (2 ^ 52)%positive, (e + n + 1).
    split; [done|]. split; [done|]. split; [right; lia|]. split; [|done].
    intros -> ->. specialize (Hexact eq_refl). subst mrs.
    subst m2. simpl in Hp2. rewrite Z.div_1_r in Hm1b. lia.
  - destruct (shr_fexp_spec (Z.pos p2) (e + n) loc_Exact 0) as (mrs2 & Hshr2 & Hm3 & _);
      [lia| |lia|lia|].
    { simpl Zdigits2. rewrite (digits2_pos_unique p2 53); lia. }
    rewrite Z.add_0_r in Hshr2. rewrite Z.div_1_r in Hm3.
    rewrite Hshr2, Hm3.
    replace (e + n <=? emax - prec) with true
      by (symmetry; apply Z.leb_le; unfold emax, prec; lia).
    exists p2, (e + n).
    split; [done|]. split; [lia|]. split; [left; lia|]. split; [|done].
    intros -> ->. specialize (Hexact eq_refl). subst mrs.
    subst m2. simpl in Hp2. split; [congruence|lia].
Qed.

Lemma Pos_iter_xO (p k : positive) : Z.pos (Pos.iter xO p k) = Z.pos p * 2 ^ Z.pos k.
Proof.
  induction k as [|k IH] using Pos.peano_ind.
  - simpl. lia.
  - rewrite Pos.iter_succ, Pos2Z.inj_xO, IH, Pos2Z.inj_succ, Z.pow_succ_r by lia. lia.
Qed.

(** An integer below [2 ^ 53] is a double: the conversion is exact. *)
Lemma double_of_Z_pos (z : Z) :
  0 < z < 2 ^ 53 →
  ∃ m e, double_of_Z z = S754_finite false m e ∧
         2 ^ 52 ≤ Z.pos m < 2 ^ 53 ∧ -52 ≤ e ≤ 0 ∧ Z.pos m = z * 2 ^ (- e).
Proof.
  intros [Hz0 Hz]. destruct z as [|p|p]; [lia| |lia].
  pose proof (digits2_pos_bounds p) as [Hdlo Hdhi].
  assert (Z.pos (digits2_pos p) ≤ 53) as Hd.
  { destruct (Z.le_gt_cases (Z.pos (digits2_pos p)) 53) as [H|H]; [done|].
    assert (2 ^ 53 ≤ 2 ^ (Z.pos (digits2_pos p) - 1)) by (apply Z.pow_le_mono_r; lia).
    lia. }
  unfold double_of_Z, binary_normalize, binary_round, shl_align.
  assert (fexp prec emax (Z.pos (digits2_pos p) + 0) - 0 = Z.pos (digits2_pos p) - 53)
    as -> by (unfold fexp, emin, prec, emax; lia).
  destruct (Z.pos (digits2_pos p) - 53) as [|k|k] eqn:Hk; [|lia|].
  - destruct (binary_round_aux_faithful p 0 loc_Exact 0) as (m' & e' & -> & Hm' & _ & Hex & _);
      [lia|lia|lia|lia|].
    destruct (Hex eq_refl eq_refl) as [-> ->].
    exists p, 0. repeat split; lia.
  - pose proof (Pos_iter_xO p k) as Hiter.
    assert (2 ^ 52 ≤ Z.pos (Pos.iter xO p k) < 2 ^ 53) as Hb.
    { rewrite Hiter.
      assert (52 = (Z.pos (digits2_pos p) - 1) + Z.pos k) as -> by lia.
      assert (53 = Z.pos (digits2_pos p) + Z.pos k) as -> by lia.
      rewrite !Z.pow_add_r by lia.
      assert (0 < 2 ^ Z.pos k) by (apply Z.pow_pos_nonneg; lia).
      split; [apply Z.mul_le_mono_nonneg_r; lia|apply Z.mul_lt_mono_pos_r; lia]. }
    assert (fexp prec emax (Z.pos (digits2_pos p) + 0) = Z.neg k) as ->
      by (unfold fexp, emin, prec, emax; lia).
    destruct (binary_round_aux_faithful (Pos.iter xO p k) (Z.neg k) loc_Exact 0)
      as (m' & e' & -> & Hm' & _ & Hex & _); [|lia|lia|lia|].
    { rewrite (digits2_pos_unique _ 53); lia. }
    destruct (Hex eq_refl eq_refl) as [-> ->].
    exists (Pos.iter xO p k), (Z.neg k). repeat split; try lia.
    rewrite Hiter. f_equal.
Qed.

(** The uniform reading of [binary_round_aux_faithful]: the result is the
    truncated mantissa or its successor, at the exponent of the truncation. *)
Lemma binary_round_aux_value (m : positive) (e : Z) (l : location) (n : Z) :
  n = Z.pos (digits2_pos m) - 53 → 0 ≤ n →
  -1074 ≤ e + n → e + n + 1 ≤ 971 →
  ∃ m' e' g,
    binary_round_aux prec emax false (Z.pos m) e l = S754_finite false m' e' ∧
    2 ^ 52 ≤ Z.pos m' < 2 ^ 53 ∧ (g = 0 ∨ g = 1) ∧ e' = e + n + g ∧
    Z.pos m / 2 ^ n ≤ Z.pos m' * 2 ^ g ≤ Z.pos m / 2 ^ n + 1 ∧
    2 ^ 52 ≤ Z.pos m / 2 ^ n.
Proof.
  intros Hn Hn0 Hlo Hhi.
  destruct (binary_round_aux_faithful m e l n Hn Hn0 Hlo Hhi)
    as (m' & e' & Heq & Hm' & [(-> & Hb)|(-> & Hm2 & Hq)] & _ & Hlow).
  - exists m', (e + n), 0. rewrite Z.mul_1_r.
    split; [done|]. split; [done|]. split; [by left|]. split; [lia|].
    split; [lia|]. lia.
  - exists m', (e + n + 1), 1. rewrite Hm2, Hq.
    split; [done|]. split; [done|]. split; [by right|]. split; [lia|].
    split; [lia|]. lia.
Qed.

Lemma SFdiv_core_binary_53 (mc mt : positive) (ec et : Z) :
  2 ^ 52 ≤ Z.pos mc < 2 ^ 53 → 2 ^ 52 ≤ Z.pos mt < 2 ^ 53 →
  -52 ≤ ec ≤ 0 → -52 ≤ et ≤ 0 →
  SFdiv_core_binary prec emax (Z.pos mc) ec (Z.pos mt) et
  = (Z.pos mc * 2 ^ 53 / Z.pos mt, ec - et - 53,
     new_location (Z.pos mt) ((Z.pos mc * 2 ^ 53) mod Z.pos mt)).
Proof.
  intros Hmc Hmt Hec Het. unfold SFdiv_core_binary. simpl Zdigits2.
  rewrite (digits2_pos_unique mc 53), (digits2_pos_unique mt 53) by lia.
  assert (Z.min (fexp prec emax (53 + ec - (53 + et))) (ec - et) = ec - et - 53) as ->
    by (unfold fexp, emin, prec, emax; lia).
  assert (ec - et - (ec - et - 53) = 53) as -> by lia.
  rewrite Z.shiftl_mul_pow2 by lia.
  unfold Z.div, Z.modulo. by destruct (Z.div_eucl _ _).
Qed.

Lemma SFdiv_faithful (mc mt : positive) (ec et : Z) :
  2 ^ 52 ≤ Z.pos mc < 2 ^ 53 → 2 ^ 52 ≤ Z.pos mt < 2 ^ 53 →
  -52 ≤ ec ≤ 0 → -52 ≤ et ≤ 0 →
  ∃ mx ex n g,
    SFdiv prec emax (S754_finite false mc ec) (S754_finite false mt et)
    = S754_finite false mx ex ∧
    2 ^ 52 ≤ Z.pos mx < 2 ^ 53 ∧ (n = 0 ∨ n = 1) ∧ (g = 0 ∨ g = 1) ∧
    ex = ec - et - 53 + n + g ∧
    Z.pos mc * 2 ^ 53 / Z.pos mt / 2 ^ n ≤ Z.pos mx * 2 ^ g
      ≤ Z.pos mc * 2 ^ 53 / Z.pos mt / 2 ^ n + 1.
Proof.
  intros Hmc Hmt Hec Het. unfold SFdiv.
  rewrite SFdiv_core_binary_53 by done. simpl xorb.
  set (q := Z.pos mc * 2 ^ 53 / Z.pos mt).
  assert (2 ^ 52 ≤ q < 2 ^ 54) as Hq.
  { subst q. split.
    - apply Z.div_le_lower_bound; lia.
    - apply Z.div_lt_upper_bound; lia. }
  destruct q as [|pq|pq] eqn:Hpq; [lia| |lia].
  pose proof (digits2_pos_bounds pq) as [Hdlo Hdhi].
  assert (Z.pos (digits2_pos pq) = 53 ∨ Z.pos (digits2_pos pq) = 54) as Hd.
  { destruct (Z.lt_trichotomy (Z.pos pq) (2 ^ 53)) as [H|[H|H]].
    - left. apply digits2_pos_unique. lia.
    - right. apply digits2_pos_unique. lia.
    - right. apply digits2_pos_unique. lia. }
  destruct (binary_round_aux_value pq (ec - et - 53)
              (new_location (Z.pos mt) ((Z.pos mc * 2 ^ 53) mod Z.pos mt))
              (Z.pos (digits2_pos pq) - 53))
    as (mx & ex & g & Heq & Hmx & Hg & Hex & Hval & _); [done|lia|lia|lia|].
  exists mx, ex, (Z.pos (digits2_pos pq) - 53), g.
  split; [done|]. split; [done|]. split; [lia|]. split; [done|]. split; [lia|].
  done.
Qed.

Lemma double_of_Z_100 :
  double_of_Z 100 = S754_finite false 7036874417766400 (-46).
Proof. reflexivity. Qed.

Lemma SFmul_100_faithful (mx : positive) (ex : Z) :
  2 ^ 52 ≤ Z.pos mx < 2 ^ 53 → -200 ≤ ex ≤ 100 →
  ∃ my ey n g,
    SFmul prec emax (S754_finite false mx ex) (double_of_Z 100)
    = S754_finite false my ey ∧
    2 ^ 52 ≤ Z.pos my < 2 ^ 53 ∧ (n = 52 ∨ n = 53) ∧ (g = 0 ∨ g = 1) ∧
    ey = ex - 46 + n + g ∧
    Z.pos mx * (100 * 2 ^ 46) / 2 ^ n ≤ Z.pos my * 2 ^ g
      ≤ Z.pos mx * (100 * 2 ^ 46) / 2 ^ n + 1 ∧
    2 ^ 52 ≤ Z.pos mx * (100 * 2 ^ 46) / 2 ^ n.
Proof.
  intros Hmx Hex. rewrite double_of_Z_100. unfold SFmul. simpl xorb.
  assert (Z.pos (mx * 7036874417766400) = Z.pos mx * (100 * 2 ^ 46)) as HP by lia.
  pose proof (digits2_pos_bounds (mx * 7036874417766400)) as [Hdlo Hdhi].
  assert (Z.pos (digits2_pos (mx * 7036874417766400)) = 105 ∨
          Z.pos (digits2_pos (mx * 7036874417766400)) = 106) as Hd.
  { destruct (Z.lt_ge_cases (Z.pos (mx * 7036874417766400)) (2 ^ 105)) as [H|H].
    - left. apply digits2_pos_unique. lia.
    - right. apply digits2_pos_unique. lia. }
  destruct (binary_round_aux_value (mx * 7036874417766400) (ex + -46) loc_Exact
              (Z.pos (digits2_pos (mx * 7036874417766400)) - 53))
    as (my & ey & g & Heq & Hmy & Hg & Hey & Hval & Hlow); [done|lia|lia|lia|].
  exists my, ey, (Z.pos (digits2_pos (mx * 7036874417766400)) - 53), g.
  rewrite <- HP.
  split; [done|]. split; [done|]. split; [lia|]. split; [done|]. split; [lia|].
  done.
Qed.

End Binary64.

Section Binary64_percentage.

Import Page.

Lemma Math_round_finite (m : positive) (e : Z) :
  e < 0 →
  Math_round (S754_finite false m e)
  = Js.of_Z ((2 * Z.pos m + 2 ^ (- e)) / (2 * 2 ^ (- e))).
Proof.
  intros He. unfold Math_round.
  by replace (0 <=? e) with false by (symmetry; apply Z.leb_gt; lia).
Qed.

Lemma percentage_zero_count (total : nat) :
  (0 < total)%nat → Z.of_nat total < 2 ^ 53 → percentage 0 total = Js.of_Z 0.
Proof.
  intros Ht Ht53. unfold percentage, getPercentage.
  destruct (double_of_Z_pos (Z.of_nat total)) as (mt & et & -> & _); [lia|].
  reflexivity.
Qed.

Lemma pow2_pos (k : Z) : 0 ≤ k → 0 < 2 ^ k.
Proof. intros. apply Z.pow_pos_nonneg; lia. Qed.

Lemma percentage_sandwich (count total : nat) :
  (0 < count ≤ total)%nat → Z.of_nat total < 2 ^ 43 →
  ∃ p, percentage count total = Js.of_Z p ∧
       p * (2 * Z.of_nat total) ≤ 200 * Z.of_nat count + Z.of_nat total
         ≤ (p + 1) * (2 * Z.of_nat total).
Proof.
  intros Hct Ht43.
  set (c := Z.of_nat count). set (t := Z.of_nat total).
  assert (0 < c ≤ t) as Hc by lia.
  unfold percentage, getPercentage. fold c t.
  destruct (double_of_Z_pos c) as (mc & ec & -> & Hmc & Hec & Hcval); [lia|].
  destruct (double_of_Z_pos t) as (mt & et & -> & Hmt & Het & Htval); [lia|].
  change (SFeqb (S754_finite false mt et) (S754_zero false)) with false.
  cbv iota.
  destruct (SFdiv_faithful mc mt ec et Hmc Hmt Hec Het)
    as (mx & ex & n1 & g1 & -> & Hmx & Hn1 & Hg1 & Hex & Hxval).
  destruct (SFmul_100_faithful mx ex Hmx ltac:(lia))
    as (my & ey & n2 & g2 & -> & Hmy & Hn2 & Hg2 & Hey & Hyval & Hylow).
  (* exponents as natural powers *)
  set (a := - ec) in *. set (b := - et) in *.
  assert (0 ≤ a ≤ 52 ∧ 0 ≤ b ≤ 52) as [Ha Hb] by lia.
  set (k1 := a - b + 53 - n1).
  assert (0 ≤ k1) as Hk1 by lia.
  set (S1 := 2 ^ k1). set (Xs := Z.pos mx * 2 ^ g1) in *.
  assert (0 < S1) as HS1 by (apply pow2_pos; lia).
  (* the quotient, truncated *)
  set (m1 := Z.pos mc * 2 ^ 53 / Z.pos mt / 2 ^ n1) in *.
  assert (0 < 2 ^ n1) as Hpn1 by (apply pow2_pos; lia).
  assert (m1 * (Z.pos mt * 2 ^ n1) ≤ Z.pos mc * 2 ^ 53
          < (m1 + 1) * (Z.pos mt * 2 ^ n1)) as Hm1.
  { subst m1. rewrite Z.div_div by lia. apply div_floor. lia. }
  assert (2 ^ a * 2 ^ 53 = S1 * (2 ^ b * 2 ^ n1)) as HP1.
  { subst S1 k1. rewrite <- !Z.pow_add_r by lia. f_equal. lia. }
  assert (0 < 2 ^ b * 2 ^ n1) as Hbeta
    by (apply Z.mul_pos_pos; apply pow2_pos; lia).
  assert (m1 * t ≤ c * S1 < (m1 + 1) * t) as HI1.
  { rewrite Hcval, Htval in Hm1. fold a b in Hm1. destruct Hm1 as [H1 H2]. split.
    - apply (mul_le_cancel_r _ _ (2 ^ b * 2 ^ n1)); [done|].
      replace (c * S1 * (2 ^ b * 2 ^ n1)) with (c * (S1 * (2 ^ b * 2 ^ n1))) by ring.
      rewrite <- HP1. lia.
    - apply (Z.mul_lt_mono_pos_r (2 ^ b * 2 ^ n1)); [done|].
      replace (c * S1 * (2 ^ b * 2 ^ n1)) with (c * (S1 * (2 ^ b * 2 ^ n1))) by ring.
      rewrite <- HP1. lia. }
  assert (2 ^ 52 ≤ Xs) as HXs.
  { subst Xs. destruct Hg1 as [-> | ->]; lia. }
  assert ((Xs - 1) * t ≤ c * S1 ≤ (Xs + 1) * t) as HI1'.
  { destruct HI1 as [H1 H2]. split.
    - transitivity (m1 * t); [apply Z.mul_le_mono_nonneg_r; lia|done].
    - transitivity ((m1 + 1) * t); [lia|apply Z.mul_le_mono_nonneg_r; lia]. }
  (* the quotient is at most one, so its exponent is small *)
  assert (52 ≤ k1) as Hk52.
  { assert (c * S1 ≤ t * S1) by (apply Z.mul_le_mono_nonneg_r; lia).
    assert (Xs - 1 ≤ S1) by (apply (mul_le_cancel_r _ _ t); lia).
    destruct (Z.le_gt_cases 52 k1) as [?|Hlt]; [done|].
    assert (S1 ≤ 2 ^ 51) by (apply Z.pow_le_mono_r; lia). lia. }
  (* the product, truncated *)
  set (k2 := g1 + n2 - 46).
  assert (0 ≤ k2) as Hk2 by lia.
  set (U2 := 2 ^ k2). set (Ym := Z.pos my * 2 ^ g2) in *.
  assert (0 < U2) as HU2 by (apply pow2_pos; lia).
  set (m1' := Z.pos mx * (100 * 2 ^ 46) / 2 ^ n2) in *.
  assert (0 < 2 ^ n2) as Hpn2 by (apply pow2_pos; lia).
  assert (m1' * 2 ^ n2 ≤ Z.pos mx * (100 * 2 ^ 46) < (m1' + 1) * 2 ^ n2) as Hm1'.
  { subst m1'. apply div_floor. lia. }
  assert (2 ^ n2 * 2 ^ g1 = U2 * 2 ^ 46) as HP2.
  { subst U2 k2. rewrite <- !Z.pow_add_r by lia. f_equal. lia. }
  assert (0 < 2 ^ g1) as Hpg1 by (apply pow2_pos; lia).
  assert ((Ym - 1) * U2 ≤ 100 * Xs ≤ (Ym + 1) * U2) as HI3.
  { destruct Hm1' as [H1 H2].
    assert ((Ym - 1) * 2 ^ n2 ≤ Z.pos mx * (100 * 2 ^ 46)) as H1'
      by (transitivity (m1' * 2 ^ n2); [apply Z.mul_le_mono_nonneg_r; lia|done]).
    assert (Z.pos mx * (100 * 2 ^ 46) ≤ (Ym + 1) * 2 ^ n2) as H2'
      by (transitivity ((m1' + 1) * 2 ^ n2); [lia|apply Z.mul_le_mono_nonneg_r; lia]).
    apply (Z.mul_le_mono_nonneg_r _ _ (2 ^ g1)) in H1', H2'; [|lia|lia].
    replace ((Ym - 1) * 2 ^ n2 * 2 ^ g1) with ((Ym - 1) * (2 ^ n2 * 2 ^ g1)) in H1' by ring.
    replace ((Ym + 1) * 2 ^ n2 * 2 ^ g1) with ((Ym + 1) * (2 ^ n2 * 2 ^ g1)) in H2' by ring.
    rewrite HP2 in H1', H2'.
    replace (Z.pos mx * (100 * 2 ^ 46) * 2 ^ g1) with (100 * Xs * 2 ^ 46) in H1', H2'
      by (subst Xs; ring).
    split; apply (mul_le_cancel_r _ _ (2 ^ 46)); lia. }
  assert (2 ^ 52 * U2 ≤ Ym * U2) as HI4
    by (apply Z.mul_le_mono_nonneg_r; lia).
  (* rounding to the nearest integer *)
  set (k3 := k1 - (k2 + g2)).
  assert (ey = - k3) as Heyk by (subst k3 k2 k1 a b; lia).
  assert (43 ≤ k3) as Hk3 by (subst k3 k2; lia).
  rewrite Math_round_finite by lia.
  rewrite Heyk, Z.opp_involutive.
  set (p := (2 * Z.pos my + 2 ^ k3) / (2 * 2 ^ k3)).
  exists p. split; [done|].
  assert (0 < 2 ^ k3) as Hpk3 by (apply pow2_pos; lia).
  assert (p * (2 * 2 ^ k3) ≤ 2 * Z.pos my + 2 ^ k3 < (p + 1) * (2 * 2 ^ k3)) as Hp.
  { subst p. apply div_floor. lia. }
  assert (S1 = 2 ^ k3 * (U2 * 2 ^ g2)) as HP3.
  { subst S1 U2 k3. rewrite <- !Z.pow_add_r by lia. f_equal. lia. }
  assert (0 < U2 * 2 ^ g2) as Hkappa
    by (apply Z.mul_pos_pos; [done|apply pow2_pos; lia]).
  apply (nearest_from_bounds c t S1 Xs (Ym * U2) U2 p); try done; try lia.
  destruct Hp as [Hp1 Hp2].
  apply (Z.mul_le_mono_nonneg_r _ _ (U2 * 2 ^ g2)) in Hp1; [|lia].
  apply (Z.mul_lt_mono_pos_r (U2 * 2 ^ g2)) in Hp2; [|lia].
  replace (2 * (Ym * U2) + S1) with ((2 * Z.pos my + 2 ^ k3) * (U2 * 2 ^ g2))
    by (rewrite HP3; subst Ym; ring).
  replace (p * (2 * S1)) with (p * (2 * 2 ^ k3) * (U2 * 2 ^ g2)) by (rewrite HP3; ring).
  replace ((p + 1) * (2 * S1)) with ((p + 1) * (2 * 2 ^ k3) * (U2 * 2 ^ g2))
    by (rewrite HP3; ring).
  done.
Qed.

End Binary64_percentage.

(** C8 (as amended).  The percentage derived for display is
    [Math.round((count / total) * 100)] on doubles.  When the total is zero
    it is 0, never NaN, whatever the count.  For a poll of fewer than
    [2 ^ 43] votes it is an integer nearest to [100 * count / total]: the
    value of [round(100 * count / total)] with halves rounded up, except
    that at an exact half it may be the integer below. *)
Theorem percentage_zero_total_and_nearest :
  (∀ count s, Page.getPercentage count (S754_zero s) = Js.of_Z 0) ∧
  (∀ count, Page.percentage count 0 = Js.of_Z 0) ∧
  (∀ count total,
     (0 < total)%nat → Z.of_nat total < 2 ^ 43 → (count ≤ total)%nat →
     ∃ p, Page.percentage count total = Js.of_Z p ∧
          (p = Page.spec_percentage count total ∨
           (p = Page.spec_percentage count total - 1 ∧
            (2 * (100 * Z.of_nat count) + Z.of_nat total) mod (2 * Z.of_nat total) = 0)) ∧
          Z.abs (2 * (p * Z.of_nat total - 100 * Z.of_nat count)) ≤ Z.of_nat total).
Proof.
  split; [apply getPercentage_zero_total|]. split; [apply percentage_zero_total|].
  intros count total Ht Ht43 Hc.
  assert (∃ p, Page.percentage count total = Js.of_Z p ∧
               p * (2 * Z.of_nat total) ≤ 200 * Z.of_nat count + Z.of_nat total
                 ≤ (p + 1) * (2 * Z.of_nat total)) as (p & Hp & Hsand).
  { destruct count as [|count].
    - exists 0. split; [apply percentage_zero_count; lia|lia].
    - apply percentage_sandwich; lia. }
  exists p. split; [done|]. split; [|lia].
  unfold Page.spec_percentage.
  replace (total =? 0)%nat with false by (symmetry; apply Nat.eqb_neq; lia).
  replace (2 * (100 * Z.of_nat count)) with (200 * Z.of_nat count) by lia.
  apply floor_from_sandwich; [lia|done].
Qed.

(** C8, a poll where the claim fails: with 23 of 40 votes the quotient
    0.575 times 100 is the double just below 57.5, which is displayed as 57,
    while [100 * 23 / 40] is exactly 57.5 and [round(100 * 23 / 40)] is 58
    (also with halves rounded to even, 57 being odd). *)
Lemma twenty_three_of_forty_displays_57 :
  ¬ (∀ count total,
       Page.percentage count total = Js.of_Z (Page.spec_percentage count total)).
Proof.
  intros H. specialize (H 23%nat 40%nat). vm_compute in H. discriminate H.
Qed.

(** C8 on a poll with one vote out of three. *)
Lemma one_of_three_displays_33 :
  ∃ p, Page.percentage 1 3 = Js.of_Z p ∧
       (p = Page.spec_percentage 1 3 ∨
        (p = Page.spec_percentage 1 3 - 1 ∧
         (2 * (100 * Z.of_nat 1) + Z.of_nat 3) mod (2 * Z.of_nat 3) = 0)) ∧
       Z.abs (2 * (p * Z.of_nat 3 - 100 * Z.of_nat 1)) ≤ Z.of_nat 3.
Proof.
  refine (proj2 (proj2 percentage_zero_total_and_nearest) 1%nat 3%nat _ _ _); lia.
Defined.

(** ** Further properties of the routes *)

(** X1.  Registering a subscriber and the cleanup of the [abort] listener
    keep every set of the pool non-empty; a broadcast keeps them non-empty
    exactly when it does not run or some controller of the poll accepts the
    message. *)
Theorem registry_operations_and_empty_sets
    (db : Db) (connections : gmap string (gset StreamRoute.Controller))
    (pollId : string) (controller : StreamRoute.Controller)
    (throws : StreamRoute.Controller → bool) :
  StreamRoute.no_empty_sets connections →
  StreamRoute.no_empty_sets (StreamRoute.register connections pollId controller) ∧
  StreamRoute.no_empty_sets (StreamRoute.GET db connections pollId controller).2 ∧
  StreamRoute.no_empty_sets (StreamRoute.onAbort connections pollId controller) ∧
  (StreamRoute.no_empty_sets
     (StreamRoute.broadcastPollUpdate db connections throws pollId).2 ↔
   ∀ pollConnections,
     connections !! pollId = Some pollConnections →
     is_Some (polls db !! pollId) →
     ∃ c, c ∈ pollConnections ∧ throws c = false).
Proof.
  intros Hinv. split; [by apply register_no_empty_sets|]. split; [|split].
  - unfold StreamRoute.GET. destruct (polls db !! pollId); [|done].
    by apply register_no_empty_sets.
  - by apply onAbort_no_empty_sets.
  - by apply broadcastPollUpdate_no_empty_sets.
Qed.

(** X1 on the pool with one connection: a second subscriber joins. *)
Lemma second_subscriber_keeps_sets_nonempty :
  StreamRoute.no_empty_sets (StreamRoute.register one_connection "p1" 8%nat).
Proof.
  refine (proj1 (registry_operations_and_empty_sets tea_db one_connection "p1" 8%nat
                   (λ _, false) _)).
  apply register_no_empty_sets. intros id s Hs. by rewrite lookup_empty in Hs.
Defined.

Section Spacing.

Lemma serial_step_origin_spaced (db db' : Db) :
  serial_step db db' → origin_spaced db → origin_spaced db'.
Proof.
  intros Hstep Hinv. apply serial_step_cases in Hstep as [->|[H|H]]; [done| |].
  - by destruct H as (id & poll & Hfresh & ->).
  - destruct H as (req & n & fp & i & poll & now & _ & _ & _ & _ & _ & Hrate & _ & ->).
    assert (∀ k u, votes db !! k = Some u →
                   pollId u = Some (VoteRoute.params_id req) →
                   ipAddress u = Some (VoteRoute.ipAddressOf (VoteRoute.headers req)) →
                   createdAt u < now - VoteRoute.COOLDOWN_MS) as Hold.
    { intros k u Hk Hid Hip.
      destruct (Z.lt_ge_cases (createdAt u) (now - VoteRoute.COOLDOWN_MS)) as [?|Hge];
        [done|].
      assert (is_Some (VoteRoute.recentVotesByIp db (VoteRoute.params_id req)
                         (VoteRoute.ipAddressOf (VoteRoute.headers req)) now)) as Hsome.
      { apply recentVotesByIp_is_Some. exists u.
        split; [apply list_elem_of_lookup; eauto|done]. }
      rewrite Hrate in Hsome. by destruct Hsome. }
    intros a b v w Ha Hb Hab Hp Hip. simpl in *.
    apply lookup_app_Some in Ha as [Ha|[Hla Ha]];
      apply lookup_app_Some in Hb as [Hb|[Hlb Hb]].
    + by apply (Hinv a b v w).
    + apply list_lookup_singleton_Some in Hb as [_ <-]. simpl in *.
      pose proof (Hold a v Ha Hp Hip). lia.
    + apply list_lookup_singleton_Some in Ha as [_ <-]. simpl in *.
      pose proof (Hold b w Hb (eq_sym Hp) (eq_sym Hip)). lia.
    + apply list_lookup_singleton_Some in Ha as [Ha _].
      apply list_lookup_singleton_Some in Hb as [Hb _]. lia.
Qed.

Lemma serially_reachable_origin_spaced (db : Db) :
  serially_reachable db → origin_spaced db.
Proof.
  intros H. unfold serially_reachable in H.
  assert (∀ a b, rtc serial_step a b → origin_spaced a → origin_spaced b) as Hinv.
  { induction 1 as [|a b c Hab _ IH]; [done|]. intros Ha.
    apply IH. by eapply serial_step_origin_spaced. }
  apply (Hinv _ _ H).
  intros i j v w Hi. simpl in Hi. by rewrite lookup_nil in Hi.
Qed.

Lemma tea_db_voted_twice_serially_reachable : serially_reachable tea_db_voted_twice.
Proof.
  unfold serially_reachable.
  eapply rtc_l; [apply (serial_create empty_db tea_body "p1" None 0)|].
  eapply rtc_l; [apply (serial_vote tea_db (vote_request "p1" (Js.of_Z 0) "x1") 1000)|].
  eapply rtc_l; [|apply rtc_refl].
  apply (serial_vote tea_db_voted (vote_request "p1" (Js.of_Z 1) "x2") 70000).
Qed.

End Spacing.

(** X2.  The cooldown is 60 seconds.  Along handler runs that do not
    overlap, two votes of the same poll from the same origin address were
    created more than 60 seconds apart.  With overlap they need not be:
    when two submissions on one poll from one origin have both passed the
    checks on the same ledger, both rows are stored, however close in time,
    and the store they leave is one the service reaches. *)
Theorem votes_of_an_origin_are_spaced_without_overlap :
  VoteRoute.COOLDOWN_MS = 60000 ∧
  (∀ db, serially_reachable db → origin_spaced db) ∧
  (∀ db r1 r2 now1 now2 poll1 poll2 v1 v2 t1 t2,
     VoteRoute.admission db r1 now1 = continue (poll1, v1) →
     VoteRoute.admission db r2 now2 = continue (poll2, v2) →
     VoteRoute.params_id r1 = VoteRoute.params_id r2 →
     ipAddress v1 = ipAddress v2 →
     now1 ≤ t1 → now2 ≤ t2 → Z.abs (t1 - t2) ≤ 60000 →
     let db2 := VoteRoute.insert (VoteRoute.insert db (stamp v1 t1)) (stamp v2 t2) in
     votes db2 = (votes db ++ [stamp v1 t1; stamp v2 t2])%list ∧
     rtc step db db2 ∧
     ¬ origin_spaced db2).
Proof.
  split; [done|]. split; [apply serially_reachable_origin_spaced|].
  intros db r1 r2 now1 now2 poll1 poll2 v1 v2 t1 t2 H1 H2 Hid Hip Ht1 Ht2 Hclose db2.
  destruct (admission_continue_inv _ _ _ _ _ H1)
    as (n1 & fp1 & i1 & _ & _ & _ & _ & _ & _ & E1).
  destruct (admission_continue_inv _ _ _ _ _ H2)
    as (n2 & fp2 & i2 & _ & _ & _ & _ & _ & _ & E2).
  assert (votes db2 = (votes db ++ [stamp v1 t1; stamp v2 t2])%list) as Hvotes
    by (subst db2; simpl; by rewrite <- app_assoc).
  split; [done|]. split.
  - eapply rtc_l; [apply (step_insert db db r1 now1 poll1 v1 t1 (rtc_refl _ _) H1 Ht1)|].
    apply rtc_once.
    apply (step_insert db _ r2 now2 poll2 v2 t2); [|done|done].
    apply rtc_once. apply (step_insert db db r1 now1 poll1 v1 t1 (rtc_refl _ _) H1 Ht1).
  - intros Hspaced.
    assert (VoteRoute.COOLDOWN_MS < Z.abs (createdAt (stamp v1 t1) - createdAt (stamp v2 t2)))
      as Habs.
    { apply (Hspaced (length (votes db)) (S (length (votes db)))); rewrite ?Hvotes.
      - rewrite lookup_app_r by lia. by rewrite Nat.sub_diag.
      - rewrite lookup_app_r by lia.
        by replace (S (length (votes db)) - length (votes db))%nat with 1%nat by lia.
      - lia.
      - rewrite E1, E2. simpl. by rewrite Hid.
      - done. }
    simpl in Habs. change VoteRoute.COOLDOWN_MS with 60000 in Habs. lia.
Qed.

(** X2 on a run of two votes without overlap: two browsers behind no proxy
    header vote 69 seconds apart. *)
Lemma tea_votes_are_spaced :
  length (votes tea_db_voted_twice) = 2%nat ∧ origin_spaced tea_db_voted_twice.
Proof.
  split; [reflexivity|].
  apply (proj1 (proj2 votes_of_an_origin_are_spaced_without_overlap)).
  exact tea_db_voted_twice_serially_reachable.
Defined.

(** X3.  The handler checks the ledger and inserts later, and table [Vote]
    has no uniqueness constraint on the poll and fingerprint: when two
    submissions with the same fingerprint on the same poll have both passed
    the checks against the same ledger, both rows are inserted. *)
Theorem overlapping_submissions_are_both_inserted
    (db : Db) (r1 r2 : VoteRoute.Request) (now1 now2 : Z)
    (poll1 poll2 : Poll) (v1 v2 : Vote) :
  VoteRoute.admission db r1 now1 = continue (poll1, v1) →
  VoteRoute.admission db r2 now2 = continue (poll2, v2) →
  VoteRoute.params_id r1 = VoteRoute.params_id r2 →
  fingerprint v1 = fingerprint v2 →
  let db1 := (VoteRoute.commit db (VoteRoute.params_id r1) poll1 v1).2 in
  let db2 := (VoteRoute.commit db1 (VoteRoute.params_id r2) poll2 v2).2 in
  votes db2 = (votes db ++ [v1; v2])%list ∧
  pollId v1 = pollId v2 ∧
  ¬ unique_identity db2.
Proof.
  intros H1 H2 Hid Hfp db1 db2.
  destruct (admission_continue_inv _ _ _ _ _ H1) as (n1 & fp1 & i1 & _ & _ & _ & _ & _ & _ & E1).
  destruct (admission_continue_inv _ _ _ _ _ H2) as (n2 & fp2 & i2 & _ & _ & _ & _ & _ & _ & E2).
  assert (votes db2 = (votes db ++ [v1; v2])%list) as Hvotes
    by (subst db2 db1; simpl; by rewrite <- app_assoc).
  assert (pollId v1 = pollId v2) as Hpoll by (rewrite E1, E2; simpl; by rewrite Hid).
  split; [done|]. split; [done|].
  intros Huniq.
  assert (length (votes db) = S (length (votes db))) as Habs; [|lia].
  apply (Huniq _ _ v1 v2); [| |done|done]; rewrite Hvotes.
  - rewrite lookup_app_r by lia. by rewrite Nat.sub_diag.
  - rewrite lookup_app_r by lia. by replace (S (length (votes db)) - length (votes db))%nat
      with 1%nat by lia.
Qed.

(** X3 on the small run: the same browser submits twice at once. *)
Lemma double_click_is_counted_twice :
  votes (VoteRoute.commit
           (VoteRoute.commit tea_db "p1"
              {| question := "Tea or coffee?"; options := ["Tea"; "Coffee"];
                 poll_createdAt := 0 |}
              (new_vote (vote_request "p1" (Js.of_Z 0) "x1") 0 "x1" 1000)).2
           "p1"
           {| question := "Tea or coffee?"; options := ["Tea"; "Coffee"];
              poll_createdAt := 0 |}
           (new_vote (vote_request "p1" (Js.of_Z 1) "x1") 1 "x1" 1001)).2
  = (votes tea_db ++ [new_vote (vote_request "p1" (Js.of_Z 0) "x1") 0 "x1" 1000;
                      new_vote (vote_request "p1" (Js.of_Z 1) "x1") 1 "x1" 1001])%list.
Proof.
  refine (proj1 (overlapping_submissions_are_both_inserted tea_db
            (vote_request "p1" (Js.of_Z 0) "x1") (vote_request "p1" (Js.of_Z 1) "x1")
            1000 1001
            {| question := "Tea or coffee?"; options := ["Tea"; "Coffee"];
               poll_createdAt := 0 |}
            {| question := "Tea or coffee?"; options := ["Tea"; "Coffee"];
               poll_createdAt := 0 |}
            (new_vote (vote_request "p1" (Js.of_Z 0) "x1") 0 "x1" 1000)
            (new_vote (vote_request "p1" (Js.of_Z 1) "x1") 1 "x1" 1001)
            _ _ eq_refl eq_refl)).
  - vm_compute. reflexivity.
  - vm_compute. reflexivity.
Defined.

(** ** The fingerprint hash *)

Lemma to_int32_range (z : Z) :
  - 2 ^ 31 ≤ Fingerprint.to_int32 z < 2 ^ 31.
Proof.
  unfold Fingerprint.to_int32.
  pose proof (Z.mod_pos_bound (z + 2 ^ 31) (2 ^ 32) ltac:(lia)). lia.
Qed.

Lemma to_int32_congr (a b : Z) :
  a mod 2 ^ 32 = b mod 2 ^ 32 → Fingerprint.to_int32 a = Fingerprint.to_int32 b.
Proof.
  intros H. unfold Fingerprint.to_int32.
  rewrite (Zplus_mod a), (Zplus_mod b), H. done.
Qed.

Lemma to_int32_mod (z : Z) : Fingerprint.to_int32 z mod 2 ^ 32 = z mod 2 ^ 32.
Proof.
  unfold Fingerprint.to_int32.
  rewrite Zminus_mod, Z.mod_mod by lia.
  rewrite <- Zminus_mod. f_equal. lia.
Qed.

Lemma to_int32_id (z : Z) : - 2 ^ 31 ≤ z < 2 ^ 31 → Fingerprint.to_int32 z = z.
Proof.
  intros H. unfold Fingerprint.to_int32. rewrite Z.mod_small by lia. lia.
Qed.

Lemma hash_round_spec (hash : Z) (c : ascii) :
  Fingerprint.hash_round hash c
  = Fingerprint.to_int32 (31 * hash + Fingerprint.charCode c).
Proof.
  unfold Fingerprint.hash_round. apply to_int32_congr.
  rewrite Zplus_mod, Zminus_mod, to_int32_mod.
  rewrite (Zmult_mod (Fingerprint.to_int32 hash)), to_int32_mod.
  rewrite <- Zmult_mod, <- Zminus_mod, <- Zplus_mod. f_equal. lia.
Qed.

Lemma poly31_congr (str : string) (a b : Z) :
  a mod 2 ^ 32 = b mod 2 ^ 32 →
  Fingerprint.poly31 a str mod 2 ^ 32 = Fingerprint.poly31 b str mod 2 ^ 32.
Proof.
  revert a b. induction str as [|c str IH]; intros a b H; simpl; [done|].
  apply IH. rewrite (Zplus_mod (31 * a)), (Zplus_mod (31 * b)).
  rewrite (Zmult_mod 31 a), (Zmult_mod 31 b), H. done.
Qed.

Lemma hash_loop_poly31 (str : string) (hash : Z) :
  - 2 ^ 31 ≤ hash < 2 ^ 31 →
  Fingerprint.hash_loop hash str = Fingerprint.to_int32 (Fingerprint.poly31 hash str).
Proof.
  revert hash. induction str as [|c str IH]; intros hash H; simpl.
  - by rewrite to_int32_id.
  - rewrite IH by apply to_int32_range.
    apply to_int32_congr, poly31_congr.
    rewrite hash_round_spec. apply to_int32_mod.
Qed.

(** ** Base 36 *)

Lemma parse36_from_app (s t : string) (v : Z) :
  Fingerprint.parse36_from v (s +:+ t)
  = Fingerprint.parse36_from (Fingerprint.parse36_from v s) t.
Proof. revert v. induction s as [|c s IH]; intros v; simpl; [done|apply IH]. Qed.

Lemma digit36_value (d : Z) :
  0 ≤ d < 36 →
  Fingerprint.digit_value (Fingerprint.digit36 d) = d ∧
  Fingerprint.is_digit36 (Fingerprint.digit36 d) = true.
Proof.
  intros H. unfold Fingerprint.digit_value, Fingerprint.is_digit36, Fingerprint.digit36.
  rewrite nat_ascii_embedding by (destruct (d <? 10) eqn:E; lia).
  destruct (d <? 10) eqn:E.
  - apply Z.ltb_lt in E. split.
    + rewrite Z2Nat.id by lia. destruct (48 + d <? 58) eqn:E'; lia.
    + apply orb_true_iff. left. apply andb_true_iff.
      split; apply Nat.leb_le; lia.
  - apply Z.ltb_ge in E. split.
    + rewrite Z2Nat.id by lia. destruct (87 + d <? 58) eqn:E'; lia.
    + apply orb_true_iff. right. apply andb_true_iff.
      split; apply Nat.leb_le; lia.
Qed.

Lemma string_app_cons (c : ascii) (s t : string) :
  String c s +:+ t = String c (s +:+ t).
Proof. reflexivity. Qed.

Lemma string_app_nil_r (s : string) : s +:+ "" = s.
Proof. induction s as [|c s IH]; [done|]. rewrite string_app_cons. by f_equal. Qed.

Lemma string_app_assoc (s t u : string) : (s +:+ t) +:+ u = s +:+ (t +:+ u).
Proof. induction s as [|c s IH]; [done|]. rewrite !string_app_cons. by f_equal. Qed.

Lemma string_app_length (s t : string) :
  String.length (s +:+ t) = (String.length s + String.length t)%nat.
Proof.
  induction s as [|c s IH]; [done|]. rewrite string_app_cons. simpl. by f_equal.
Qed.

Lemma all_digit36_app (s t : string) :
  Fingerprint.all_digit36 (s +:+ t)
  = Fingerprint.all_digit36 s && Fingerprint.all_digit36 t.
Proof.
  induction s as [|c s IH]; [done|]. rewrite string_app_cons. simpl.
  rewrite IH. by rewrite andb_assoc.
Qed.

Lemma toString36_from_spec (fuel : nat) (n : Z) (acc : string) :
  0 ≤ n < 2 ^ Z.of_nat (S fuel) →
  ∃ s, Fingerprint.toString36_from (S fuel) n acc = s +:+ acc ∧
       s ≠ "" ∧
       Fingerprint.all_digit36 s = true ∧
       (∀ v, Fingerprint.parse36_from v s
             = v * 36 ^ Z.of_nat (String.length s) + n) ∧
       36 ^ (Z.of_nat (String.length s) - 1) ≤ Z.max n 1.
Proof.
  revert n acc. induction fuel as [|fuel IH]; intros n acc Hn.
  - exists (String (Fingerprint.digit36 (n mod 36)) "").
    assert (n mod 36 = n) as Hm by (apply Z.mod_small; simpl in Hn; lia).
    assert (n / 36 = 0) as Hd by (apply Z.div_small; simpl in Hn; lia).
    destruct (digit36_value n) as [Hv Hi]; [simpl in Hn; lia|].
    assert (0 ≤ n < 2) as Hn2 by (simpl in Hn; lia).
    cbn [Fingerprint.toString36_from]. rewrite Hd, Hm.
    cbn [Z.eqb Fingerprint.parse36_from Fingerprint.all_digit36 String.length].
    rewrite Hv, Hi. change (Z.of_nat 1 - 1) with 0. change (Z.of_nat 1) with 1.
    split; [done|]. split; [done|]. split; [done|]. split; [intros v; lia|lia].
  - cbn [Fingerprint.toString36_from].
    pose proof (Z.mod_pos_bound n 36 ltac:(lia)) as Hmod.
    destruct (digit36_value (n mod 36)) as [Hv Hi]; [lia|].
    destruct (n / 36 =? 0) eqn:E.
    + apply Z.eqb_eq in E.
      exists (String (Fingerprint.digit36 (n mod 36)) "").
      assert (n mod 36 = n) as Hm.
      { pose proof (Z.div_mod n 36 ltac:(lia)). lia. }
      cbn [Fingerprint.parse36_from Fingerprint.all_digit36 String.length].
      rewrite Hv, Hi. change (Z.of_nat 1 - 1) with 0. change (Z.of_nat 1) with 1.
      split; [done|]. split; [done|]. split; [done|]. split; [intros v; lia|lia].
    + apply Z.eqb_neq in E.
      assert (0 < n / 36) as Hpos.
      { pose proof (Z.div_pos n 36 ltac:(lia) ltac:(lia)). lia. }
      destruct (IH (n / 36) (String (Fingerprint.digit36 (n mod 36)) acc))
        as (s & Hs & Hne & Hall & Hparse & Hlen).
      { split; [lia|]. apply Z.div_lt_upper_bound; [lia|].
        rewrite (Nat2Z.inj_succ (S fuel)), Z.pow_succ_r in Hn by lia. lia. }
      exists (s +:+ String (Fingerprint.digit36 (n mod 36)) "").
      rewrite string_app_assoc, string_app_cons. split; [done|].
      split; [by destruct s|].
      split; [rewrite all_digit36_app, Hall; simpl; by rewrite Hi|].
      rewrite string_app_length. simpl String.length.
      replace (Z.of_nat (String.length s + 1)) with (Z.succ (Z.of_nat (String.length s))) by lia.
      split.
      * intros v. rewrite parse36_from_app, Hparse. simpl.
        rewrite Hv, Z.pow_succ_r by lia.
        pose proof (Z.div_mod n 36 ltac:(lia)). lia.
      * replace (Z.succ (Z.of_nat (String.length s)) - 1)
          with (Z.succ (Z.of_nat (String.length s) - 1)) by lia.
        assert (1 ≤ Z.of_nat (String.length s)) by (destruct s; [done|simpl; lia]).
        rewrite Z.pow_succ_r by lia.
        pose proof (Z.div_mod n 36 ltac:(lia)). lia.
Qed.

Lemma toString36_spec (n : Z) :
  0 ≤ n →
  Fingerprint.toString36 n ≠ "" ∧
  Fingerprint.all_digit36 (Fingerprint.toString36 n) = true ∧
  Fingerprint.parse36 (Fingerprint.toString36 n) = n ∧
  36 ^ (Z.of_nat (String.length (Fingerprint.toString36 n)) - 1) ≤ Z.max n 1.
Proof.
  intros Hn. unfold Fingerprint.toString36, Fingerprint.parse36.
  destruct (toString36_from_spec (Z.to_nat (Z.log2 n)) n "")
    as (s & Hs & Hne & Hall & Hparse & Hlen).
  { split; [done|]. rewrite Nat2Z.inj_succ, Z2Nat.id by apply Z.log2_nonneg.
    destruct (decide (n = 0)) as [->|]; [done|].
    apply Z.log2_spec. lia. }
  rewrite Hs.
  rewrite string_app_nil_r.
  repeat split; [done|done|rewrite Hparse; lia|done].
Qed.

Lemma hash_loop_range (str : string) :
  - 2 ^ 31 ≤ Fingerprint.hash_loop 0 str < 2 ^ 31.
Proof. rewrite hash_loop_poly31 by lia. apply to_int32_range. Qed.

Lemma hashString_spec (str : string) :
  Fingerprint.hashString str ≠ "" ∧
  Fingerprint.all_digit36 (Fingerprint.hashString str) = true ∧
  Fingerprint.parse36 (Fingerprint.hashString str)
  = Z.abs (Fingerprint.to_int32 (Fingerprint.poly31 0 str)) ∧
  (String.length (Fingerprint.hashString str) ≤ 6)%nat.
Proof.
  unfold Fingerprint.hashString.
  destruct (toString36_spec (Z.abs (Fingerprint.hash_loop 0 str)) ltac:(lia))
    as (Hne & Hall & Hparse & Hlen).
  rewrite hash_loop_poly31 in * by lia.
  split; [done|]. split; [done|]. split; [done|].
  pose proof (to_int32_range (Fingerprint.poly31 0 str)) as Hr.
  set (len := String.length _) in *.
  destruct (decide (len ≤ 6)%nat) as [|Hbig]; [done|exfalso].
  assert (36 ^ 6 ≤ 36 ^ (Z.of_nat len - 1)) by (apply Z.pow_le_mono_r; lia).
  assert (36 ^ 6 = 2176782336) by reflexivity.
  assert (2 ^ 31 = 2147483648) as E31 by reflexivity.
  rewrite E31 in Hr. lia.
Qed.

Lemma getOrCreateFingerprint_nonempty (window : bool) (ls : Fingerprint.LocalStorage)
    (b : Fingerprint.Browser) :
  (Fingerprint.getOrCreateFingerprint window ls b).1 ≠ "".
Proof.
  unfold Fingerprint.getOrCreateFingerprint, Fingerprint.generateFingerprint.
  destruct window; simpl; [|done].
  destruct (Fingerprint.getItem_throws ls); simpl; [apply hashString_spec|].
  destruct (Fingerprint.items ls !! Fingerprint.STORAGE_KEY) as [[|c fp]|]; simpl;
    [| done |];
    destruct (Fingerprint.setItem_throws ls); simpl; apply hashString_spec.
Qed.

(** X5.  [hashString] computes the 31-adic polynomial of the code units
    wrapped to a signed 32-bit integer, and renders the absolute value in
    base 36: the fingerprint is a string of one to six characters from
    [0-9a-z] which reads back as that absolute value, so two strings get
    the same fingerprint exactly when their wrapped polynomials agree up to
    sign. *)
Theorem fingerprint_hash_is_base36_of_wrapped_polynomial (str : string) :
  let hash := Fingerprint.to_int32 (Fingerprint.poly31 0 str) in
  Fingerprint.hash_loop 0 str = hash ∧
  - 2 ^ 31 ≤ hash < 2 ^ 31 ∧
  Fingerprint.parse36 (Fingerprint.hashString str) = Z.abs hash ∧
  Fingerprint.all_digit36 (Fingerprint.hashString str) = true ∧
  (1 ≤ String.length (Fingerprint.hashString str) ≤ 6)%nat ∧
  ∀ str', Fingerprint.hashString str = Fingerprint.hashString str' ↔
          Z.abs hash = Z.abs (Fingerprint.to_int32 (Fingerprint.poly31 0 str')).
Proof.
  intros hash. destruct (hashString_spec str) as (Hne & Hall & Hparse & Hlen).
  split; [apply hash_loop_poly31; lia|].
  split; [apply to_int32_range|].
  split; [done|]. split; [done|].
  split; [split; [|done]; destruct (Fingerprint.hashString str); [done|simpl; lia]|].
  intros str'. destruct (hashString_spec str') as (_ & _ & Hparse' & _). split.
  - intros E. rewrite <- Hparse', <- E. by rewrite Hparse.
  - intros E. unfold Fingerprint.hashString.
    rewrite !hash_loop_poly31 by lia. by rewrite <- E.
Qed.

(** X6.  When [localStorage] works, [getOrCreateFingerprint] returns a
    fingerprint that is not empty and is stored under [poll_fingerprint]
    afterwards; no other key changes; a stored non-empty value is returned
    as it is, with the storage untouched; and every later call returns the
    same fingerprint and leaves the storage as it is, whatever the browser
    characteristics have become. *)
Theorem stored_fingerprint_is_stable (ls : Fingerprint.LocalStorage)
    (b : Fingerprint.Browser) :
  Fingerprint.getItem_throws ls = false →
  Fingerprint.setItem_throws ls = false →
  let fp := (Fingerprint.getOrCreateFingerprint true ls b).1 in
  let ls' := (Fingerprint.getOrCreateFingerprint true ls b).2 in
  fp ≠ "" ∧
  Fingerprint.items ls' !! Fingerprint.STORAGE_KEY = Some fp ∧
  (∀ key, key ≠ Fingerprint.STORAGE_KEY →
          Fingerprint.items ls' !! key = Fingerprint.items ls !! key) ∧
  (∀ stored, Fingerprint.items ls !! Fingerprint.STORAGE_KEY = Some stored →
             stored ≠ "" → fp = stored ∧ ls' = ls) ∧
  ∀ b', Fingerprint.getOrCreateFingerprint true ls' b' = (fp, ls').
Proof.
  intros Hget Hset fp ls'.
  split; [apply getOrCreateFingerprint_nonempty|].
  subst fp ls'. unfold Fingerprint.getOrCreateFingerprint.
  rewrite Hget, Hset. cbn [negb].
  assert (Fingerprint.generateFingerprint b ≠ "") as Hgen by apply hashString_spec.
  destruct (Fingerprint.items ls !! Fingerprint.STORAGE_KEY) as [[|c stored]|] eqn:E;
    cbn [Js.or_else fst snd Fingerprint.items Fingerprint.getItem_throws
         Fingerprint.setItem_throws].
  - rewrite lookup_insert_eq. split; [done|].
    split; [intros key Hk; by rewrite lookup_insert_ne|].
    split; [intros stored Hs; congruence|].
    intros b'. destruct (Fingerprint.generateFingerprint b) eqn:G; [done|].
    reflexivity.
  - rewrite E, Hget. cbn [Js.or_else]. split; [done|]. split; [done|].
    split; [intros stored' Hs _; by simplify_eq|done].
  - rewrite lookup_insert_eq. split; [done|].
    split; [intros key Hk; by rewrite lookup_insert_ne|].
    split; [intros stored Hs; congruence|].
    intros b'. destruct (Fingerprint.generateFingerprint b) eqn:G; [done|].
    reflexivity.
Qed.

(** X6 on a first visit: the storage is empty and works. *)
Lemma stored_fingerprint_is_stable_on_first_visit :
  let fp := (Fingerprint.getOrCreateFingerprint true empty_storage unlucky_browser).1 in
  let ls' := (Fingerprint.getOrCreateFingerprint true empty_storage unlucky_browser).2 in
  Fingerprint.items ls' !! Fingerprint.STORAGE_KEY = Some fp ∧
  ∀ b', Fingerprint.getOrCreateFingerprint true ls' b' = (fp, ls').
Proof.
  intros fp ls'.
  generalize (stored_fingerprint_is_stable empty_storage unlucky_browser
                eq_refl eq_refl).
  intros (_ & Hstored & _ & _ & Hstable). split; [exact Hstored|exact Hstable].
Defined.

(** ** Trimming *)

Lemma trimStart_head (s : string) :
  Js.trimStart s = "" ∨
  ∃ c r, Js.trimStart s = String c r ∧ Js.is_space c = false.
Proof.
  induction s as [|c s IH]; [by left|]. simpl.
  destruct (Js.is_space c) eqn:E; [done|]. right. by exists c, s.
Qed.

Lemma trimEnd_cons (c : ascii) (s : string) :
  Js.is_space c = false → Js.trimEnd (String c s) = String c (Js.trimEnd s).
Proof. intros E. simpl. rewrite E. by destruct (Js.trimEnd s). Qed.

Lemma trimEnd_nonempty (c : ascii) (s : string) :
  Js.trimEnd s ≠ "" → Js.trimEnd (String c s) = String c (Js.trimEnd s).
Proof. intros H. simpl. by destruct (Js.trimEnd s). Qed.

Lemma trimEnd_idem (s : string) : Js.trimEnd (Js.trimEnd s) = Js.trimEnd s.
Proof.
  induction s as [|c s IH]; [done|].
  destruct (decide (Js.trimEnd s = "")) as [E|E].
  - simpl. rewrite E. destruct (Js.is_space c) eqn:Ec; [done|]. simpl. by rewrite Ec.
  - rewrite (trimEnd_nonempty c s E).
    rewrite trimEnd_nonempty by (by rewrite IH). by rewrite IH.
Qed.

Lemma trim_head (s : string) :
  Js.trim s = "" ∨ ∃ c r, Js.trim s = String c r ∧ Js.is_space c = false.
Proof.
  unfold Js.trim. destruct (trimStart_head s) as [->|(c & r & -> & E)]; [by left|].
  right. rewrite trimEnd_cons by done. by eexists _, _.
Qed.

Lemma trim_idem (s : string) : Js.trim (Js.trim s) = Js.trim s.
Proof.
  destruct (trim_head s) as [->|(c & r & E & Hc)]; [done|].
  unfold Js.trim at 1. rewrite E. simpl Js.trimStart. rewrite Hc.
  rewrite <- E. unfold Js.trim. apply trimEnd_idem.
Qed.

Lemma has_comma_trimStart (s : string) :
  has_comma s = false → has_comma (Js.trimStart s) = false.
Proof.
  induction s as [|c s IH]; [done|]. simpl. intros H.
  apply orb_false_iff in H as [Hc Hs].
  destruct (Js.is_space c); [by apply IH|]. simpl. by rewrite Hc, Hs.
Qed.

Lemma has_comma_trimEnd (s : string) :
  has_comma s = false → has_comma (Js.trimEnd s) = false.
Proof.
  induction s as [|c s IH]; [done|]. cbn [has_comma Js.trimEnd]. intros H.
  apply orb_false_iff in H as [Hc Hs]. specialize (IH Hs).
  destruct (Js.trimEnd s) as [|d r].
  - destruct (Js.is_space c); [done|]. simpl. by rewrite Hc.
  - cbn [has_comma] in *. by rewrite Hc, IH.
Qed.

Lemma has_comma_split_comma_head (s : string) :
  has_comma (Js.split_comma_head s) = false.
Proof.
  induction s as [|c s IH]; [done|]. simpl.
  destruct (Ascii.eqb c ",") eqn:E; [done|]. simpl. by rewrite E, IH.
Qed.

(** ** Request headers *)

Lemma or_else_None_r (a : option string) :
  Js.or_else a None = None ∧ (a = None ∨ a = Some "") ∨
  ∃ s, Js.or_else a None = Some s ∧ a = Some s ∧ s ≠ "".
Proof.
  destruct a as [[|c s]|]; simpl; [left|right|left]; eauto.
Qed.

Lemma ipAddressOf_nonempty (h : VoteRoute.Headers) : VoteRoute.ipAddressOf h ≠ "".
Proof.
  unfold VoteRoute.ipAddressOf.
  destruct (or_else_None_r
              (Js.or_else ((λ s, Js.trim (Js.split_comma_head s))
                             <$> VoteRoute.x_forwarded_for h)
                          (VoteRoute.x_real_ip h)))
    as [[-> _]|(s & -> & _ & Hs)]; done.
Qed.

Lemma userAgentOf_nonempty (h : VoteRoute.Headers) : VoteRoute.userAgentOf h ≠ "".
Proof.
  unfold VoteRoute.userAgentOf.
  destruct (or_else_None_r (VoteRoute.user_agent h)) as [[-> _]|(s & -> & _ & Hs)];
    done.
Qed.

(** X7.  The origin recorded for a vote request is never empty.  When
    the first comma-separated entry of [x-forwarded-for] is not blank, the
    origin is that entry trimmed, which holds no comma and is its own trim,
    whatever [x-real-ip] says.  When the header is missing or its first
    entry is blank, the origin is a non-empty [x-real-ip], or ['unknown']
    when that is missing or empty. *)
Theorem origin_of_a_request (h : VoteRoute.Headers) :
  VoteRoute.ipAddressOf h ≠ "" ∧
  (∀ xff, VoteRoute.x_forwarded_for h = Some xff →
     Js.trim (Js.split_comma_head xff) ≠ "" →
     VoteRoute.ipAddressOf h = Js.trim (Js.split_comma_head xff) ∧
     Js.trim (VoteRoute.ipAddressOf h) = VoteRoute.ipAddressOf h ∧
     has_comma (VoteRoute.ipAddressOf h) = false) ∧
  ((VoteRoute.x_forwarded_for h = None ∨
    ∃ xff, VoteRoute.x_forwarded_for h = Some xff ∧
           Js.trim (Js.split_comma_head xff) = "") →
   (∀ ip, VoteRoute.x_real_ip h = Some ip → ip ≠ "" →
          VoteRoute.ipAddressOf h = ip) ∧
   (VoteRoute.x_real_ip h = None ∨ VoteRoute.x_real_ip h = Some "" →
    VoteRoute.ipAddressOf h = "unknown")).
Proof.
  split; [apply ipAddressOf_nonempty|]. unfold VoteRoute.ipAddressOf. split.
  - intros xff -> Hne. cbn [fmap option_fmap option_map].
    destruct (Js.trim (Js.split_comma_head xff)) as [|c r] eqn:E; [done|].
    cbn [Js.or_else default]. rewrite <- E.
    split; [done|]. split; [apply trim_idem|].
    unfold Js.trim. apply has_comma_trimEnd, has_comma_trimStart,
      has_comma_split_comma_head.
  - intros Hxff.
    assert (∀ b, Js.or_else ((λ s, Js.trim (Js.split_comma_head s))
                               <$> VoteRoute.x_forwarded_for h) b = b) as Hb.
    { intros b. destruct Hxff as [->|(xff & -> & E)]; [done|].
      cbn [fmap option_fmap option_map]. by rewrite E. }
    rewrite Hb. split.
    + intros ip -> Hip. by destruct ip.
    + by intros [->| ->].
Qed.

(** X7 behind a proxy that lists two addresses. *)
Lemma origin_of_a_proxied_request :
  VoteRoute.ipAddressOf {| VoteRoute.x_forwarded_for := Some " 203.0.113.7 , 10.0.0.1";
                           VoteRoute.x_real_ip := Some "10.0.0.9";
                           VoteRoute.user_agent := None |}
  = "203.0.113.7".
Proof.
  generalize (proj1 (proj2 (origin_of_a_request
    {| VoteRoute.x_forwarded_for := Some " 203.0.113.7 , 10.0.0.1";
       VoteRoute.x_real_ip := Some "10.0.0.9";
       VoteRoute.user_agent := None |})) _ eq_refl).
  intros H. destruct H as (H & _); [vm_compute; discriminate|].
  rewrite H. vm_compute. reflexivity.
Defined.

(** ** Stored polls and vote rows *)

Lemma create_cases_creatable (db : Db) (body : Js.value) (newId : string)
    (appUrl : option string) (now : Z) :
  (PollsRoute.POST db body newId appUrl now).2 = db ∨
  ∃ s items,
    creatable body s items ∧ polls db !! newId = None ∧
    (PollsRoute.POST db body newId appUrl now).2
    = {| polls := <[newId := {| question := Js.trim s;
                                options := Js.trim <$> PollsRoute.validOptionsOf items;
                                poll_createdAt := now |}]> (polls db);
         votes := votes db |}.
Proof.
  unfold PollsRoute.POST.
  destruct (validate_cases body) as [(s & items & Hc)|[E|(error & E)]].
  - rewrite (validate_creatable body s items Hc). unfold continue.
    destruct (polls db !! newId) eqn:Hid; [by left|]. right. by exists s, items.
  - rewrite E. by left.
  - rewrite E. by left.
Qed.

Lemma created_poll_well_formed (body : Js.value) (s : string)
    (items : list Js.value) (now : Z) :
  creatable body s items →
  poll_well_formed {| question := Js.trim s;
                      options := Js.trim <$> PollsRoute.validOptionsOf items;
                      poll_createdAt := now |}.
Proof.
  intros (_ & Hs & _ & Hlen). unfold poll_well_formed. cbn [question options].
  split; [apply trim_idem|]. split; [done|].
  split; [by rewrite length_fmap|].
  intros opt Hopt. apply list_elem_of_fmap in Hopt as (o & -> & Ho).
  apply validOptionsOf_elem in Ho as [_ Ho].
  split; [apply trim_idem|done].
Qed.

Lemma step_polls_well_formed (db db' : Db) :
  step db db' →
  (∀ id poll, polls db !! id = Some poll → poll_well_formed poll) →
  ∀ id poll, polls db' !! id = Some poll → poll_well_formed poll.
Proof.
  intros Hstep IH id poll.
  destruct Hstep as [db req now|db body newId appUrl now|db0 db req now p v t _ _ _];
    [| |apply IH].
  - destruct (POST_cases db req now)
      as [(r & ->)|(n & fp & i & p & _ & _ & _ & _ & _ & _ & ->)];
      cbn [snd polls]; apply IH.
  - destruct (create_cases_creatable db body newId appUrl now)
      as [->|(s & items & Hc & Hid & ->)]; [apply IH|].
    cbn [polls]. destruct (decide (id = newId)) as [->|Hne].
    + rewrite lookup_insert_eq. intros [= <-]. by eapply created_poll_well_formed.
    + rewrite lookup_insert_ne by done. apply IH.
Qed.

Lemma new_vote_well_formed (db : Db) (req : VoteRoute.Request) (n : Js.number)
    (fp : string) (i : Z) (poll : Poll) (now : Z) :
  well_formed_body req n fp →
  polls db !! VoteRoute.params_id req = Some poll →
  Js.ge_length n (length (options poll)) = false →
  Js.integer_part n = Some i →
  ∃ ip ua,
    in_bounds (length (options poll)) (new_vote req i fp now) = true ∧
    fingerprint (new_vote req i fp now) ≠ "" ∧
    fingerprint (new_vote req i fp now) ≠ "server" ∧
    ipAddress (new_vote req i fp now) = Some ip ∧ ip ≠ "" ∧
    userAgent (new_vote req i fp now) = Some ua ∧ ua ≠ "".
Proof.
  intros (_ & Hlt & _ & Hfp & Hserver) Hpoll Hge Hint.
  exists (VoteRoute.ipAddressOf (VoteRoute.headers req)),
         (VoteRoute.userAgentOf (VoteRoute.headers req)).
  pose proof (accepted_index_in_bounds n _ i Hlt Hge Hint) as Hi.
  unfold in_bounds. cbn [new_vote optionIndex fingerprint ipAddress userAgent].
  split; [apply andb_true_iff; split; [apply Z.leb_le|apply Z.ltb_lt]; lia|].
  split; [done|]. split; [done|].
  split; [done|]. split; [apply ipAddressOf_nonempty|].
  split; [done|apply userAgentOf_nonempty].
Qed.

Lemma step_ledger_well_formed (db db' : Db) :
  step db db' → ledger_well_formed db → ledger_well_formed db'.
Proof.
  intros Hstep IH.
  destruct (step_cases db db' Hstep)
    as [->|[(id & poll & Hid & ->)
           |(db0 & req & n & fp & i & poll & now & t & _ & Hwf & Hpoll & _ & Hge
             & _ & _ & Hint & _ & ->)]];
    [done| |].
  - intros v Hv. destruct (IH v Hv) as (id' & p & ip & ua & Hp & Hl & Hrest).
    exists id', p, ip, ua. split; [done|]. split; [|done].
    cbn [polls]. rewrite lookup_insert_ne; [done|]. intros ->. congruence.
  - intros v Hv. cbn [votes] in Hv. apply elem_of_app in Hv as [Hv|Hv].
    + apply (IH v Hv).
    + apply list_elem_of_singleton in Hv as ->.
      destruct (new_vote_well_formed db req n fp i poll t Hwf Hpoll Hge Hint)
        as (ip & ua & H).
      exists (VoteRoute.params_id req), poll, ip, ua. by split.
Qed.

Lemma tea_db_voted_reachable : reachable tea_db_voted.
Proof.
  unfold reachable. eapply rtc_l; [apply (step_create empty_db tea_body "p1" None 0)|].
  eapply rtc_l; [|apply rtc_refl].
  apply (step_vote tea_db (vote_request "p1" (Js.of_Z 0) "x1") 1000).
Qed.

(** X8.  Every poll of a store reached through the routes is as the
    create-poll route builds it: its question is trimmed and not empty, and
    it has between two and ten options, each of them trimmed and not
    empty. *)
Theorem stored_polls_are_well_formed (db : Db) (id : string) (poll : Poll) :
  reachable db → polls db !! id = Some poll → poll_well_formed poll.
Proof.
  intros Hreach. revert id poll.
  apply (rtc_step_invariant
           (λ db, ∀ id poll, polls db !! id = Some poll → poll_well_formed poll)
           step_polls_well_formed empty_db db Hreach).
  intros id poll Hid. cbn [empty_db polls] in Hid. by rewrite lookup_empty in Hid.
Qed.

(** X8 on the small run. *)
Lemma stored_tea_poll_is_well_formed :
  poll_well_formed {| question := "Tea or coffee?";
                      options := ["Tea"; "Coffee"];
                      poll_createdAt := 0 |}.
Proof.
  apply (stored_polls_are_well_formed tea_db_voted "p1").
  - exact tea_db_voted_reachable.
  - vm_compute. reflexivity.
Defined.

Lemma reachable_ledger_well_formed (db : Db) :
  reachable db → ledger_well_formed db.
Proof.
  intros Hreach.
  apply (rtc_step_invariant ledger_well_formed step_ledger_well_formed
           empty_db db Hreach).
  intros v Hv. cbn [empty_db votes] in Hv. by apply elem_of_nil in Hv.
Qed.

(** X9.  Every vote row of a store reached through the routes belongs to
    a poll of the store and names one of its options; its fingerprint is
    neither empty nor ['server'], and its origin address and user agent are
    present and not empty. *)
Theorem stored_votes_are_well_formed (db : Db) :
  reachable db → ledger_well_formed db.
Proof. apply reachable_ledger_well_formed. Qed.

(** X9 on the small run. *)
Lemma stored_tea_vote_is_well_formed : ledger_well_formed tea_db_voted.
Proof. apply (stored_votes_are_well_formed tea_db_voted tea_db_voted_reachable). Defined.

(** ** How the snapshot of a poll changes *)

Lemma tally_step_mono (n : nat) (counts : list nat) (v : Vote) :
  Forall2 le counts (tally_step n counts v).
Proof.
  unfold tally_step. destruct (in_bounds n v); [|reflexivity].
  apply Forall2_same_length_lookup_2; [by rewrite length_alter|].
  intros i x y Hx Hy. rewrite list_lookup_alter in Hy.
  case_decide; simplify_eq; [rewrite Hx in Hy; simpl in Hy|]; simplify_eq; lia.
Qed.

Lemma foldl_tally_mono (n : nat) (vs : list Vote) (counts : list nat) :
  Forall2 le counts (foldl (tally_step n) counts vs).
Proof.
  revert counts. induction vs as [|v vs IH]; intros counts; simpl.
  - reflexivity.
  - etrans; [apply tally_step_mono|apply IH].
Qed.

Lemma tally_app (n : nat) (vs ws : list Vote) :
  tally n (vs ++ ws) = foldl (tally_step n) (tally n vs) ws.
Proof. unfold tally. by rewrite foldl_app. Qed.

Lemma votesOf_app (db : Db) (extra : list Vote) (id : string) :
  votesOf {| polls := polls db; votes := votes db ++ extra |} id
  = (votesOf db id ++ List.filter (λ v, bool_decide (pollId v = Some id)) extra)%list.
Proof. unfold votesOf. cbn [votes]. apply List.filter_app. Qed.

Lemma votesOf_polls (ps ps' : gmap string Poll) (vs : list Vote) (id : string) :
  votesOf {| polls := ps; votes := vs |} id = votesOf {| polls := ps'; votes := vs |} id.
Proof. reflexivity. Qed.

Lemma step_votes_prefix (db db' : Db) :
  step db db' → ∃ extra, votes db' = (votes db ++ extra)%list.
Proof.
  intros Hstep.
  destruct (step_cases db db' Hstep)
    as [->|[(id & poll & Hid & ->)
           |(db0 & req & n & fp & i & poll & now & t & _ & _ & _ & _ & _ & _ & _ & _
             & _ & ->)]].
  - exists []. by rewrite app_nil_r.
  - exists []. cbn [votes]. by rewrite app_nil_r.
  - by eexists.
Qed.

Lemma rtc_step_votes_prefix (db db' : Db) :
  rtc step db db' → ∃ extra, votes db' = (votes db ++ extra)%list.
Proof.
  induction 1 as [db|db db1 db2 Hstep _ (extra2 & IH)].
  - exists []. by rewrite app_nil_r.
  - destruct (step_votes_prefix db db1 Hstep) as (extra1 & E1).
    exists (extra1 ++ extra2)%list. by rewrite IH, E1, app_assoc.
Qed.

(** X10.  Along any run of the routes the ledger only grows at its end,
    and a poll that was served is served again with the same id, question,
    options and creation time, with counts that are nowhere smaller and a
    total that is not smaller. *)
Theorem polls_are_fixed_and_counts_only_grow (db db' : Db) (id : string)
    (p : PollRoute.Payload) :
  rtc step db db' →
  PollRoute.GET db id = PollRoute.Found p →
  votes db `prefix_of` votes db' ∧
  ∃ p', PollRoute.GET db' id = PollRoute.Found p' ∧
        PollRoute.id p' = PollRoute.id p ∧
        PollRoute.question p' = PollRoute.question p ∧
        PollRoute.options p' = PollRoute.options p ∧
        PollRoute.createdAt p' = PollRoute.createdAt p ∧
        Forall2 le (PollRoute.voteCounts p) (PollRoute.voteCounts p') ∧
        (PollRoute.totalVotes p ≤ PollRoute.totalVotes p')%nat.
Proof.
  intros Hrun Hget.
  destruct (rtc_step_votes_prefix db db' Hrun) as (extra & Hextra).
  split; [by exists extra|].
  unfold PollRoute.GET in *.
  destruct (polls db !! id) as [[q opts created]|] eqn:Hpoll; [|done].
  rewrite (proj2 (rtc_step_monotone db db' Hrun) _ _ Hpoll).
  injection Hget as <-. eexists. split; [done|]. cbn.
  split; [done|]. split; [done|]. split; [done|]. split; [done|].
  assert (votesOf db' id
          = (votesOf db id
             ++ List.filter (λ v, bool_decide (pollId v = Some id)) extra)%list) as ->.
  { unfold votesOf. rewrite Hextra. apply List.filter_app. }
  split; [rewrite tally_app; apply foldl_tally_mono|].
  rewrite length_app. lia.
Qed.

(** X10 on the small run, from the new poll to its first vote. *)
Lemma tea_counts_only_grow :
  ∃ p', PollRoute.GET tea_db_voted "p1" = PollRoute.Found p' ∧
        Forall2 le [0%nat; 0%nat] (PollRoute.voteCounts p') ∧
        (0 ≤ PollRoute.totalVotes p')%nat.
Proof.
  destruct (polls_are_fixed_and_counts_only_grow tea_db tea_db_voted "p1"
              {| PollRoute.id := "p1"; PollRoute.question := "Tea or coffee?";
                 PollRoute.options := ["Tea"; "Coffee"];
                 PollRoute.voteCounts := [0%nat; 0%nat];
                 PollRoute.totalVotes := 0; PollRoute.createdAt := 0 |})
    as (_ & p' & Hget & _ & _ & _ & _ & Hcounts & Htotal).
  - apply rtc_once. apply (step_vote tea_db (vote_request "p1" (Js.of_Z 0) "x1") 1000).
  - vm_compute. reflexivity.
  - exists p'. split; [exact Hget|]. split; [exact Hcounts|exact Htotal].
Defined.

(** ** When a vote is accepted, and what it changes *)

Lemma integer_part_ge_length (n : Js.number) (len : nat) (i : Z) :
  Js.integer_part n = Some i → i < Z.of_nat len → Js.ge_length n len = false.
Proof.
  destruct n as [| | |q]; simpl; try done.
  intros [= <-] Hlt. apply Z.leb_gt.
  pose proof (Z.div_mod (Qnum q) (Z.pos (Qden q)) ltac:(lia)) as Hdm.
  pose proof (Z.mod_pos_bound (Qnum q) (Z.pos (Qden q)) ltac:(lia)) as Hmod.
  nia.
Qed.

Lemma integer_part_lt0 (n : Js.number) (i : Z) :
  Js.integer_part n = Some i → 0 ≤ i → Js.lt0 n = false.
Proof.
  destruct n as [| | |q]; simpl; try done.
  intros [= <-] Hle. apply Z.ltb_ge.
  destruct (Z_lt_le_dec (Qnum q) 0) as [Hneg|]; [|done].
  pose proof (Z.div_lt_upper_bound (Qnum q) (Z.pos (Qden q)) 0 ltac:(lia) ltac:(lia)).
  lia.
Qed.

(** X11.  A run of the submit-vote handler without interruption accepts a
    request exactly when [optionIndex] is a finite number, whole or not,
    whose whole part lies from zero to below the option count of an
    existing poll, [fingerprint] is a string other than the empty one and
    ['server'], no vote of the poll carries that fingerprint, and every
    vote of the poll from the request's origin is older than 60 seconds. *)
Theorem vote_is_accepted_iff (db : Db) (req : VoteRoute.Request) (now : Z) :
  (∃ counts total, (VoteRoute.POST db req now).1 = VoteRoute.Success counts total) ↔
  ∃ n fp i poll,
    Js.destructure "optionIndex" (VoteRoute.body req) = Some (Js.VNum n) ∧
    Js.destructure "fingerprint" (VoteRoute.body req) = Some (Js.VStr fp) ∧
    fp ≠ "" ∧ fp ≠ "server" ∧
    polls db !! VoteRoute.params_id req = Some poll ∧
    Js.integer_part n = Some i ∧ 0 ≤ i < Z.of_nat (length (options poll)) ∧
    (∀ v, v ∈ votes db → pollId v = Some (VoteRoute.params_id req) →
          fingerprint v ≠ fp) ∧
    (∀ v, v ∈ votes db → pollId v = Some (VoteRoute.params_id req) →
          ipAddress v = Some (VoteRoute.ipAddressOf (VoteRoute.headers req)) →
          createdAt v < now - 60000).
Proof.
  split.
  - intros (counts & total & Hok).
    destruct (POST_cases db req now)
      as [(r & E)|(n & fp & i & poll & Hwf & Hpoll & Hge & Hdup & Hrate & Hint & _)];
      [by rewrite E in Hok|].
    pose proof Hwf as (Hn & Hlt & Hfp & Hne & Hserver).
    exists n, fp, i, poll.
    split; [done|]. split; [done|]. split; [done|]. split; [done|].
    split; [done|]. split; [done|].
    split; [by eapply accepted_index_in_bounds|]. split.
    + intros v Hv Hid Hsame.
      assert (is_Some (VoteRoute.existingVoteByFingerprint db (VoteRoute.params_id req) fp))
        as [w Hw] by (apply existingVoteByFingerprint_is_Some; by exists v).
      congruence.
    + intros v Hv Hid Hip.
      destruct (Z_lt_le_dec (createdAt v) (now - 60000)) as [|Hrecent]; [done|].
      assert (is_Some (VoteRoute.recentVotesByIp db (VoteRoute.params_id req)
                         (VoteRoute.ipAddressOf (VoteRoute.headers req)) now))
        as [w Hw] by (apply recentVotesByIp_is_Some; by exists v).
      congruence.
  - intros (n & fp & i & poll & Hn & Hfp & Hne & Hserver & Hpoll & Hint & Hi
            & Hdup & Hrate).
    assert (well_formed_body req n fp) as Hwf.
    { split; [done|]. split; [by eapply integer_part_lt0; [done|lia]|]. done. }
    rewrite (POST_well_formed db req now n fp Hwf), Hpoll.
    rewrite (integer_part_ge_length n _ i Hint) by lia.
    rewrite bool_decide_eq_false_2.
    2:{ intros Hex. apply existingVoteByFingerprint_is_Some in Hex
          as (v & Hv & Hid & Hsame). by apply (Hdup v). }
    rewrite bool_decide_eq_false_2.
    2:{ intros Hex. apply recentVotesByIp_is_Some in Hex
          as (v & Hv & Hid & Hip & Hrecent).
        specialize (Hrate v Hv Hid Hip). change VoteRoute.COOLDOWN_MS with 60000 in *.
        lia. }
    rewrite Hint. by eexists _, _.
Qed.

Lemma votesOf_new_vote (db : Db) (req : VoteRoute.Request) (i : Z) (fp : string)
    (now : Z) (id : string) :
  votesOf {| polls := polls db; votes := votes db ++ [new_vote req i fp now] |} id
  = if bool_decide (id = VoteRoute.params_id req)
    then (votesOf db id ++ [new_vote req i fp now])%list
    else votesOf db id.
Proof.
  rewrite votesOf_app. cbn [List.filter new_vote pollId].
  case_bool_decide as E1; case_bool_decide as E2; simplify_eq; try done.
  by rewrite app_nil_r.
Qed.

(** X12.  A vote handler that passed its checks on a store, inserted its
    row on a later one and counted on a later one still answers with the
    snapshot of the store it counted on, which the fetch-poll route and the
    update for a new subscriber give as well.  The row it stored names the
    whole part of the submitted index, an option of the poll.  The counts
    are nowhere below the counts before its insert with one added at that
    option, and the total is above the total before its insert; they are
    exactly that when nothing was written between its insert and its count,
    as in a run without interruption. *)
Theorem accepted_vote_is_counted_in_its_answer
    (db0 db1 db2 : Db) (req : VoteRoute.Request) (now t : Z) (poll : Poll) (v : Vote) :
  VoteRoute.admission db0 req now = continue (poll, v) →
  rtc step db0 db1 →
  rtc step (VoteRoute.insert db1 (stamp v t)) db2 →
  ∃ n i counts total,
    Js.destructure "optionIndex" (VoteRoute.body req) = Some (Js.VNum n) ∧
    Js.integer_part n = Some (Z.of_nat i) ∧ (i < length (options poll))%nat ∧
    optionIndex (stamp v t) = Z.of_nat i ∧
    VoteRoute.results db2 (VoteRoute.params_id req) poll
    = VoteRoute.Success counts total ∧
    Forall2 le (alter S i (tally (length (options poll))
                                 (votesOf db1 (VoteRoute.params_id req))))
               counts ∧
    (S (length (votesOf db1 (VoteRoute.params_id req))) ≤ total)%nat ∧
    (db2 = VoteRoute.insert db1 (stamp v t) →
     counts = alter S i (tally (length (options poll))
                               (votesOf db1 (VoteRoute.params_id req))) ∧
     total = S (length (votesOf db1 (VoteRoute.params_id req)))) ∧
    VoteRoute.POST db0 req now
    = (VoteRoute.results (VoteRoute.insert db0 v) (VoteRoute.params_id req) poll,
       VoteRoute.insert db0 v) ∧
    PollRoute.GET db2 (VoteRoute.params_id req)
    = PollRoute.Found {| PollRoute.id := VoteRoute.params_id req;
                         PollRoute.question := question poll;
                         PollRoute.options := options poll;
                         PollRoute.voteCounts := counts;
                         PollRoute.totalVotes := total;
                         PollRoute.createdAt := poll_createdAt poll |} ∧
    StreamRoute.sendPollUpdate db2 (VoteRoute.params_id req)
    = Some {| StreamRoute.voteCounts := counts; StreamRoute.totalVotes := total |}.
Proof.
  intros Hadmit Hrun1 Hrun2.
  destruct (admission_continue_inv _ _ _ _ _ Hadmit)
    as (n & fp & i & Hwf & Hpoll0 & Hge & _ & _ & Hint & ->).
  pose proof Hwf as (Hn & Hlt & _).
  pose proof (accepted_index_in_bounds n _ i Hlt Hge Hint) as Hi.
  pose proof (proj2 (rtc_step_monotone _ _ Hrun1) _ _ Hpoll0) as Hpoll1.
  pose proof (proj2 (rtc_step_monotone _ _ Hrun2) _ _ Hpoll1) as Hpoll2.
  destruct (rtc_step_votes_prefix _ _ Hrun2) as (extra & Hextra).
  set (id := VoteRoute.params_id req) in *.
  set (len := length (options poll)) in *.
  set (row := stamp (new_vote req i fp now) t) in *.
  assert (votesOf (VoteRoute.insert db1 row) id = (votesOf db1 id ++ [row])%list) as Hone.
  { unfold VoteRoute.insert. rewrite votesOf_app. subst row id.
    cbn [List.filter stamp new_vote pollId]. by rewrite bool_decide_eq_true_2. }
  assert (tally len (votesOf db1 id ++ [row])
          = alter S (Z.to_nat i) (tally len (votesOf db1 id))) as Htally.
  { rewrite tally_app. cbn [foldl]. unfold tally_step, in_bounds. subst row.
    cbn [stamp new_vote optionIndex].
    replace (0 <=? i) with true by (symmetry; apply Z.leb_le; lia).
    by replace (i <? Z.of_nat len) with true by (symmetry; apply Z.ltb_lt; lia). }
  assert (votesOf db2 id
          = ((votesOf db1 id ++ [row])
             ++ List.filter (λ u, bool_decide (pollId u = Some id)) extra)%list) as Hall.
  { unfold votesOf at 1. rewrite Hextra, List.filter_app. fold (votesOf (VoteRoute.insert db1 row) id).
    by rewrite Hone. }
  exists n, (Z.to_nat i), (tally len (votesOf db2 id)), (length (votesOf db2 id)).
  rewrite Z2Nat.id by lia.
  split; [done|]. split; [done|]. split; [lia|]. split; [done|]. split; [done|].
  split; [rewrite Hall, tally_app, Htally; apply foldl_tally_mono|].
  split; [rewrite Hall, !length_app; simpl; lia|].
  split; [intros ->; rewrite Hone, Htally, length_app; simpl; split; [done|lia]|].
  split; [by rewrite (POST_continue db0 req now poll _ Hadmit)|].
  split.
  - unfold PollRoute.GET. rewrite Hpoll2. by destruct poll as [q opts created].
  - unfold StreamRoute.sendPollUpdate. by rewrite Hpoll2.
Qed.

(** X12 on the run with an overlap: the first handler counts after the
    second row was stored, and its answer holds both votes. *)
Lemma first_answer_counts_the_overlapping_vote :
  VoteRoute.results twice_voted_db "p1"
    {| question := "Tea or coffee?"; options := ["Tea"; "Coffee"]; poll_createdAt := 0 |}
  = VoteRoute.Success [1%nat; 1%nat] 2 ∧
  Forall2 le (alter S 0%nat (tally 2 (votesOf tea_db "p1"))) [1%nat; 1%nat].
Proof.
  destruct (accepted_vote_is_counted_in_its_answer tea_db tea_db twice_voted_db
              (vote_request "p1" (Js.of_Z 0) "x1") 1000 1000
              {| question := "Tea or coffee?"; options := ["Tea"; "Coffee"];
                 poll_createdAt := 0 |}
              (new_vote (vote_request "p1" (Js.of_Z 0) "x1") 0 "x1" 1000))
    as (n & i & counts & total & Hn & Hint & _ & _ & Hres & Hle & _).
  - vm_compute. reflexivity.
  - apply rtc_refl.
  - apply rtc_once.
    apply (step_insert tea_db tea_db_voted (vote_request "p1" (Js.of_Z 1) "x1") 1000
             {| question := "Tea or coffee?"; options := ["Tea"; "Coffee"];
                poll_createdAt := 0 |}
             (new_vote (vote_request "p1" (Js.of_Z 1) "x1") 1 "x1" 1000) 1001).
    + apply rtc_once.
      apply (step_vote tea_db (vote_request "p1" (Js.of_Z 0) "x1") 1000).
    + vm_compute. reflexivity.
    + lia.
  - assert (i = 0%nat) as ->.
    { vm_compute in Hn. injection Hn as <-. vm_compute in Hint.
      injection Hint as Hi. by destruct i. }
    assert (counts = [1%nat; 1%nat] ∧ total = 2%nat) as [-> ->].
    { pose proof Hres as Hres'. vm_compute in Hres'. by injection Hres' as <- <-. }
    split; [exact Hres|exact Hle].
Defined.

(** X4.  The two index checks let a number through that is not whole: a
    request on an existing poll whose option index is a finite number from
    zero to below the option count, with a usable fingerprint that has not
    voted and no recent vote from its origin, is accepted; the row that is
    stored names the whole part of the index, and the answer counts the
    vote for that option. *)
Theorem fractional_index_is_stored_as_its_whole_part
    (db : Db) (req : VoteRoute.Request) (now : Z)
    (n : Js.number) (fp : string) (poll : Poll) (i : Z) :
  well_formed_body req n fp →
  polls db !! VoteRoute.params_id req = Some poll →
  Js.ge_length n (length (options poll)) = false →
  Js.integer_part n = Some i →
  VoteRoute.existingVoteByFingerprint db (VoteRoute.params_id req) fp = None →
  VoteRoute.recentVotesByIp db (VoteRoute.params_id req)
    (VoteRoute.ipAddressOf (VoteRoute.headers req)) now = None →
  0 ≤ i < Z.of_nat (length (options poll)) ∧
  VoteRoute.POST db req now
  = (VoteRoute.Success
       (alter S (Z.to_nat i)
          (tally (length (options poll)) (votesOf db (VoteRoute.params_id req))))
       (S (length (votesOf db (VoteRoute.params_id req)))),
     {| polls := polls db; votes := votes db ++ [new_vote req i fp now] |}).
Proof.
  intros Hwf Hpoll Hge Hint Hdup Hrate.
  pose proof Hwf as (_ & Hlt & _).
  pose proof (accepted_index_in_bounds n _ i Hlt Hge Hint) as Hi.
  split; [done|].
  rewrite (POST_well_formed db req now n fp Hwf), Hpoll, Hge, Hdup, Hrate, Hint.
  rewrite !bool_decide_eq_false_2 by (by intros [? ?]). cbn zeta.
  rewrite votesOf_new_vote, bool_decide_eq_true_2 by done.
  f_equal. f_equal; [|rewrite length_app; simpl; lia].
  rewrite tally_app. cbn [foldl]. unfold tally_step, in_bounds.
  cbn [new_vote optionIndex].
  replace (0 <=? i) with true by (symmetry; apply Z.leb_le; lia).
  by replace (i <? Z.of_nat (length (options poll))) with true
    by (symmetry; apply Z.ltb_lt; lia).
Qed.

(** X4 on the small run: a vote for option one and a half is stored and
    counted as a vote for option one. *)
Lemma vote_for_option_one_and_a_half :
  VoteRoute.POST tea_db (vote_request "p1" (Js.Fin (3 # 2)) "x1") 1000
  = (VoteRoute.Success [0%nat; 1%nat] 1,
     {| polls := polls tea_db;
        votes := [new_vote (vote_request "p1" (Js.Fin (3 # 2)) "x1") 1 "x1" 1000] |}).
Proof.
  refine (proj2 (fractional_index_is_stored_as_its_whole_part tea_db
                   (vote_request "p1" (Js.Fin (3 # 2)) "x1") 1000 (Js.Fin (3 # 2)) "x1"
                   {| question := "Tea or coffee?"; options := ["Tea"; "Coffee"];
                      poll_createdAt := 0 |} 1 _ _ _ _ _ _)).
  - repeat split; discriminate.
  - vm_compute. reflexivity.
  - reflexivity.
  - reflexivity.
  - vm_compute. reflexivity.
  - vm_compute. reflexivity.
Defined.

(** ** A poll that has just been created *)

Lemma tally_nil (n : nat) : tally n [] = replicate n 0%nat.
Proof. reflexivity. Qed.

Lemma votesOf_insert_poll (db : Db) (id : string) (poll : Poll) (other : string) :
  votesOf {| polls := <[id := poll]> (polls db); votes := votes db |} other
  = votesOf db other.
Proof. reflexivity. Qed.

Lemma votesOf_unknown_poll (db : Db) (id : string) :
  votes_in_bounds db → polls db !! id = None → votesOf db id = [].
Proof.
  intros Hinv Hid. destruct (votesOf db id) as [|v vs] eqn:E; [done|exfalso].
  assert (v ∈ votesOf db id) as Hv by (rewrite E; left).
  apply votesOf_elem in Hv as [Hv Hp].
  destruct (Hinv v Hv) as (id' & poll & Hp' & Hpoll & _). congruence.
Qed.

(** X13.  In a store reached through the routes, a create-poll request
    answered with success used an id that was free, left the ledger as it
    was, and stored between two and ten options; the share URL is the base
    URL followed by [/poll/] and the id; the fetch-poll route serves the new
    poll with one zero count per option and a total of zero, and every
    other poll as before. *)
Theorem created_poll_is_served_with_zero_counts
    (db db' : Db) (body : Js.value) (newId : string) (appUrl : option string)
    (now : Z) (id q : string) (opts : list string) (shareUrl : string) :
  reachable db →
  PollsRoute.POST db body newId appUrl now
  = (PollsRoute.Created id q opts shareUrl, db') →
  id = newId ∧ polls db !! newId = None ∧ votes db' = votes db ∧
  (2 ≤ length opts ≤ 10)%nat ∧
  shareUrl = default "http://localhost:3000" (Js.or_else appUrl None)
             +:+ "/poll/" +:+ newId ∧
  PollRoute.GET db' newId
  = PollRoute.Found {| PollRoute.id := newId;
                       PollRoute.question := q;
                       PollRoute.options := opts;
                       PollRoute.voteCounts := replicate (length opts) 0%nat;
                       PollRoute.totalVotes := 0;
                       PollRoute.createdAt := now |} ∧
  ∀ other, other ≠ newId → PollRoute.GET db' other = PollRoute.GET db other.
Proof.
  intros Hreach Hpost. unfold PollsRoute.POST in Hpost.
  destruct (validate_cases body) as [(s & items & Hc)|[E|(error & E)]];
    [|by rewrite E in Hpost..].
  rewrite (validate_creatable body s items Hc) in Hpost. unfold continue in Hpost.
  destruct (polls db !! newId) eqn:Hid; [done|].
  injection Hpost as <- <- <- <- <-.
  pose proof (created_poll_well_formed body s items now Hc) as (_ & _ & Hlen & _).
  cbn [options] in Hlen.
  split; [done|]. split; [done|]. split; [done|]. split; [done|]. split; [done|].
  split.
  - unfold PollRoute.GET. cbn [polls]. rewrite lookup_insert_eq.
    rewrite votesOf_insert_poll.
    by rewrite (votesOf_unknown_poll db newId (reachable_votes_in_bounds db Hreach) Hid).
  - intros other Hother. unfold PollRoute.GET. cbn [polls].
    by rewrite lookup_insert_ne, votesOf_insert_poll by done.
Qed.

(** X13 on the small run. *)
Lemma created_tea_poll_is_served_with_zero_counts :
  PollRoute.GET tea_db "p1"
  = PollRoute.Found {| PollRoute.id := "p1";
                       PollRoute.question := "Tea or coffee?";
                       PollRoute.options := ["Tea"; "Coffee"];
                       PollRoute.voteCounts := [0%nat; 0%nat];
                       PollRoute.totalVotes := 0;
                       PollRoute.createdAt := 0 |}.
Proof.
  destruct (created_poll_is_served_with_zero_counts empty_db tea_db tea_body
              "p1" None 0 "p1" "Tea or coffee?" ["Tea"; "Coffee"]
              "http://localhost:3000/poll/p1")
    as (_ & _ & _ & _ & _ & Hget & _).
  - apply rtc_refl.
  - vm_compute. reflexivity.
  - exact Hget.
Defined.

(** ** The registry of connections *)

Ltac by_elements :=
  apply set_eq; intros ?x;
  repeat first [ rewrite elem_of_union | rewrite elem_of_difference
               | rewrite elem_of_filter | rewrite elem_of_list_to_set
               | rewrite elem_of_cons | rewrite elem_of_singleton
               | rewrite elem_of_nil | rewrite elem_of_empty ].

Lemma difference_union_singleton (s : gset StreamRoute.Controller)
    (c : StreamRoute.Controller) :
  c ∉ s → (s ∪ {[c]}) ∖ {[c]} = s.
Proof. intros Hc. by_elements. destruct (decide (x = c)) as [->|]; intuition congruence. Qed.

Lemma difference_singleton_fresh (s : gset StreamRoute.Controller)
    (c : StreamRoute.Controller) :
  c ∉ s → s ∖ {[c]} = s.
Proof. intros Hc. by_elements. destruct (decide (x = c)) as [->|]; intuition congruence. Qed.

Lemma onAbort_lookup_ne (connections : gmap string (gset StreamRoute.Controller))
    (pollId other : string) (controller : StreamRoute.Controller) :
  pollId ≠ other →
  StreamRoute.onAbort connections pollId controller !! other = connections !! other.
Proof.
  intros Hne. unfold StreamRoute.onAbort.
  destruct (connections !! pollId) as [s|]; [|done].
  case_bool_decide; [by rewrite lookup_delete_ne|by rewrite lookup_insert_ne].
Qed.

Lemma onAbort_lookup (connections : gmap string (gset StreamRoute.Controller))
    (pollId : string) (controller : StreamRoute.Controller)
    (s : gset StreamRoute.Controller) :
  StreamRoute.onAbort connections pollId controller !! pollId = Some s →
  (controller ∉ s) ∧
  (∃ s0, connections !! pollId = Some s0 ∧ s = s0 ∖ {[controller]}).
Proof.
  unfold StreamRoute.onAbort.
  destruct (connections !! pollId) as [s0|] eqn:E; [|by rewrite E].
  case_bool_decide; [by rewrite lookup_delete_eq|].
  rewrite lookup_insert_eq. intros [= <-]. split; [|by exists s0].
  rewrite elem_of_difference, elem_of_singleton. tauto.
Qed.

(** X14.  In a registry without empty sets, registering a controller that
    is new to the poll and then running its [abort] listener gives back the
    registry as it was; the listener of a controller that is not registered
    changes nothing; and registering on one poll leaves the sets of the
    other polls as they are. *)
Theorem closing_a_connection_undoes_its_registration
    (connections : gmap string (gset StreamRoute.Controller))
    (pollId : string) (controller : StreamRoute.Controller) :
  StreamRoute.no_empty_sets connections →
  controller ∉ default ∅ (connections !! pollId) →
  StreamRoute.onAbort (StreamRoute.register connections pollId controller)
                      pollId controller
  = connections ∧
  StreamRoute.onAbort connections pollId controller = connections ∧
  ∀ other, other ≠ pollId →
    StreamRoute.register connections pollId controller !! other = connections !! other.
Proof.
  intros Hne Hfresh. split; [|split].
  - unfold StreamRoute.onAbort. rewrite register_lookup.
    destruct (connections !! pollId) as [s|] eqn:E; cbn [default from_option id] in *.
    + rewrite (difference_union_singleton s controller Hfresh).
      rewrite bool_decide_eq_false_2.
      2:{ intros Hsize. apply size_empty_iff, leibniz_equiv in Hsize.
          by apply (Hne pollId s). }
      apply map_eq. intros k. destruct (decide (k = pollId)) as [->|Hk].
      * by rewrite lookup_insert_eq.
      * by rewrite lookup_insert_ne, register_lookup_ne.
    + rewrite (difference_union_singleton ∅ controller Hfresh).
      rewrite bool_decide_eq_true_2 by apply size_empty.
      apply map_eq. intros k. destruct (decide (k = pollId)) as [->|Hk].
      * by rewrite lookup_delete_eq.
      * by rewrite lookup_delete_ne, register_lookup_ne.
  - unfold StreamRoute.onAbort.
    destruct (connections !! pollId) as [s|] eqn:E; cbn [default from_option id] in *; [|done].
    rewrite (difference_singleton_fresh s controller Hfresh).
    rewrite bool_decide_eq_false_2.
    2:{ intros Hsize. apply size_empty_iff, leibniz_equiv in Hsize.
        by apply (Hne pollId s). }
    by apply insert_id.
  - intros other Hother. by apply register_lookup_ne.
Qed.

(** X14 on the registry with one connection. *)
Lemma closing_the_only_connection_empties_the_registry :
  StreamRoute.onAbort one_connection "p1" 7%nat = ∅.
Proof.
  apply (closing_a_connection_undoes_its_registration ∅ "p1" 7%nat).
  - intros pollId s Hs. by rewrite lookup_empty in Hs.
  - rewrite lookup_empty. cbn [default from_option id]. apply not_elem_of_empty.
Defined.

(** ** The broadcast loop *)

Lemma enqueue_each_spec (throws : StreamRoute.Controller → bool)
    (controllers : list StreamRoute.Controller)
    (delivered remaining : gset StreamRoute.Controller) :
  foldl (λ '(delivered, remaining) controller,
           if throws controller
           then (delivered, remaining ∖ {[controller]})
           else (delivered ∪ {[controller]}, remaining))
        (delivered, remaining) controllers
  = (delivered ∪ filter (λ c, throws c = false) (list_to_set controllers),
     remaining ∖ filter (λ c, throws c = true) (list_to_set controllers)).
Proof.
  revert delivered remaining.
  induction controllers as [|c cs IH]; intros delivered remaining; cbn [foldl].
  - f_equal; by_elements; intuition congruence.
  - destruct (throws c) eqn:E; rewrite IH; f_equal; by_elements;
      destruct (decide (x = c)) as [->|]; rewrite ?E; intuition congruence.
Qed.

(** X15.  When [broadcastPollUpdate] sends a message, the loop over the
    poll's controllers, in whatever order it visits them, delivers to
    exactly the controllers whose [enqueue] does not throw and leaves
    exactly those in the poll's set; that set is what the registry holds
    for the poll afterwards, the message is the one a new subscriber would
    get, and the sets of the other polls are as they were. *)
Theorem broadcast_keeps_exactly_the_controllers_it_reached
    (db : Db) (connections : gmap string (gset StreamRoute.Controller))
    (throws : StreamRoute.Controller → bool) (pollId : string)
    (u : StreamRoute.Update) (delivered : gset StreamRoute.Controller) :
  (StreamRoute.broadcastPollUpdate db connections throws pollId).1
  = Some (u, delivered) →
  ∃ pollConnections,
    connections !! pollId = Some pollConnections ∧
    (∀ controllers,
       (∀ c, c ∈ controllers ↔ c ∈ pollConnections) →
       enqueue_each throws controllers pollConnections = (delivered, delivered)) ∧
    (∀ c, c ∈ delivered ↔ c ∈ pollConnections ∧ throws c = false) ∧
    (StreamRoute.broadcastPollUpdate db connections throws pollId).2 !! pollId
    = Some delivered ∧
    StreamRoute.sendPollUpdate db pollId = Some u ∧
    ∀ other, other ≠ pollId →
      (StreamRoute.broadcastPollUpdate db connections throws pollId).2 !! other
      = connections !! other.
Proof.
  unfold StreamRoute.broadcastPollUpdate, StreamRoute.sendPollUpdate.
  destruct (connections !! pollId) as [s|] eqn:E; [|done].
  case_bool_decide as Hsize; [done|].
  destruct (polls db !! pollId) as [poll|]; [|done].
  cbn [fst snd]. intros [= <- <-]. exists s. split; [done|].
  split; [|split; [|split; [|split]]].
  - intros controllers Hcs. unfold enqueue_each. rewrite enqueue_each_spec.
    f_equal; by_elements; rewrite ?Hcs;
      destruct (throws x) eqn:Hx; intuition congruence.
  - intros c. by rewrite elem_of_filter, (comm and).
  - by rewrite lookup_insert_eq.
  - done.
  - intros other Hother. by rewrite lookup_insert_ne.
Qed.

(** X15 with two subscribers, one of them closed. *)
Lemma broadcast_with_one_closed_stream :
  enqueue_each (Nat.eqb 8) [8%nat; 7%nat] {[7%nat; 8%nat]} = ({[7%nat]}, {[7%nat]}).
Proof.
  destruct (broadcast_keeps_exactly_the_controllers_it_reached tea_db
              (StreamRoute.register one_connection "p1" 8%nat) (Nat.eqb 8) "p1"
              {| StreamRoute.voteCounts := [0%nat; 0%nat];
                 StreamRoute.totalVotes := 0 |} {[7%nat]})
    as (s & Hs & Hloop & _).
  - vm_compute. reflexivity.
  - assert (s = {[7%nat; 8%nat]}) as ->.
    { apply (inj Some). rewrite <- Hs. vm_compute. reflexivity. }
    apply Hloop. intros c.
    rewrite !elem_of_cons, elem_of_nil, elem_of_union, !elem_of_singleton. tauto.
Defined.

(** ** The poll page *)

Lemma page_request_well_formed (pollId : string) (optionIndex : nat)
    (fp : string) (headers : VoteRoute.Headers) :
  fp ≠ "" → fp ≠ "server" →
  well_formed_body {| VoteRoute.params_id := pollId;
                      VoteRoute.body := vote_body (Js.of_Z (Z.of_nat optionIndex)) fp;
                      VoteRoute.headers := headers |}
                   (Js.of_Z (Z.of_nat optionIndex)) fp.
Proof.
  intros Hne Hserver. split; [done|]. split; [|done].
  simpl. apply Z.ltb_ge. lia.
Qed.

(** X16.  [getOrCreateFingerprint] never returns the empty string.
    Without a [window] it returns ['server'], and a vote sent by the page
    with the fingerprint ['server'] is answered 'Fingerprint is required'
    with nothing recorded, whatever the poll and the option; any other
    fingerprint gives a request that passes both body checks.  There is a
    browser whose freshly computed fingerprint is ['server']. *)
Theorem sentinel_fingerprint_is_refused
    (db : Db) (pollId : string) (optionIndex : nat)
    (headers : VoteRoute.Headers) (now : Z) :
  (∀ ls b, (Fingerprint.getOrCreateFingerprint false ls b).1 = "server") ∧
  (∀ window ls b,
     let fp := (Fingerprint.getOrCreateFingerprint window ls b).1 in
     let req := {| VoteRoute.params_id := pollId;
                   VoteRoute.body := vote_body (Js.of_Z (Z.of_nat optionIndex)) fp;
                   VoteRoute.headers := headers |} in
     fp ≠ "" ∧
     (fp = "server" →
      VoteRoute.POST db req now = (VoteRoute.Error VoteRoute.MissingIdentity, db)) ∧
     (fp ≠ "server" → well_formed_body req (Js.of_Z (Z.of_nat optionIndex)) fp)) ∧
  (Fingerprint.getOrCreateFingerprint true empty_storage unlucky_browser).1 = "server".
Proof.
  split; [done|]. split; [|vm_compute; reflexivity].
  intros window ls b fp req.
  pose proof (getOrCreateFingerprint_nonempty window ls b) as Hne.
  split; [done|]. split.
  - intros Hs. subst req. rewrite Hs. apply POST_respond.
    unfold VoteRoute.admission. cbn.
    by replace (Z.of_nat optionIndex <? 0) with false by (symmetry; apply Z.ltb_ge; lia).
  - intros Hs. by apply page_request_well_formed.
Qed.

Lemma includes_already_voted (r : VoteRoute.Rejection) :
  VoteErrors.includes "already voted" (VoteErrors.error_text r) = true ↔
  r = VoteRoute.DuplicateIdentity.
Proof. by destruct r. Qed.

Lemma error_text_or_default (r : VoteRoute.Rejection) :
  default "Failed to vote" (Js.or_else (Some (VoteErrors.error_text r)) None)
  = VoteErrors.error_text r.
Proof. by destruct r. Qed.

Lemma handleVote_end_replied
    (st : PollPage.State) (response : VoteRoute.Response) :
  PollPage.hasVoted st = false →
  let st' := (PollPage.handleVote_end st (PollPage.Replied response)).1 in
  PollPage.voting st' = false ∧
  (PollPage.hasVoted st' = true ↔
   (∃ counts total, response = VoteRoute.Success counts total) ∨
   response = VoteRoute.Error VoteRoute.DuplicateIdentity) ∧
  (∀ r, response = VoteRoute.Error r →
        PollPage.poll st' = PollPage.poll st ∧
        (PollPage.handleVote_end st (PollPage.Replied response)).2
        = [PollPage.ToastError (VoteErrors.error_text r)]).
Proof.
  intros Hnot. destruct response as [counts total|r];
    cbn [PollPage.handleVote_end fst snd PollPage.voting PollPage.hasVoted
         PollPage.poll].
  - split; [done|]. split; [|done]. split; [intros _; left; by eexists _, _|done].
  - split; [done|]. rewrite Hnot. cbn [orb].
    rewrite error_text_or_default, includes_already_voted.
    split.
    + split; [intros ->; by right|].
      intros [(c & t & [=])|[= ->]]. done.
    + intros r' [= <-]. done.
Qed.

(** X17.  When the page has not voted and the vote route replies, the
    page stops waiting, and it marks itself as having voted exactly when the
    reply is a success or the duplicate rejection (409): every other
    rejection (400, 404, 429, 500) leaves the buttons usable.  A rejection
    leaves the displayed poll as it was and is shown as an error toast with
    the server's text. *)
Theorem page_marks_voted_iff_accepted_or_duplicate
    (st : PollPage.State) (response : VoteRoute.Response) :
  PollPage.hasVoted st = false →
  let st' := (PollPage.handleVote_end st (PollPage.Replied response)).1 in
  PollPage.voting st' = false ∧
  (PollPage.hasVoted st' = true ↔
   (∃ counts total, response = VoteRoute.Success counts total) ∨
   response = VoteRoute.Error VoteRoute.DuplicateIdentity) ∧
  (∀ r, response = VoteRoute.Error r →
        PollPage.poll st' = PollPage.poll st ∧
        (PollPage.handleVote_end st (PollPage.Replied response)).2
        = [PollPage.ToastError (VoteErrors.error_text r)]).
Proof. apply handleVote_end_replied. Qed.

(** X17 on a page that is told to wait. *)
Lemma rate_limited_reply_leaves_buttons_enabled :
  PollPage.hasVoted
    (PollPage.handleVote_end
       {| PollPage.poll := None; PollPage.loading := false; PollPage.voting := true;
          PollPage.hasVoted := false; PollPage.selectedOption := Some 0%nat |}
       (PollPage.Replied (VoteRoute.Error VoteRoute.RateLimited))).1
  = false.
Proof.
  destruct (page_marks_voted_iff_accepted_or_duplicate
              {| PollPage.poll := None; PollPage.loading := false;
                 PollPage.voting := true; PollPage.hasVoted := false;
                 PollPage.selectedOption := Some 0%nat |}
              (VoteRoute.Error VoteRoute.RateLimited) eq_refl)
    as (_ & Hiff & _).
  apply not_true_is_false. intros Hvoted. apply Hiff in Hvoted.
  destruct Hvoted as [(c & t & Hc)|Hd]; discriminate.
Defined.

Lemma handle_hasVoted (st : PollPage.State) (e : PollPage.Event) :
  PollPage.hasVoted st = true → PollPage.hasVoted (PollPage.handle st e) = true.
Proof.
  intros H. destruct e as [[[p|]|]|[|u]|i fp|[[c t|r]|m]]; cbn; try done.
  - unfold PollPage.handleVote_begin. by rewrite H.
  - by rewrite H.
  - by rewrite H.
Qed.

Lemma handle_voting (st : PollPage.State) (e : PollPage.Event) :
  PollPage.voting st = true → (∀ o, e ≠ PollPage.Settled o) →
  PollPage.voting (PollPage.handle st e) = true.
Proof.
  intros H He. destruct e as [[[p|]|]|[|u]|i fp|o]; cbn; try done.
  - unfold PollPage.handleVote_begin. rewrite H, orb_true_r. done.
  - by destruct (He o).
Qed.

(** X18.  Whatever happens to the page: once it has voted it sends no
    vote request; while it waits for a reply it sends none either; and every
    request it sends carries a natural number as [optionIndex]. *)
Theorem page_sends_nothing_once_voted_or_while_waiting
    (st : PollPage.State) (events : list PollPage.Event) :
  (PollPage.hasVoted st = true → PollPage.requests st events = []) ∧
  (PollPage.voting st = true →
   (∀ e o, e ∈ events → e ≠ PollPage.Settled o) →
   PollPage.requests st events = []) ∧
  (∀ body, body ∈ PollPage.requests st events →
           ∃ optionIndex fp, body = vote_body (Js.of_Z (Z.of_nat optionIndex)) fp).
Proof.
  split; [|split].
  - revert st. induction events as [|e events IH]; intros st H; [done|].
    pose proof (IH _ (handle_hasVoted st e H)) as IH'.
    destruct e as [r|m|i fp|o]; cbn [PollPage.requests]; try done.
    unfold PollPage.handleVote_begin at 1. by rewrite H.
  - revert st. induction events as [|e events IH]; intros st H He; [done|].
    assert (∀ o, e ≠ PollPage.Settled o) as Hne by (intros o; apply He; left).
    pose proof (IH _ (handle_voting st e H Hne)
                   (λ e' o Hin, He e' o (list_elem_of_further _ _ _ Hin))) as IH'.
    destruct e as [r|m|i fp|o]; cbn [PollPage.requests]; try done.
    unfold PollPage.handleVote_begin at 1. by rewrite H, orb_true_r.
  - revert st. induction events as [|e events IH]; intros st body Hin.
    + by apply elem_of_nil in Hin.
    + destruct e as [r|m|i fp|o]; cbn [PollPage.requests] in Hin;
        try (by eapply IH).
      unfold PollPage.handleVote_begin at 1 in Hin.
      destruct (PollPage.hasVoted st || PollPage.voting st); cbn [snd] in Hin;
        [by eapply IH|].
      apply elem_of_cons in Hin as [->|Hin]; [by eexists _, _|by eapply IH].
Qed.

(** X19.  Stream messages, clicks and vote replies never change the id,
    question, options or creation time on display, never make a poll appear
    where none is loaded, and never change [loading]: only a fetch does. *)
Theorem only_a_fetch_changes_what_is_asked
    (st : PollPage.State) (events : list PollPage.Event) :
  (∀ e r, e ∈ events → e ≠ PollPage.Fetched r) →
  let st' := foldl PollPage.handle st events in
  PollPage.loading st' = PollPage.loading st ∧
  (λ p, (PollRoute.id p, PollRoute.question p, PollRoute.options p,
         PollRoute.createdAt p)) <$> PollPage.poll st'
  = (λ p, (PollRoute.id p, PollRoute.question p, PollRoute.options p,
           PollRoute.createdAt p)) <$> PollPage.poll st.
Proof.
  revert st. induction events as [|e events IH]; intros st He; [done|].
  cbn [foldl]. cbn zeta in IH.
  destruct (IH (PollPage.handle st e)
               (λ e' r Hin, He e' r (list_elem_of_further _ _ _ Hin))) as [-> ->].
  assert (∀ r, e ≠ PollPage.Fetched r) as Hne by (intros r; apply He; left).
  destruct e as [r|[|u]|i fp|[[c t|r]|m]]; cbn; try done.
  - by destruct (Hne r).
  - by destruct (PollPage.poll st).
  - unfold PollPage.handleVote_begin.
    by destruct (PollPage.hasVoted st || PollPage.voting st).
  - by destruct (PollPage.poll st).
Qed.

(** X19 on a page that loaded the small poll and receives an update. *)
Lemma stream_update_keeps_the_question :
  (λ p, (PollRoute.id p, PollRoute.question p, PollRoute.options p,
         PollRoute.createdAt p)) <$>
    PollPage.poll
      (foldl PollPage.handle
         (PollPage.fetchPoll PollPage.initial
            (PollPage.FetchReplied (PollRoute.GET tea_db "p1"))).1
         [PollPage.Message (PollPage.UpdateMessage
            {| StreamRoute.voteCounts := [1%nat; 0%nat];
               StreamRoute.totalVotes := 1 |})])
  = (λ p, (PollRoute.id p, PollRoute.question p, PollRoute.options p,
           PollRoute.createdAt p)) <$>
    PollPage.poll (PollPage.fetchPoll PollPage.initial
            (PollPage.FetchReplied (PollRoute.GET tea_db "p1"))).1.
Proof.
  apply (only_a_fetch_changes_what_is_asked
           (PollPage.fetchPoll PollPage.initial
            (PollPage.FetchReplied (PollRoute.GET tea_db "p1"))).1
           [PollPage.Message (PollPage.UpdateMessage
              {| StreamRoute.voteCounts := [1%nat; 0%nat];
                 StreamRoute.totalVotes := 1 |})]).
  intros e r Hin. apply list_elem_of_singleton in Hin as ->. discriminate.
Defined.

(** ** What the page displays *)

Lemma lookup_le_sum_counts (counts : list nat) (i c : nat) :
  counts !! i = Some c → (c ≤ sum_counts counts)%nat.
Proof.
  revert i. induction counts as [|x counts IH]; intros i Hi; [done|].
  unfold sum_counts in *. cbn [foldr]. destruct i as [|i]; simpl in Hi.
  - simplify_eq. lia.
  - specialize (IH i Hi). lia.
Qed.

Lemma percentage_in_range (count total : nat) :
  (count ≤ total)%nat → Z.of_nat total < 2 ^ 43 →
  ∃ k, Page.percentage count total = Js.of_Z k ∧ 0 ≤ k ≤ 100.
Proof.
  intros Hle Hbig. destruct (decide (total = 0%nat)) as [->|Htotal].
  - exists 0. split; [apply percentage_zero_total|lia].
  - destruct (decide (count = 0%nat)) as [->|Hcount].
    + exists 0. split; [|lia]. apply percentage_zero_count; [lia|].
      assert (2 ^ 43 < 2 ^ 53) by (apply Z.pow_lt_mono_r; lia). lia.
    + destruct (percentage_sandwich count total ltac:(lia) Hbig) as (p & Hp & Hlo & Hhi).
      exists p. split; [done|]. nia.
Qed.

(** X20.  For a poll served from a store reached through the routes, with
    fewer than [2 ^ 43] votes, the page computes one percentage per option
    and each of them is an integer from 0 to 100. *)
Theorem displayed_percentages_are_within_0_and_100
    (db : Db) (id : string) (p : PollRoute.Payload) :
  reachable db →
  PollRoute.GET db id = PollRoute.Found p →
  Z.of_nat (PollRoute.totalVotes p) < 2 ^ 43 →
  length (PollPage.displayed p) = length (PollRoute.options p) ∧
  ∀ x, x ∈ PollPage.displayed p → ∃ k, x = Js.of_Z k ∧ 0 ≤ k ≤ 100.
Proof.
  intros Hreach Hget Hbig. unfold PollPage.displayed.
  split; [by rewrite length_fmap, length_seq|].
  intros x Hx. apply list_elem_of_fmap in Hx as (index & -> & _).
  apply percentage_in_range; [|done].
  unfold PollRoute.GET in Hget.
  destruct (polls db !! id) as [[q opts created]|] eqn:Hpoll; [|done].
  injection Hget as <-. cbn [PollRoute.voteCounts PollRoute.totalVotes].
  destruct (snapshot_sum db id _ Hpoll) as (_ & _ & _ & Hsum).
  cbn [options] in Hsum. rewrite <- (Hsum Hreach).
  destruct (tally (length opts) (votesOf db id) !! index) as [c|] eqn:E;
    simpl; [by eapply lookup_le_sum_counts|lia].
Qed.

(** X20 on the small run. *)
Lemma displayed_percentages_after_the_first_tea_vote :
  length (PollPage.displayed
            {| PollRoute.id := "p1"; PollRoute.question := "Tea or coffee?";
               PollRoute.options := ["Tea"; "Coffee"];
               PollRoute.voteCounts := [1%nat; 0%nat];
               PollRoute.totalVotes := 1; PollRoute.createdAt := 0 |})
  = 2%nat ∧
  ∀ x, x ∈ PollPage.displayed
             {| PollRoute.id := "p1"; PollRoute.question := "Tea or coffee?";
                PollRoute.options := ["Tea"; "Coffee"];
                PollRoute.voteCounts := [1%nat; 0%nat];
                PollRoute.totalVotes := 1; PollRoute.createdAt := 0 |} →
       ∃ k, x = Js.of_Z k ∧ 0 ≤ k ≤ 100.
Proof.
  apply (displayed_percentages_are_within_0_and_100 tea_db_voted "p1").
  - exact tea_db_voted_reachable.
  - vm_compute. reflexivity.
  - vm_compute. reflexivity.
Defined.

(** ** The page and the ledger *)




(** ** The create-poll form *)

Lemma edit_length (options options' : list string) :
  Home.edit options options' →
  (2 ≤ length options ≤ 10)%nat → (2 ≤ length options' ≤ 10)%nat.
Proof.
  intros [opts|opts index|opts index value opts' Hupdate] Hlen.
  - unfold Home.addOption. destruct (length opts <? 10)%nat eqn:E; [|done].
    apply Nat.ltb_lt in E. rewrite length_app. simpl. lia.
  - unfold Home.removeOption. destruct (2 <? length opts)%nat eqn:E; [|done].
    apply Nat.ltb_lt in E.
    rewrite delete_take_drop, length_app, length_take, length_drop. lia.
  - unfold Home.updateOption in Hupdate.
    destruct (index <? length opts)%nat; [|done].
    injection Hupdate as <-. by rewrite length_insert.
Qed.

Lemma rtc_edit_length (options : list string) :
  rtc Home.edit Home.initial_options options → (2 ≤ length options ≤ 10)%nat.
Proof.
  intros Hrun.
  assert (∀ a b, rtc Home.edit a b →
                 (2 ≤ length a ≤ 10)%nat → (2 ≤ length b ≤ 10)%nat) as Hinv.
  { induction 1 as [|a b c Hab _ IH]; [done|]. intros Ha.
    apply IH. by eapply edit_length. }
  apply (Hinv _ _ Hrun). simpl. lia.
Qed.

(** X22.  However the user adds, removes and edits options, starting
    from the two empty fields, the form holds between two and ten options:
    removing does nothing at two options and adding does nothing at ten. *)
Theorem form_keeps_between_two_and_ten_options (options : list string) :
  rtc Home.edit Home.initial_options options →
  (2 ≤ length options ≤ 10)%nat ∧
  (∀ index, (length options ≤ 2)%nat → Home.removeOption options index = options) ∧
  ((10 ≤ length options)%nat → Home.addOption options = options).
Proof.
  intros Hrun. split; [by apply rtc_edit_length|]. split.
  - intros index Hle. unfold Home.removeOption.
    by replace (2 <? length options)%nat with false by (symmetry; apply Nat.ltb_ge; lia).
  - intros Hge. unfold Home.addOption.
    by replace (length options <? 10)%nat with false by (symmetry; apply Nat.ltb_ge; lia).
Qed.

Lemma three_option_form_is_reached :
  rtc Home.edit Home.initial_options ["Tea"; " "; "Coffee"].
Proof.
  eapply rtc_l; [apply Home.edit_add|].
  eapply rtc_l; [apply (Home.edit_update _ 0%nat "Tea"); reflexivity|].
  eapply rtc_l; [apply (Home.edit_update _ 1%nat " "); reflexivity|].
  eapply rtc_l; [apply (Home.edit_update _ 2%nat "Coffee"); reflexivity|].
  apply rtc_refl.
Qed.

(** X22 on a form with a third option. *)
Lemma three_option_form_keeps_its_size :
  (2 ≤ length ["Tea"; " "; "Coffee"] ≤ 10)%nat.
Proof.
  apply (form_keeps_between_two_and_ten_options ["Tea"; " "; "Coffee"]
           three_option_form_is_reached).
Defined.

Lemma validOptionsOf_filled (options : list string) :
  PollsRoute.validOptionsOf
    (Js.VStr <$> List.filter (λ opt, negb (bool_decide (Js.trim opt = ""))) options)
  = List.filter (λ opt, negb (bool_decide (Js.trim opt = ""))) options.
Proof.
  induction options as [|opt options IH]; [done|]. cbn [List.filter].
  case_bool_decide as E; cbn [negb]; [done|].
  rewrite fmap_cons. unfold PollsRoute.validOptionsOf in *.
  change (omap PollsRoute.valid_option (Js.VStr opt :: ?l))
    with (match PollsRoute.valid_option (Js.VStr opt) with
          | Some y => y :: omap PollsRoute.valid_option l
          | None => omap PollsRoute.valid_option l
          end).
  cbn [PollsRoute.valid_option]. rewrite bool_decide_eq_false_2 by done.
  by rewrite IH.
Qed.

(** X23.  When the form sends a request, it sends between two and ten
    options, none of them blank, and the create-poll route can refuse it
    only for its question: a blank question is answered 'Question is
    required' with nothing stored, and otherwise, the new id being free, the
    poll is created with the trimmed question and the trimmed non-blank
    options in their order. *)
Theorem submitted_form_is_refused_only_for_its_question
    (q : string) (opts : list string) (body : Js.value) :
  rtc Home.edit Home.initial_options opts →
  Home.handleSubmit q opts = Some body →
  let validOptions :=
    List.filter (λ opt, negb (bool_decide (Js.trim opt = ""))) opts in
  (2 ≤ length validOptions ≤ 10)%nat ∧
  ∀ db newId appUrl now,
    (Js.trim q = "" →
     PollsRoute.POST db body newId appUrl now
     = (PollsRoute.BadRequest "Question is required", db)) ∧
    (Js.trim q ≠ "" → polls db !! newId = None →
     PollsRoute.POST db body newId appUrl now
     = (PollsRoute.Created newId (Js.trim q) (Js.trim <$> validOptions)
          (default "http://localhost:3000" (Js.or_else appUrl None)
             +:+ "/poll/" +:+ newId),
        {| polls := <[newId := {| question := Js.trim q;
                                  options := Js.trim <$> validOptions;
                                  poll_createdAt := now |}]> (polls db);
           votes := votes db |})).
Proof.
  intros Hrun Hsubmit validOptions. unfold Home.handleSubmit in Hsubmit.
  fold validOptions in Hsubmit.
  destruct (length validOptions <? 2)%nat eqn:Hlen; [done|].
  apply Nat.ltb_ge in Hlen. injection Hsubmit as <-.
  pose proof (rtc_edit_length opts Hrun) as Hopts.
  pose proof (List.filter_length_le (λ opt, negb (bool_decide (Js.trim opt = "")))
                opts) as Hfilter.
  fold validOptions in Hfilter.
  split; [lia|]. intros db newId appUrl now. split.
  - intros Hblank. unfold PollsRoute.POST, PollsRoute.validate.
    cbn [Js.destructure Js.assoc String.eqb Ascii.eqb Bool.eqb early_bind from_option
         continue respond].
    rewrite Hblank. rewrite (bool_decide_eq_true_2 ("" = "")) by done. reflexivity.
  - intros Hfilled Hfree.
    assert (creatable (Js.VObj [("question", Js.VStr (Js.trim q));
                                ("options", Js.VArr (Js.VStr <$> validOptions))])
                      (Js.trim q) (Js.VStr <$> validOptions)) as Hc.
    { split; [done|]. split; [by rewrite trim_idem|]. split; [done|].
      unfold validOptions. rewrite validOptionsOf_filled. fold validOptions. lia. }
    unfold PollsRoute.POST. rewrite (validate_creatable _ _ _ Hc). unfold continue.
    rewrite Hfree, trim_idem. subst validOptions.
    rewrite validOptionsOf_filled. reflexivity.
Qed.

(** X23 on a form whose second option is a space. *)
Lemma form_with_a_blank_option_creates_the_other_two :
  PollsRoute.POST empty_db
    (Js.VObj [("question", Js.VStr "Drinks?");
              ("options", Js.VArr [Js.VStr "Tea"; Js.VStr "Coffee"])])
    "p9" None 5
  = (PollsRoute.Created "p9" "Drinks?" ["Tea"; "Coffee"]
       "http://localhost:3000/poll/p9",
     {| polls := <["p9" := {| question := "Drinks?"; options := ["Tea"; "Coffee"];
                              poll_createdAt := 5 |}]> ∅;
        votes := [] |}).
Proof.
  destruct (submitted_form_is_refused_only_for_its_question
              " Drinks? " ["Tea"; " "; "Coffee"]
              (Js.VObj [("question", Js.VStr "Drinks?");
                        ("options", Js.VArr [Js.VStr "Tea"; Js.VStr "Coffee"])])
              three_option_form_is_reached eq_refl) as [_ Hpost].
  destruct (Hpost empty_db "p9" None 5) as [_ Hcreated].
  apply Hcreated; [vm_compute; discriminate|reflexivity].
Defined.

(** ** Live updates and fetches agree *)

(** X24.  After any run of the routes, applying the update that a
    subscriber is sent (or the one that is broadcast, which is the same) to
    a page that loaded the poll earlier gives exactly the payload that the
    fetch-poll route serves now. *)
Theorem live_update_equals_a_fresh_fetch
    (db db' : Db) (id : string) (p : PollRoute.Payload) (st : PollPage.State) :
  rtc step db db' →
  PollRoute.GET db id = PollRoute.Found p →
  PollPage.poll st = Some p →
  ∃ u, StreamRoute.sendPollUpdate db' id = Some u ∧
       (∀ connections throws delivered u',
          (StreamRoute.broadcastPollUpdate db' connections throws id).1
          = Some (u', delivered) → u' = u) ∧
       PollRoute.GET db' id
       = from_option PollRoute.Found PollRoute.NotFound
           (PollPage.poll (PollPage.onmessage st (PollPage.UpdateMessage u))).
Proof.
  intros Hrun Hget Hst. unfold PollRoute.GET in Hget.
  destruct (polls db !! id) as [[q opts created]|] eqn:Hpoll; [|done].
  injection Hget as <-.
  pose proof (proj2 (rtc_step_monotone db db' Hrun) _ _ Hpoll) as Hpoll'.
  unfold StreamRoute.sendPollUpdate, StreamRoute.broadcastPollUpdate, PollRoute.GET.
  rewrite Hpoll'. eexists. split; [done|]. split.
  - intros connections throws delivered u'.
    destruct (connections !! id) as [s|]; [|done].
    case_bool_decide; [done|]. cbn [fst]. by intros [= <- _].
  - cbn [PollPage.onmessage PollPage.poll]. rewrite Hst. reflexivity.
Qed.

(** X24 on the small run. *)
Lemma live_update_after_the_first_tea_vote :
  ∃ u, StreamRoute.sendPollUpdate tea_db_voted "p1" = Some u ∧
       PollRoute.GET tea_db_voted "p1"
       = from_option PollRoute.Found PollRoute.NotFound
           (PollPage.poll
              (PollPage.onmessage
                 (PollPage.fetchPoll PollPage.initial
                    (PollPage.FetchReplied (PollRoute.GET tea_db "p1"))).1
                 (PollPage.UpdateMessage u))).
Proof.
  destruct (live_update_equals_a_fresh_fetch tea_db tea_db_voted "p1"
              {| PollRoute.id := "p1"; PollRoute.question := "Tea or coffee?";
                 PollRoute.options := ["Tea"; "Coffee"];
                 PollRoute.voteCounts := [0%nat; 0%nat];
                 PollRoute.totalVotes := 0; PollRoute.createdAt := 0 |}
              (PollPage.fetchPoll PollPage.initial
                    (PollPage.FetchReplied (PollRoute.GET tea_db "p1"))).1)
    as (u & Hsend & _ & Hfetch).
  - apply rtc_once. apply (step_vote tea_db (vote_request "p1" (Js.of_Z 0) "x1") 1000).
  - vm_compute. reflexivity.
  - vm_compute. reflexivity.
  - exists u. split; [exact Hsend|exact Hfetch].
Defined.
